(** * SmartBackup: the backup index, the backup writer, verification,
      retention and restore of [Scripts/smart-backup.py]

    A shallow embedding of the [SmartBackup] class.  Directory trees are
    association lists in the order [rglob] enumerates them, the SQLite index
    is a pair of finite maps behind a connection with an explicit commit, and
    the library calls the class relies on ([hashlib.sha256], [gzip],
    [PurePath.match]) are parameters of the development. *)

From Stdlib Require Import ZArith List Ascii String Permutation Lia Bool.
From Stdlib.Strings Require Import Byte.
From stdpp Require Import base option list gmap strings sorting pretty.

Local Open Scope Z_scope.

(** ** Python values *)

(** [bytes] objects. *)
Definition bytes := list byte.

(** The result of a call that may raise. *)
Inductive exn :=
| PermissionError
| BadGzipFile
| FileExistsError
| NotADirectoryError
| IsADirectoryError.

Inductive outcome (A : Type) :=
| Returned (a : A)
| Raised (e : exn).
Arguments Returned {A} a.
Arguments Raised {A} e.

(** ** [str] methods *)
Module Str.

(** [s.startswith(p)] *)
Fixpoint startswith (p s : string) : bool :=
  match p, s with
  | EmptyString, _ => true
  | String a p', String b s' => if Ascii.eqb a b then startswith p' s' else false
  | String _ _, EmptyString => false
  end.

(** [s.find(sub)] counted from offset [i]: the lowest index at which [sub]
    occurs, [-1] when it does not occur. *)
Fixpoint find_from (i : Z) (s sub : string) : Z :=
  if startswith sub s then i
  else match s with
       | EmptyString => -1
       | String _ s' => find_from (i + 1) s' sub
       end.

Definition find (s sub : string) : Z := find_from 0 s sub.

(** [s.replace(c, '')] for a one-character [c]. *)
Fixpoint remove_char (c : ascii) (s : string) : string :=
  match s with
  | EmptyString => EmptyString
  | String a s' => if Ascii.eqb a c then remove_char c s' else String a (remove_char c s')
  end.

(** [s.rfind('.')], as an option. *)
Fixpoint rfind_char (c : ascii) (s : string) : option nat :=
  match s with
  | EmptyString => None
  | String a s' =>
      match rfind_char c s' with
      | Some i => Some (S i)
      | None => if Ascii.eqb a c then Some 0%nat else None
      end
  end.

(** [s.split(c)] *)
Fixpoint split (c : ascii) (s : string) : list string :=
  match s with
  | EmptyString => [EmptyString]
  | String a s' =>
      if Ascii.eqb a c then EmptyString :: split c s'
      else match split c s' with
           | w :: ws => String a w :: ws
           | [] => [String a EmptyString]
           end
  end.

(** [s[i:]] and [s[:i]] *)
Fixpoint drop (i : nat) (s : string) : string :=
  match i, s with
  | O, _ => s
  | S i', String _ s' => drop i' s'
  | S _, EmptyString => EmptyString
  end.

Fixpoint take (i : nat) (s : string) : string :=
  match i, s with
  | O, _ => EmptyString
  | S i', String a s' => String a (take i' s')
  | S _, EmptyString => EmptyString
  end.

End Str.

(** ** [pathlib] *)
Module Pathlib.

(** A [PurePosixPath], as its [parts]. *)
Definition Path := list string.

(** [str(p)] for a relative path. *)
Definition str (p : Path) : string := String.concat "/" p.

(** [p.name] *)
Definition name (p : Path) : string := List.last p EmptyString.

(** The suffix of a file name: from the last dot on, unless that dot is
    the first or the last character. *)
Definition name_suffix (n : string) : string :=
  match Str.rfind_char "." n with
  | Some i =>
      if ((0 <? i)%nat && (i <? String.length n - 1)%nat)%bool
      then Str.drop i n else EmptyString
  | None => EmptyString
  end.

(** [p.suffix] *)
Definition suffix (p : Path) : string := name_suffix (name p).

(** [p.parent] *)
Definition parent (p : Path) : Path := List.removelast p.

(** Replace the last part of a path. *)
Definition with_name (p : Path) (n : string) : Path :=
  parent p ++ [n].

(** [p.with_suffix('')] *)
Definition with_suffix_empty (p : Path) : Path :=
  let n := name p in
  let old := name_suffix n in
  with_name p (Str.take (String.length n - String.length old) n).

(** [Path(f"{p}.gz")] *)
Definition add_gz (p : Path) : Path :=
  with_name p (name p +:+ ".gz").

(** The order of [PurePath.__lt__]: the parts compared as lists of
    strings. *)
Fixpoint path_leb (p q : Path) : bool :=
  match p, q with
  | [], _ => true
  | _ :: _, [] => false
  | a :: p', b :: q' =>
      match String.compare a b with
      | Lt => true
      | Eq => path_leb p' q'
      | Gt => false
      end
  end.

Definition path_le (p q : Path) : Prop := path_leb p q = true.

(** [fnmatch.fnmatchcase] on the characters of one path part, for the
    wildcards [*] and [?]; bracket expressions are not covered. *)
Fixpoint fnmatch_chars (pat : list ascii) : list ascii → bool :=
  match pat with
  | [] => fun s => match s with [] => true | _ => false end
  | c :: pat' =>
      if Ascii.eqb c "*" then
        fix star (s : list ascii) : bool :=
          (fnmatch_chars pat' s
           || match s with [] => false | _ :: s' => star s' end)%bool
      else
        fun s =>
          match s with
          | [] => false
          | d :: s' => ((Ascii.eqb c "?" || Ascii.eqb c d) && fnmatch_chars pat' s')%bool
          end
  end.

Definition fnmatchcase (part pat : string) : bool :=
  fnmatch_chars (list_ascii_of_string pat) (list_ascii_of_string part).

(** The parts of a pattern: split on the separator, empty parts and [.]
    dropped, the root kept as a part of its own. *)
Definition pattern_parts (pattern : string) : list string :=
  let comps :=
    List.filter (fun w => negb (String.eqb w EmptyString || String.eqb w "."))
                (Str.split "/" pattern) in
  if Str.startswith "/" pattern then "/" :: comps else comps.

Fixpoint zip_all (parts pats : list string) : bool :=
  match parts, pats with
  | part :: parts', pat :: pats' => fnmatchcase part pat && zip_all parts' pats'
  | _, _ => true
  end.

(** [PurePath.match]: the pattern is matched from the right, part by part;
    a rooted pattern has to cover the whole path. *)
Definition pure_path_match (p : Path) (pattern : string) : bool :=
  let pats := pattern_parts pattern in
  if Str.startswith "/" pattern then
    if (List.length pats =? List.length p)%nat
    then zip_all (List.rev p) (List.rev (List.tl pats))
    else false
  else
    if (List.length p <? List.length pats)%nat then false
    else zip_all (List.rev p) (List.rev pats).

End Pathlib.
Import Pathlib.

(** ** The file system *)

(** A regular file: its modification time (microseconds), whether it can be
    opened for reading, and its bytes. *)
Record File := mkFile {
  st_mtime : Z;
  readable : bool;
  data : bytes
}.

Definition st_size (f : File) : Z := Z.of_nat (List.length (data f)).

Inductive Node :=
| Dir
| Reg (f : File).

(** A directory tree: the paths below a root, relative to it, in the order
    [root.rglob("*")] yields them.  A run directory records the directories
    the copy loop makes next to the files it writes; the destination of a
    restore records regular files only. *)
Definition Tree := list (Path * Node).

Definition rglob (t : Tree) : list Path := List.map fst t.

Fixpoint tree_get (t : Tree) (p : Path) : option Node :=
  match t with
  | [] => None
  | (q, n) :: t' => if decide (q = p) then Some n else tree_get t' p
  end.

(** Create or truncate the file at [p] and write it. *)
Fixpoint write_file (t : Tree) (p : Path) (f : File) : Tree :=
  match t with
  | [] => [(p, Reg f)]
  | (q, n) :: t' =>
      if decide (q = p) then (p, Reg f) :: t' else (q, n) :: write_file t' p f
  end.

(** The regular files of a tree, in enumeration order. *)
Fixpoint regular_files (t : Tree) : list (Path * File) :=
  match t with
  | [] => []
  | (p, Reg f) :: t' => (p, f) :: regular_files t'
  | (_, Dir) :: t' => regular_files t'
  end.

(** A directory and the directories above it, below the root, the outermost
    first. *)
Fixpoint ancestors (d : Path) : list Path :=
  match d with
  | [] => []
  | a :: d' => [a] :: List.map (cons a) (ancestors d')
  end.

Definition is_reg (t : Tree) (p : Path) : bool :=
  match tree_get t p with
  | Some (Reg _) => true
  | _ => false
  end.

(** [os.mkdir(p)] where nothing is in the way: a directory that is there
    stays as it is. *)
Definition make_dir (t : Tree) (p : Path) : Tree :=
  match tree_get t p with
  | Some _ => t
  | None => t ++ [(p, Dir)]
  end.

(** [d.mkdir(parents=True, exist_ok=True)] for [d] below the root of the
    tree.  A regular file at [d] or above it makes the first [os.mkdir]
    fail, with [EEXIST] at [d] itself and with [ENOTDIR] above it, before
    anything is made; [exist_ok] only pardons a directory.  Else the
    directories that are missing on the way are made. *)
Definition mkdir (t : Tree) (d : Path) : outcome Tree :=
  match List.find (is_reg t) (ancestors d) with
  | Some p => Raised (if decide (p = d) then FileExistsError else NotADirectoryError)
  | None => Returned (List.fold_left make_dir (ancestors d) t)
  end.

(** [open(p, 'wb')]: the file is created or truncated and written; a
    directory cannot be opened for writing. *)
Definition open_wb (t : Tree) (p : Path) (f : File) : outcome Tree :=
  match tree_get t p with
  | Some Dir => Raised IsADirectoryError
  | _ => Returned (write_file t p f)
  end.

(** ** The backup index *)

(** The compression ratio of a run: the literal [0] of the guarded branch,
    or the float [round((1 - compressed / total) * 100, 2)], kept as its two
    integer operands. *)
Inductive Ratio :=
| RatioZero
| RatioPercent (compressed total : Z).

Record Metadata := mkMetadata {
  vault_health_snapshot : string;
  git_commit : option string;
  files_copied : Z;
  compression_ratio : Ratio
}.

(** A row of [backups].  [timestamp] is the instant [datetime.now()] in
    microseconds: the column holds its [isoformat()] text, fixed-width fields
    from the year down, on which SQLite's bytewise comparison is the
    chronological order. *)
Record BackupRow := mkBackupRow {
  timestamp : Z;
  backup_type : string;
  file_count : Z;
  total_size : Z;
  compressed_size : Z;
  checksum : string;
  backup_path : string;
  metadata : Metadata
}.

(** A row of [file_hashes], keyed by [file_path].  [last_modified] is the
    instant that [datetime.fromisoformat] reads back from the column. *)
Record FileHashRow := mkFileHashRow {
  last_hash : string;
  last_modified : Z;
  last_backup_id : option Z
}.

(** The two tables; [backups_seq] is the AUTOINCREMENT counter, the largest
    id handed out so far. *)
Record Index := mkIndex {
  backups : gmap Z BackupRow;
  backups_seq : Z;
  file_hashes : gmap string FileHashRow
}.

Definition empty_index : Index := mkIndex ∅ 0 ∅.

(** The statements the class issues, and [commit]. *)
Inductive stmt :=
| ReplaceFileHash (file_path hash : string) (modified : Z)
| InsertBackup (row : BackupRow)
| DeleteBackup (id : Z)
| Commit.

(** A connection: what is on disk, and what the open transaction sees.  A
    process that dies leaves [durable]. *)
Record Conn := mkConn {
  durable : Index;
  pending : Index
}.

Definition connect (ix : Index) : Conn := mkConn ix ix.

(** [INSERT OR REPLACE INTO file_hashes (file_path, last_hash, last_modified)]:
    the row for the path is replaced as a whole, the column that is not
    named takes its default, NULL. *)
Definition replace_file_hash (ix : Index) (file_path hash : string) (modified : Z) : Index :=
  mkIndex (backups ix) (backups_seq ix)
          (<[file_path := mkFileHashRow hash modified None]> (file_hashes ix)).

(** [INSERT INTO backups (...)]: the id is the next of the sequence. *)
Definition insert_backup (ix : Index) (row : BackupRow) : Index :=
  let id := backups_seq ix + 1 in
  mkIndex (<[id := row]> (backups ix)) id (file_hashes ix).

(** [DELETE FROM backups WHERE id = ?] *)
Definition delete_backup (ix : Index) (id : Z) : Index :=
  mkIndex (delete id (backups ix)) (backups_seq ix) (file_hashes ix).

Definition execute (c : Conn) (s : stmt) : Conn :=
  match s with
  | ReplaceFileHash p h m => mkConn (durable c) (replace_file_hash (pending c) p h m)
  | InsertBackup row => mkConn (durable c) (insert_backup (pending c) row)
  | DeleteBackup id => mkConn (durable c) (delete_backup (pending c) id)
  | Commit => mkConn (pending c) (pending c)
  end.

Definition execute_all (c : Conn) (ss : list stmt) : Conn :=
  List.fold_left execute ss c.

(** [cursor.lastrowid] after an insert into [backups]. *)
Definition lastrowid (c : Conn) : Z := backups_seq (pending c).

(** The index file and the backup directories below the backup root, by
    path. *)
Record World := mkWorld {
  index : Index;
  store : gmap string Tree
}.

(** The configuration keys the class reads. *)
Record Config := mkConfig {
  retention_days : Z;
  compression : bool;
  exclude_patterns : list string
}.

Definition default_config : Config :=
  mkConfig 30 true
    [".obsidian/workspace*"; ".obsidian/hotkeys.json"; ".obsidian/app.json";
     ".DS_Store"; "*.tmp"; "__pycache__"].

(** ** The class *)

Global Instance path_le_dec (p q : Path) : Decision (path_le p q).
Proof. unfold path_le. apply _. Defined.

(** Microseconds in [timedelta(days=1)]. *)
Definition day_us : Z := 86400000000.
Definition second_us : Z := 1000000.

(** The size of one [f.read]. *)
Definition chunk_size : nat := 4096.
Arguments chunk_size : simpl never.

Section SmartBackup.

(** [hashlib.sha256(b).hexdigest()] *)
Variable sha256 : bytes → string.
(** [gzip]: what [gzip.open(_, 'wb')] writes for a payload and what
    [gzip.open(_, 'rb')] reads back, [None] when the bytes are not a gzip
    stream. *)
Variable gzip_compress : bytes → bytes.
Variable gzip_decompress : bytes → option bytes.
(** [PurePath.match], total on the non-empty patterns a configuration
    holds. *)
Variable path_match : Path → string → bool.
(** [str(backup_root / f"backup_{timestamp.replace(':', '-')}")] *)
Variable backup_dir : Z → string.

Variable config : Config.
Variable vault_path : Path.

(** *** [should_exclude] *)
Fixpoint exclude_loop (file_path rel : Path) (patterns : list string) : bool :=
  match patterns with
  | [] => false
  | pattern :: rest =>
      if (path_match file_path pattern
          || negb (Str.find (str rel) (Str.remove_char "*" pattern) =? -1))%bool
      then true
      else exclude_loop file_path rel rest
  end.

Definition should_exclude (rel : Path) : bool :=
  exclude_loop (vault_path ++ rel) rel (exclude_patterns config).

(** *** [hashlib] objects and the chunked read *)

(** A hash object is the bytes fed to it so far. *)
Definition update (h : bytes) (chunk : bytes) : bytes := h ++ chunk.
Definition hexdigest (h : bytes) : string := sha256 h.

(** [iter(lambda: f.read(4096), b"")]: the chunks read until the empty
    one; a file of [n] bytes is read in at most [n] steps. *)
Fixpoint read_chunks (fuel : nat) (d : bytes) : list bytes :=
  match fuel with
  | O => []
  | S k =>
      match d with
      | [] => []
      | _ => take chunk_size d :: read_chunks k (drop chunk_size d)
      end
  end.

Definition feed_file (h : bytes) (f : File) : bytes :=
  List.fold_left update (read_chunks (List.length (data f)) (data f)) h.

(** *** [calculate_file_hash] *)
Definition calculate_file_hash (f : File) : string :=
  if readable f then hexdigest (feed_file [] f) else EmptyString.

(** *** [get_changed_files] *)
Fixpoint changed_loop (ix : Index) (entries : Tree) : list (Path * File) :=
  match entries with
  | [] => []
  | (rel, Dir) :: rest => changed_loop ix rest
  | (rel, Reg f) :: rest =>
      if negb (should_exclude rel) then
        match file_hashes ix !! str rel with
        | Some row =>
            if last_modified row <? st_mtime f then
              if negb (String.eqb (calculate_file_hash f) (last_hash row))
              then (rel, f) :: changed_loop ix rest
              else changed_loop ix rest
            else changed_loop ix rest
        | None => (rel, f) :: changed_loop ix rest
        end
      else changed_loop ix rest
  end.

Definition get_changed_files (vault : Tree) (ix : Index) : list (Path * File) :=
  changed_loop ix vault.

(** The file set of a run that is not incremental. *)
Definition all_files (vault : Tree) : list (Path * File) :=
  List.filter (fun e => negb (should_exclude (fst e))) (regular_files vault).

(** *** [calculate_backup_checksum] *)
Fixpoint checksum_loop (t : Tree) (paths : list Path) (h : bytes) : outcome bytes :=
  match paths with
  | [] => Returned h
  | p :: rest =>
      match tree_get t p with
      | Some (Reg f) =>
          if readable f
          then checksum_loop t rest (feed_file (update h (list_byte_of_string (str p))) f)
          else Raised PermissionError
      | _ => checksum_loop t rest h
      end
  end.

Definition calculate_backup_checksum (t : Tree) : outcome string :=
  match checksum_loop t (merge_sort path_le (rglob t)) [] with
  | Returned h => Returned (hexdigest h)
  | Raised e => Raised e
  end.

(** *** [create_backup] *)

Definition compressible (rel : Path) : bool :=
  (compression config
   && (String.eqb (suffix rel) ".md" || String.eqb (suffix rel) ".txt"
       || String.eqb (suffix rel) ".json"))%bool.

(** The state of the copy loop: the run directory, the statements issued
    on the connection, the two counters, and the exception that has left the
    loop, if any. *)
Record CopyState := mkCopyState {
  dest : Tree;
  issued : list stmt;
  total : Z;
  copied : Z;
  raised : option exn
}.

(** The compressing branch: the source is opened, then
    [gzip.open(f"{dest_path}.gz", 'wb')] creates the destination, written
    at [now]. *)
Definition compress_file (now : Z) (t : Tree) (rel : Path) (f : File) : outcome Tree :=
  if readable f
  then open_wb t (add_gz rel) (mkFile now true (gzip_compress (data f)))
  else Raised PermissionError.

(** [shutil.copy2(file_path, dest_path)]: a destination that is a directory
    stands for the file of the source's name inside it; the source is opened
    first, then the destination; the copy keeps the modification time. *)
Definition copy2 (t : Tree) (rel : Path) (f : File) : outcome Tree :=
  let dst :=
    match tree_get t rel with
    | Some Dir => rel ++ [name rel]
    | _ => rel
    end in
  if readable f
  then open_wb t dst (mkFile (st_mtime f) true (data f))
  else Raised PermissionError.

(** The file operations of the [try] block. *)
Definition backup_file (now : Z) (t : Tree) (e : Path * File) : outcome Tree :=
  if compressible (fst e) then compress_file now t (fst e) (snd e)
  else copy2 t (fst e) (snd e).

(** One iteration.  [dest_path.parent.mkdir] stands before the [try]: when
    it raises, the exception leaves the loop and the iterations that remain
    do not run.  Inside the [try] both branches open the source first, so a
    file that cannot be read leaves the run directory as [mkdir] left it; the
    [except] clause then skips the upsert and the counters, as it does when
    the destination cannot be opened. *)
Definition copy_one (now : Z) (s : CopyState) (e : Path * File) : CopyState :=
  let '(rel, f) := e in
  match raised s with
  | Some _ => s
  | None =>
      match mkdir (dest s) (parent rel) with
      | Raised x => mkCopyState (dest s) (issued s) (total s) (copied s) (Some x)
      | Returned t =>
          match backup_file now t (rel, f) with
          | Returned t' =>
              mkCopyState t'
                (issued s ++ [ReplaceFileHash (str rel) (calculate_file_hash f) (st_mtime f)])
                (total s + st_size f) (copied s + 1) None
          | Raised _ => mkCopyState t (issued s) (total s) (copied s) None
          end
      end
  end.

Definition copy_files (now : Z) (t0 : Tree) (files : list (Path * File)) : CopyState :=
  List.fold_left (copy_one now) files (mkCopyState t0 [] 0 0 None).

(** [sum(f.stat().st_size for f in backup_dir.rglob("*") if f.is_file())] *)
Definition tree_size (t : Tree) : Z :=
  List.fold_right (fun e acc => st_size (snd e) + acc) 0 (regular_files t).

Definition ratio_of (compressed total : Z) : Ratio :=
  if 0 <? total then RatioPercent compressed total else RatioZero.

(** The dictionary [create_backup] returns. *)
Record BackupInfo := mkBackupInfo {
  info_id : Z;
  info_timestamp : Z;
  info_type : string;
  info_file_count : Z;
  info_total_size : Z;
  info_compressed_size : Z;
  info_compression_ratio : Ratio;
  info_checksum : string;
  info_path : string
}.

Definition files_to_backup (btype : string) (vault : Tree) (ix : Index) : list (Path * File) :=
  if String.eqb btype "incremental" then get_changed_files vault ix
  else all_files vault.

(** The run directory as the copy loop leaves it: [mkdir(exist_ok=True)]
    keeps what a directory of that name already holds. *)
Definition run_copy (btype : string) (now : Z) (vault : Tree) (w : World) : CopyState :=
  copy_files now (default [] (store w !! backup_dir now : option Tree))
             (files_to_backup btype vault (index w)).

(** The row of the run; [health] and [git] are what
    [get_vault_health_snapshot] and [get_git_commit] return, neither
    raises. *)
Definition backup_row (btype : string) (now : Z) (health : string) (git : option string)
    (s : CopyState) (sum : string) : BackupRow :=
  let csize := tree_size (dest s) in
  mkBackupRow now btype (copied s) (total s) csize sum (backup_dir now)
    (mkMetadata health git (copied s) (ratio_of csize (total s))).

(** The statements of a run, in the order they reach the database: the
    upserts of the copy loop, the commit that leaving the first [with]
    block performs, and, when the checksum could be computed, the insert
    of the second block and its commit.  An exception that leaves the first
    [with] block makes the connection roll back: no commit follows the
    upserts. *)
Definition create_backup_stmts (btype : string) (now : Z) (health : string)
    (git : option string) (vault : Tree) (w : World) : list stmt :=
  let s := run_copy btype now vault w in
  match raised s with
  | Some _ => issued s
  | None =>
      issued s ++ [Commit] ++
      match calculate_backup_checksum (dest s) with
      | Returned sum => [InsertBackup (backup_row btype now health git s sum); Commit]
      | Raised _ => []
      end
  end.

Definition create_backup (btype : string) (now : Z) (health : string)
    (git : option string) (vault : Tree) (w : World) : World * outcome BackupInfo :=
  let s := run_copy btype now vault w in
  let c := execute_all (connect (index w))
             (create_backup_stmts btype now health git vault w) in
  let w' := mkWorld (durable c) (<[backup_dir now := dest s]> (store w)) in
  match raised s with
  | Some x => (w', Raised x)
  | None =>
      match calculate_backup_checksum (dest s) with
      | Returned sum =>
          (w', Returned (mkBackupInfo (lastrowid c) now btype (copied s) (total s)
                           (tree_size (dest s)) (ratio_of (tree_size (dest s)) (total s))
                           sum (backup_dir now)))
      | Raised e => (w', Raised e)
      end
  end.

(** What is on disk when the process dies after [k] statements of the
    run. *)
Definition index_after_kill (k : nat) (btype : string) (now : Z) (health : string)
    (git : option string) (vault : Tree) (w : World) : Index :=
  durable (execute_all (connect (index w))
             (take k (create_backup_stmts btype now health git vault w))).

(** *** [verify_backup] *)
Definition verify_backup (w : World) (backup_id : Z) : outcome bool :=
  match backups (index w) !! backup_id with
  | None => Returned false
  | Some row =>
      match store w !! backup_path row with
      | None => Returned false
      | Some t =>
          match calculate_backup_checksum t with
          | Returned current => Returned (String.eqb current (checksum row))
          | Raised e => Raised e
          end
      end
  end.

(** *** [cleanup_old_backups] *)

(** [SELECT id, backup_path FROM backups WHERE timestamp < ?] *)
Definition select_old (ix : Index) (cutoff : Z) : list (Z * string) :=
  List.map (fun e => (fst e, backup_path (snd e)))
    (List.filter (fun e => timestamp (snd e) <? cutoff) (map_to_list (backups ix))).

(** What [shutil.rmtree] leaves of a directory when it raises.  It removes
    entry after entry, in the order [os.scandir] hands them out, and raises
    at the first one it cannot remove: [rmtree_keeps] tells which entries
    are still there at that point.  The directory itself is removed last, so
    it is there whenever the call raises. *)
Definition rmtree_rest (rmtree_keeps : string → Path → bool) (path : string) (t : Tree)
    : Tree :=
  List.filter (λ e, rmtree_keeps path (fst e)) t.

(** One iteration of the loop.  [rmtree_fails] tells for which directories
    [shutil.rmtree] raises; the [except] clause then skips the DELETE. *)
Definition cleanup_one (rmtree_fails : string → bool) (rmtree_keeps : string → Path → bool)
    (s : gmap string Tree * Conn) (b : Z * string) : gmap string Tree * Conn :=
  let '(dirs, c) := s in
  let '(backup_id, path) := b in
  match dirs !! path with
  | Some t =>
      if rmtree_fails path then (<[path := rmtree_rest rmtree_keeps path t]> dirs, c)
      else (delete path dirs, execute c (DeleteBackup backup_id))
  | None => (dirs, execute c (DeleteBackup backup_id))
  end.

Definition cleanup_old_backups (now : Z) (rmtree_fails : string → bool)
    (rmtree_keeps : string → Path → bool) (w : World) : World :=
  let cutoff := now - retention_days config * day_us in
  let old_backups := select_old (index w) cutoff in
  let '(dirs, c) :=
    List.fold_left (cleanup_one rmtree_fails rmtree_keeps) old_backups
      (store w, connect (index w)) in
  mkWorld (durable (execute c Commit)) dirs.

(** *** [restore_backup] *)

(** One file of the loop, written at time [now]: the new destination
    tree, or the tree as the failing call leaves it.  [gzip.open] opens
    the stored file, then the destination is created, then the first read
    decodes: bytes that are no gzip stream leave an empty destination
    file behind. *)
Definition restore_one (now : Z) (t : Tree) (e : Path * File) : Tree * option exn :=
  let '(rel, f) := e in
  if String.eqb (suffix rel) ".gz" then
    if readable f then
      match gzip_decompress (data f) with
      | Some d => (write_file t (with_suffix_empty rel) (mkFile now true d), None)
      | None => (write_file t (with_suffix_empty rel) (mkFile now true []), Some BadGzipFile)
      end
    else (t, Some PermissionError)
  else
    if readable f then (write_file t rel (mkFile (st_mtime f) true (data f)), None)
    else (t, Some PermissionError).

Fixpoint restore_loop (now : Z) (t : Tree) (files : list (Path * File)) : Tree * outcome bool :=
  match files with
  | [] => (t, Returned true)
  | e :: rest =>
      match restore_one now t e with
      | (t', None) => restore_loop now t' rest
      | (t', Some x) => (t', Raised x)
      end
  end.

Definition restore_backup (now : Z) (w : World) (backup_id : Z) (target : Tree)
    : Tree * outcome bool :=
  match backups (index w) !! backup_id with
  | None => (target, Returned false)
  | Some row =>
      match store w !! backup_path row with
      | None => (target, Returned false)
      | Some t => restore_loop now target (regular_files t)
      end
  end.

End SmartBackup.

(** *** [list_backups] *)

(** A size in megabytes: the literal [0] of the guarded branch, or the float
    [round(size / (1024*1024), 2)], kept as its integer operand. *)
Inductive Megabytes :=
| MbZero
| MbRounded (size : Z).

(** One dictionary of the list. *)
Record BackupListing := mkBackupListing {
  l_id : Z;
  l_timestamp : Z;
  l_type : string;
  l_file_count : Z;
  l_total_size_mb : Megabytes;
  l_compressed_size_mb : Megabytes;
  l_path : string;
  l_exists : bool
}.

(** [ORDER BY timestamp DESC]; rows with the same timestamp come in an order
    SQLite does not fix. *)
Definition newer_first (a b : Z * BackupRow) : Prop :=
  timestamp (snd b) ≤ timestamp (snd a).

Global Instance newer_first_dec (a b : Z * BackupRow) : Decision (newer_first a b).
Proof. unfold newer_first. apply _. Defined.

Definition listing (dirs : gmap string Tree) (e : Z * BackupRow) : BackupListing :=
  let row := snd e in
  mkBackupListing (fst e) (timestamp row) (backup_type row) (file_count row)
    (MbRounded (total_size row))
    (if compressed_size row =? 0 then MbZero else MbRounded (compressed_size row))
    (backup_path row)
    (bool_decide (is_Some (dirs !! backup_path row))).

Definition list_backups (w : World) : list BackupListing :=
  List.map (listing (store w)) (merge_sort newer_first (map_to_list (backups (index w)))).

(** ** The vocabulary of the statements *)

(** What [calculate_backup_checksum] sees of a path: whether a regular file
    is there, whether it can be read, and its bytes. *)
Definition file_at (t : Tree) (p : Path) : option (bool * bytes) :=
  match tree_get t p with
  | Some (Reg f) => Some (readable f, data f)
  | _ => None
  end.

(** The paths of the regular files of a tree, in enumeration order. *)
Definition file_paths (t : Tree) : list Path :=
  filter (λ p, is_Some (file_at t p)) (rglob t).

(** The bytes the checksum is taken of: for each regular file, in the
    sorted order of the paths, the encoded relative path and the content. *)
Definition payload_at (t : Tree) (p : Path) : bytes :=
  list_byte_of_string (str p) ++ from_option snd [] (file_at t p).

Definition sorted_payload (t : Tree) : bytes :=
  List.concat (List.map (payload_at t) (merge_sort path_le (file_paths t))).

Definition all_readable (t : Tree) : Prop :=
  ∀ p b d, file_at t p = Some (b, d) → b = true.

(** The removal of a directory fails when the directory is there and
    [shutil.rmtree] raises on it. *)
Definition blocked (rmtree_fails : string → bool) (dirs : gmap string Tree)
    (path : string) : bool :=
  bool_decide (is_Some (dirs !! path)) && rmtree_fails path.

(** The rows the loop deletes and the directories it removes, read off the
    selected rows and the directories at the start. *)
Definition row_deleted (rmtree_fails : string → bool) (dirs : gmap string Tree)
    (old : list (Z * string)) (id : Z) : bool :=
  existsb (λ b, (fst b =? id) && negb (blocked rmtree_fails dirs (snd b))) old.

Definition dir_removed (rmtree_fails : string → bool) (old : list (Z * string))
    (path : string) : bool :=
  existsb (λ b, String.eqb (snd b) path && negb (rmtree_fails path)) old.

(** The directories that the loop tries to remove and fails on. *)
Definition dir_emptied (rmtree_fails : string → bool) (old : list (Z * string))
    (path : string) : bool :=
  existsb (λ b, String.eqb (snd b) path && rmtree_fails path) old.

(** The instant before which [cleanup_old_backups] selects. *)
Definition cutoff_date (config : Config) (now : Z) : Z :=
  now - retention_days config * day_us.

(** The files of a list written one after the other. *)
Definition write_all (t : Tree) (l : list (Path * File)) : Tree :=
  List.fold_left (λ t e, write_file t (fst e) (snd e)) l t.

Definition as_entries (l : list (Path * File)) : Tree :=
  List.map (λ e, (fst e, Reg (snd e))) l.

(** Every id of [backups] has been handed out by the sequence. *)
Definition ids_bounded (ix : Index) : Prop :=
  ∀ id row, backups ix !! id = Some row → id ≤ backups_seq ix.

(** The sum of the sizes of the files of a list. *)
Definition sizes (files : list (Path * File)) : Z :=
  List.fold_right (λ e acc, st_size (snd e) + acc) 0 files.


Section Vocabulary.
Variable sha256 : bytes → string.
Variable gzip_compress : bytes → bytes.
Variable path_match : Path → string → bool.
Variable backup_dir : Z → string.
Variable config : Config.
Variable vault_path : Path.

(** The decision [get_changed_files] takes for one regular file. *)
Definition selected (ix : Index) (e : Path * File) : bool :=
  negb (should_exclude path_match config vault_path (fst e))
  && match file_hashes ix !! str (fst e) with
     | Some row =>
         (last_modified row <? st_mtime (snd e))
         && negb (String.eqb (calculate_file_hash sha256 (snd e)) (last_hash row))
     | None => true
     end.

(** The files of a list that can be read. *)
Definition copyable (files : list (Path * File)) : list (Path * File) :=
  List.filter (λ e, readable (snd e)) files.

(** The name under which the copy loop stores a file. *)
Definition stored_name (rel : Path) : Path :=
  if compressible config rel then add_gz rel else rel.

(** No name under which a file of the list is stored is the name of a
    directory the loop makes for a file of the list. *)
Definition names_apart (files : list (Path * File)) : Prop :=
  Forall (λ e1, Forall (λ e2, stored_name (fst e1) ∉ ancestors (parent (fst e2))) files)
         files.

(** What a run directory holds comes from the files the loop is done with:
    a regular file has the stored name of one that can be read, a
    directory stands above one. *)
Definition regs_from (t : Tree) (done : list (Path * File)) : Prop :=
  ∀ q g, tree_get t q = Some (Reg g) →
         ∃ e, In e (copyable done) ∧ q = stored_name (fst e).

Definition dirs_from (t : Tree) (done : list (Path * File)) : Prop :=
  ∀ q, tree_get t q = Some Dir → ∃ e, In e done ∧ q ∈ ancestors (parent (fst e)).

(** The files the copy loop copies into the tree [t], in order: those it
    reaches before a [mkdir] raises and whose copy does not raise. *)
Fixpoint copied_from (now : Z) (t : Tree) (files : list (Path * File))
    : list (Path * File) :=
  match files with
  | [] => []
  | e :: rest =>
      match mkdir t (parent (fst e)) with
      | Raised _ => []
      | Returned t1 =>
          match backup_file gzip_compress config now t1 e with
          | Returned t2 => e :: copied_from now t2 rest
          | Raised _ => copied_from now t1 rest
          end
      end
  end.

(** The files a run copies. *)
Definition run_copied (btype : string) (now : Z) (vault : Tree) (w : World)
    : list (Path * File) :=
  copied_from now (default [] (store w !! backup_dir now : option Tree))
    (files_to_backup sha256 path_match config vault_path btype vault (index w)).

(** The run copies the file and commits its upsert: no exception leaves the
    copy loop. *)
Definition commits (btype : string) (now : Z) (vault : Tree) (w : World)
    (e : Path * File) : Prop :=
  raised (run_copy sha256 gzip_compress path_match backup_dir config vault_path
            btype now vault w) = None
  ∧ In e (run_copied btype now vault w).

(** The row an upsert writes, and the statement that writes it. *)
Definition row_of (e : Path * File) : FileHashRow :=
  mkFileHashRow (calculate_file_hash sha256 (snd e)) (st_mtime (snd e)) None.

Definition upsert_of (e : Path * File) : stmt :=
  ReplaceFileHash (str (fst e)) (calculate_file_hash sha256 (snd e)) (st_mtime (snd e)).

Definition apply_upserts (fh : gmap string FileHashRow) (files : list (Path * File))
    : gmap string FileHashRow :=
  List.fold_left (λ m e, <[str (fst e) := row_of e]> m) files fh.

(** The index once the first [with] block has committed: all the upserts of
    the run, and the [backups] table as it was. *)
Definition upserts_committed (btype : string) (now : Z) (vault : Tree) (w : World) : Index :=
  mkIndex (backups (index w)) (backups_seq (index w))
    (apply_upserts (file_hashes (index w)) (run_copied btype now vault w)).

(** The statements of the second [with] block. *)
Definition record_stmts (btype : string) (now : Z) (health : string) (git : option string)
    (vault : Tree) (w : World) : list stmt :=
  match calculate_backup_checksum sha256
          (dest (run_copy sha256 gzip_compress path_match backup_dir config vault_path
                   btype now vault w)) with
  | Returned sum =>
      [InsertBackup
         (backup_row backup_dir btype now health git
            (run_copy sha256 gzip_compress path_match backup_dir config vault_path
               btype now vault w) sum);
       Commit]
  | Raised _ => []
  end.

(** What the copy loop stores for a file, where nothing is in the way, and
    what the restore loop writes for the stored file. *)
Definition stored_entry (now : Z) (e : Path * File) : Path * File :=
  if compressible config (fst e)
  then (add_gz (fst e), mkFile now true (gzip_compress (data (snd e))))
  else (fst e, mkFile (st_mtime (snd e)) true (data (snd e))).

Definition restored_entry (later : Z) (e : Path * File) : Path * File :=
  (fst e, if compressible config (fst e) then mkFile later true (data (snd e))
          else mkFile (st_mtime (snd e)) true (data (snd e))).

(** A file of the vault that the restore can tell from a compressed copy:
    it has a name, and the name does not end in [.gz]. *)
Definition plain_name (e : Path * File) : Prop :=
  fst e ≠ [] ∧ name (fst e) ≠ EmptyString ∧ suffix (fst e) ≠ ".gz".

Global Instance names_apart_dec (files : list (Path * File)) :
  Decision (names_apart files).
Proof. unfold names_apart. apply _. Defined.

End Vocabulary.

(** ** Closed instances

    Stand-ins for the library calls, used where a statement is evaluated on
    concrete data: a digest that keeps the bytes, a codec that frames the
    payload with one byte, and the run directory named after the clock. *)
Module Sample.
Definition digest (b : bytes) : string := string_of_list_byte b.

Definition deflate (b : bytes) : bytes := x1f :: b.

Definition inflate (b : bytes) : option bytes :=
  match b with
  | x1f :: b' => Some b'
  | _ => None
  end.

Definition run_dir (now : Z) : string := "backups/backup_" +:+ pretty now.

Definition vault_root : Path := ["/"; "vault"].

Definition text (s : string) : bytes := list_byte_of_string s.

(** A backup directory, and the same files as another enumeration finds
    them, with other modification times. *)
Definition listing1 : Tree :=
  [ (["notes"], Dir);
    (["notes"; "a.md.gz"], Reg (mkFile 10 true (deflate (text "alpha"))));
    (["img.png"], Reg (mkFile 20 true (text "beta"))) ].

Definition listing2 : Tree :=
  [ (["img.png"], Reg (mkFile 99 true (text "beta")));
    (["notes"; "a.md.gz"], Reg (mkFile 77 true (deflate (text "alpha"))));
    (["notes"], Dir) ].
(** An empty backup root. *)
Definition world0 : World := mkWorld empty_index ∅.

(** A vault with one note. *)
Definition note : File := mkFile 5 true (text "hello").
Definition vault_note : Tree := [(["a.md"], Reg note)].

(** A vault whose only file cannot be read. *)
Definition vault_locked : Tree := [(["locked.md"], Reg (mkFile 3 false (text "secret")))].

(** A vault that holds a file named [*.gz] that is no gzip stream, and one
    that holds a genuine one. *)
Definition vault_gz : Tree := [(["archive.gz"], Reg (mkFile 5 true (text "not gzip")))].
Definition vault_gz_stream : Tree :=
  [(["archive.gz"], Reg (mkFile 5 true (deflate (text "inner"))))].

(** The class on the default configuration. *)
Definition backup := create_backup digest deflate pure_path_match run_dir default_config vault_root.
Definition killed := index_after_kill digest deflate pure_path_match run_dir default_config vault_root.
Definition changed := get_changed_files digest pure_path_match default_config vault_root.

(** An index that knows [a.md] from an earlier run. *)
Definition index_seen : Index :=
  mkIndex ∅ 0 {[ "a.md" := mkFileHashRow (digest (text "hullo")) 3 None ]}.

(** A backup record whose directory holds a file that cannot be read. *)
Definition row_unreadable : BackupRow :=
  mkBackupRow 1000 "full" 1 5 6 (digest (text "a.md.gz" ++ deflate (text "hello")))
    "backups/b1" (mkMetadata "{}" None 1 (RatioPercent 6 5)).
Definition world_unreadable : World :=
  mkWorld (mkIndex {[ 1 := row_unreadable ]} 1 ∅)
          {[ "backups/b1" := [(["a.md.gz"], Reg (mkFile 1000 false (deflate (text "hello"))))] ]}.

(** A record one second older than the cutoff of a pass at [clock], and one
    a second younger. *)
Definition clock : Z := 40 * day_us.
Definition row_old : BackupRow :=
  mkBackupRow (clock - 30 * day_us - second_us) "manual" 0 0 0 (digest []) "backups/old"
    (mkMetadata "{}" None 0 RatioZero).
Definition row_young : BackupRow :=
  mkBackupRow (clock - 30 * day_us + second_us) "manual" 0 0 0 (digest []) "backups/young"
    (mkMetadata "{}" None 0 RatioZero).
Definition world_old : World :=
  mkWorld (mkIndex {[ 1 := row_old; 2 := row_young ]} 2 ∅)
          {[ "backups/old" := []; "backups/young" := [] ]}.
Definition rmtree_denied (path : string) : bool := true.
Definition rmtree_ok (path : string) : bool := false.

(** The old record with two files in its directory, and a removal that
    deletes the note and then fails on the picture. *)
Definition dir_old : Tree :=
  [ (["a.md.gz"], Reg (mkFile 10 true (deflate (text "alpha"))));
    (["img.png"], Reg (mkFile 20 true (text "beta"))) ].
Definition world_stuck : World :=
  mkWorld (mkIndex {[ 1 := row_old; 2 := row_young ]} 2 ∅)
          {[ "backups/old" := dir_old; "backups/young" := [] ]}.
Definition rmtree_keeps_picture (path : string) (p : Path) : bool :=
  bool_decide (p = ["img.png"]).

(** A note the index knows, edited since, that cannot be read. *)
Definition note_locked : File := mkFile 5 false (text "hello").
Definition vault_note_locked : Tree := [(["a.md"], Reg note_locked)].
End Sample.


(** More data: a vault with a note in a folder, a picture and a temporary
    file, and a vault without text files. *)
Module Scenario.
Definition note : File := mkFile 5 true (Sample.text "alpha").
Definition picture : File := mkFile 7 true (Sample.text "beta").

Definition vault_two : Tree :=
  [ (["notes"], Dir);
    (["notes"; "a.md"], Reg note);
    (["img.png"], Reg picture);
    (["cache.tmp"], Reg (mkFile 9 true (Sample.text "junk"))) ].

Definition vault_plain : Tree :=
  [ (["img.png"], Reg picture);
    (["cache.tmp"], Reg (mkFile 9 true (Sample.text "junk"))) ].

(** What a full run over [vault_plain] returns. *)
Definition info_plain : BackupInfo :=
  mkBackupInfo 1 1000 "full" 1 4 4 (RatioPercent 4 4) "img.pngbeta" "backups/backup_1000".


Definition restore := restore_backup Sample.inflate.
Definition to_backup := files_to_backup Sample.digest pure_path_match default_config Sample.vault_root.
Definition copied_by :=
  run_copied Sample.digest Sample.deflate pure_path_match Sample.run_dir default_config
    Sample.vault_root.

(** A vault in which the stored name of a note, [d.md.gz], is the name of a
    directory, as [rglob] hands out the note first and as it hands out the
    directory first. *)
Definition vault_clash : Tree :=
  [ (["d.md"], Reg note);
    (["d.md.gz"], Dir);
    (["d.md.gz"; "b.png"], Reg picture) ].

Definition vault_clash_rev : Tree :=
  [ (["d.md.gz"], Dir);
    (["d.md.gz"; "b.png"], Reg picture);
    (["d.md"], Reg note) ].
End Scenario.

(** * Properties *)

(** ** [str.find] *)

Lemma startswith_app (p t : string) : Str.startswith p (p +:+ t) = true.
Proof.
  induction p as [|a p IH]; simpl; [reflexivity|].
  rewrite Ascii.eqb_refl. exact IH.
Qed.

Lemma startswith_inv (p s : string) :
  Str.startswith p s = true → ∃ t, s = p +:+ t.
Proof.
  revert s. induction p as [|a p IH]; intros s H.
  - exists s. reflexivity.
  - destruct s as [|b s]; simpl in H; [discriminate|].
    destruct (Ascii.eqb a b) eqn:E; [|discriminate].
    apply Ascii.eqb_eq in E. subst b.
    destruct (IH _ H) as [t ->]. exists t. reflexivity.
Qed.

Lemma find_from_lower (s sub : string) (i : Z) :
  Str.find_from i s sub = -1 ∨ i ≤ Str.find_from i s sub.
Proof.
  revert i. induction s as [|a s IH]; intros i; simpl.
  - destruct (Str.startswith sub ""); [right; lia | left; reflexivity].
  - destruct (Str.startswith sub (String a s)); [right; lia|].
    destruct (IH (i + 1)) as [H|H]; [left; exact H | right; lia].
Qed.

Lemma find_from_occurs (pre sub post : string) (i : Z) :
  0 ≤ i → Str.find_from i (pre +:+ sub +:+ post) sub ≠ -1.
Proof.
  revert i. induction pre as [|a pre IH]; intros i Hi.
  - change ("" +:+ sub +:+ post) with (sub +:+ post).
    destruct sub as [|b sub]; destruct post as [|c post]; simpl;
      rewrite ?Ascii.eqb_refl, ?startswith_app; lia.
  - simpl. destruct (Str.startswith sub (String a (pre +:+ sub +:+ post))); [lia|].
    apply IH. lia.
Qed.

Lemma find_from_found (s sub : string) (i : Z) :
  Str.find_from i s sub ≠ -1 → ∃ pre post, s = pre +:+ sub +:+ post.
Proof.
  revert i. induction s as [|a s IH]; intros i; simpl.
  - destruct (Str.startswith sub "") eqn:E; [|congruence].
    intros _. apply startswith_inv in E as [t ->]. exists "", t. reflexivity.
  - destruct (Str.startswith sub (String a s)) eqn:E.
    + intros _. apply startswith_inv in E as [t ->]. exists "", t. reflexivity.
    + intros H. destruct (IH _ H) as (pre & post & ->).
      exists (String a pre), post. reflexivity.
Qed.

(** [s.find(sub) != -1] says that [sub] occurs in [s]. *)
Lemma find_substring (s sub : string) :
  Str.find s sub ≠ -1 ↔ ∃ pre post, s = pre +:+ sub +:+ post.
Proof.
  split.
  - apply find_from_found.
  - intros (pre & post & ->). apply find_from_occurs. lia.
Qed.

(** ** The exclusion filter *)

Section Exclusion.
Variable path_match : Path → string → bool.

Lemma exclude_loop_true (file_path rel : Path) (patterns : list string) :
  exclude_loop path_match file_path rel patterns = true ↔
  ∃ pattern, In pattern patterns ∧
    (path_match file_path pattern = true
     ∨ Str.find (str rel) (Str.remove_char "*" pattern) ≠ -1).
Proof.
  induction patterns as [|p ps IH]; simpl.
  - split; [discriminate | intros (? & [] & _)].
  - destruct (path_match file_path p) eqn:Hm; simpl.
    { split; [|reflexivity]. intros _. exists p. auto. }
    destruct (Str.find (str rel) (Str.remove_char "*" p) =? -1) eqn:Hf; simpl.
    + apply Z.eqb_eq in Hf. rewrite IH. split.
      * intros (q & Hq & H). exists q. auto.
      * intros (q & [<-|Hq] & H).
        -- destruct H; congruence.
        -- exists q. auto.
    + apply Z.eqb_neq in Hf. split; [|reflexivity].
      intros _. exists p. auto.
Qed.
End Exclusion.

(** C9. [should_exclude] answers true for every path whose relative path
    contains, as a plain substring, one of the exclude patterns with its
    stars removed, whatever [PurePath.match] says about the pattern. *)
Theorem should_exclude_star_free_substring
    (path_match : Path → string → bool) (config : Config) (vault_path rel : Path)
    (pattern pre post : string) :
  In pattern (exclude_patterns config) →
  str rel = pre +:+ Str.remove_char "*" pattern +:+ post →
  should_exclude path_match config vault_path rel = true.
Proof.
  intros Hin Hsub. unfold should_exclude.
  apply exclude_loop_true. exists pattern. split; [exact Hin|].
  right. apply find_substring. exists pre, post. exact Hsub.
Qed.

(** The pattern [*.tmp] of the default configuration does not match
    [notes.tmpx.md] as a glob, and the file is excluded all the same. *)
Lemma should_exclude_star_free_substring_witness :
  pure_path_match (["/"; "vault"] ++ ["notes.tmpx.md"]) "*.tmp" = false
  ∧ should_exclude pure_path_match default_config ["/"; "vault"] ["notes.tmpx.md"] = true.
Proof.
  split; [reflexivity|].
  apply (should_exclude_star_free_substring pure_path_match default_config
           ["/"; "vault"] ["notes.tmpx.md"] "*.tmp" "notes" "x.md").
  - simpl. tauto.
  - reflexivity.
Defined.

(** ** The order on paths *)

Lemma string_compare_refl (s : string) : String.compare s s = Eq.
Proof.
  pose proof (String.compare_antisym s s) as H.
  destruct (String.compare s s); simpl in H; congruence.
Qed.

Lemma string_compare_lt_trans (a b c : string) :
  String.compare a b = Lt → String.compare b c = Lt → String.compare a c = Lt.
Proof.
  intros Hab Hbc.
  assert (Hle : String.le a c).
  { transitivity b; unfold String.le, String.leb; [rewrite Hab | rewrite Hbc]; exact I. }
  unfold String.le, String.leb in Hle.
  destruct (String.compare a c) eqn:Hac; [|reflexivity|destruct Hle].
  apply String.compare_eq_iff in Hac. subst c.
  rewrite String.compare_antisym, Hab in Hbc. discriminate.
Qed.

Global Instance path_le_total : Total path_le.
Proof.
  intros p. unfold path_le. induction p as [|a p IH]; intros [|b q]; simpl; auto.
  rewrite (String.compare_antisym b a).
  destruct (String.compare a b); simpl; auto.
Qed.

Global Instance path_le_trans : Transitive path_le.
Proof.
  intros p. unfold path_le.
  induction p as [|a p IH]; intros [|b q] [|c r]; simpl; auto; try discriminate.
  destruct (String.compare a b) eqn:Hab; try discriminate.
  - apply String.compare_eq_iff in Hab. subst b.
    destruct (String.compare a c); auto. apply IH.
  - destruct (String.compare b c) eqn:Hbc; try discriminate.
    + apply String.compare_eq_iff in Hbc. subst c. rewrite Hab. auto.
    + rewrite (string_compare_lt_trans _ _ _ Hab Hbc). auto.
Qed.

Global Instance path_le_antisym : AntiSymm eq path_le.
Proof.
  intros p. unfold path_le.
  induction p as [|a p IH]; intros [|b q]; simpl; auto; try discriminate.
  rewrite (String.compare_antisym b a).
  destruct (String.compare a b) eqn:Hab; simpl; try discriminate.
  apply String.compare_eq_iff in Hab. subst b.
  intros H1 H2. f_equal. apply IH; assumption.
Qed.

(** The sorted enumeration is the same for every order the file system
    lists the same paths in. *)
Lemma sorted_enumeration_unique (l1 l2 : list Path) :
  l1 ≡ₚ l2 → merge_sort path_le l1 = merge_sort path_le l2.
Proof.
  intros H. apply (StronglySorted_unique path_le).
  - apply StronglySorted_merge_sort; apply _.
  - apply StronglySorted_merge_sort; apply _.
  - rewrite !merge_sort_Permutation. exact H.
Qed.

(** ** Reading a file in chunks *)

Lemma read_chunks_concat (fuel : nat) (d : bytes) :
  (List.length d ≤ fuel)%nat → List.concat (read_chunks fuel d) = d.
Proof.
  revert d. induction fuel as [|k IH]; intros d Hlen.
  - destruct d; [reflexivity | simpl in Hlen; lia].
  - destruct d as [|b d]; [reflexivity|].
    cbn [read_chunks List.concat].
    rewrite IH.
    + apply take_drop.
    + rewrite length_drop. simpl in *. unfold chunk_size. lia.
Qed.

Lemma fold_update (chunks : list bytes) (h : bytes) :
  List.fold_left update chunks h = h ++ List.concat chunks.
Proof.
  revert h. induction chunks as [|c cs IH]; intros h; simpl.
  - symmetry. apply app_nil_r.
  - rewrite IH. unfold update. symmetry. apply app_assoc.
Qed.

(** Feeding a file chunk by chunk feeds its bytes. *)
Lemma feed_file_data (h : bytes) (f : File) : feed_file h f = h ++ data f.
Proof.
  unfold feed_file. rewrite fold_update, read_chunks_concat; [reflexivity | lia].
Qed.

Lemma calculate_file_hash_readable (sha256 : bytes → string) (f : File) :
  readable f = true → calculate_file_hash sha256 f = sha256 (data f).
Proof.
  intros H. unfold calculate_file_hash, hexdigest. rewrite H, feed_file_data. reflexivity.
Qed.

(** ** Trees *)

Lemma tree_get_rglob (t : Tree) (p : Path) (n : Node) :
  tree_get t p = Some n → p ∈ rglob t.
Proof.
  induction t as [|[q m] t IH]; simpl; [discriminate|].
  destruct (decide (q = p)) as [->|Hne]; intros H.
  - apply list_elem_of_here.
  - apply list_elem_of_further. auto.
Qed.

Lemma rglob_tree_get (t : Tree) (p : Path) :
  p ∈ rglob t → is_Some (tree_get t p).
Proof.
  induction t as [|[q m] t IH]; simpl; intros H.
  - apply elem_of_nil in H. destruct H.
  - destruct (decide (q = p)) as [->|Hne]; [eauto|].
    apply elem_of_cons in H as [->|H]; [congruence | auto].
Qed.

Lemma file_at_rglob (t : Tree) (p : Path) : is_Some (file_at t p) → p ∈ rglob t.
Proof.
  unfold file_at. destruct (tree_get t p) as [n|] eqn:E.
  - intros _. eapply tree_get_rglob, E.
  - intros [? ?]. discriminate.
Qed.

Lemma tree_get_In (t : Tree) (p : Path) (n : Node) : tree_get t p = Some n → In (p, n) t.
Proof.
  induction t as [|[q m] t IH]; simpl; [discriminate|].
  destruct (decide (q = p)) as [->|Hne]; intros H.
  - injection H as ->. auto.
  - auto.
Qed.

Lemma tree_get_app (t t' : Tree) (p : Path) :
  tree_get (t ++ t') p
  = match tree_get t p with
    | Some n => Some n
    | None => tree_get t' p
    end.
Proof.
  induction t as [|[q m] t IH]; simpl; [reflexivity|].
  destruct (decide (q = p)); [reflexivity | exact IH].
Qed.

Lemma regular_files_app (t t' : Tree) :
  regular_files (t ++ t') = regular_files t ++ regular_files t'.
Proof.
  induction t as [|[q [|g]] t IH]; simpl; [reflexivity | exact IH | rewrite IH; reflexivity].
Qed.

Lemma tree_get_write_other (t : Tree) (p q : Path) (f : File) :
  p ≠ q → tree_get (write_file t p f) q = tree_get t q.
Proof.
  intros Hne. induction t as [|[r n] t IH]; simpl.
  - rewrite decide_False by exact Hne. reflexivity.
  - destruct (decide (r = p)) as [->|Hrp]; simpl.
    + rewrite !decide_False by exact Hne. reflexivity.
    + destruct (decide (r = q)); [reflexivity | exact IH].
Qed.

Lemma tree_get_write_same (t : Tree) (p : Path) (f : File) :
  tree_get (write_file t p f) p = Some (Reg f).
Proof.
  induction t as [|[r n] t IH]; simpl.
  - rewrite decide_True by reflexivity. reflexivity.
  - destruct (decide (r = p)) as [->|Hrp]; simpl.
    + rewrite decide_True by reflexivity. reflexivity.
    + rewrite decide_False by exact Hrp. exact IH.
Qed.

Lemma write_file_In (t : Tree) (p q : Path) (f : File) (n : Node) :
  In (q, n) (write_file t p f) → In (q, n) t ∨ (q = p ∧ n = Reg f).
Proof.
  induction t as [|[r m] t IH]; simpl.
  - intros [H|[]]. injection H as <- <-. auto.
  - destruct (decide (r = p)) as [->|Hne]; simpl.
    + intros [H|H]; [injection H as <- <-; auto | auto].
    + intros [H|H]; [auto|]. destruct (IH H); auto.
Qed.

(** *** Making directories *)

Lemma ancestors_nonempty (d p : Path) : p ∈ ancestors d → p ≠ [].
Proof.
  destruct d as [|a d]; simpl; intros H.
  - apply elem_of_nil in H. destruct H.
  - apply elem_of_cons in H as [->|H]; [discriminate|].
    apply list_elem_of_In, in_map_iff in H as (x & <- & _). discriminate.
Qed.

Lemma tree_get_make_dir (t : Tree) (p q : Path) :
  tree_get (make_dir t p) q
  = match tree_get t q with
    | Some n => Some n
    | None => if decide (p = q) then Some Dir else None
    end.
Proof.
  unfold make_dir. destruct (tree_get t p) as [n|] eqn:Hp.
  - destruct (tree_get t q) as [m|] eqn:Hq; [reflexivity|].
    rewrite decide_False; [reflexivity | congruence].
  - rewrite tree_get_app. destruct (tree_get t q); reflexivity.
Qed.

Lemma tree_get_make_dirs (ps : list Path) (t : Tree) (q : Path) :
  tree_get (List.fold_left make_dir ps t) q
  = match tree_get t q with
    | Some n => Some n
    | None => if decide (q ∈ ps) then Some Dir else None
    end.
Proof.
  revert t. induction ps as [|p ps IH]; intros t; cbn [List.fold_left].
  - destruct (tree_get t q); [reflexivity|].
    rewrite decide_False; [reflexivity | apply not_elem_of_nil].
  - rewrite IH, tree_get_make_dir. destruct (tree_get t q) as [n|]; [reflexivity|].
    destruct (decide (p = q)) as [->|Hne].
    + rewrite decide_True; [reflexivity | apply list_elem_of_here].
    + destruct (decide (q ∈ ps)) as [Hin|Hout].
      * rewrite decide_True; [reflexivity | apply list_elem_of_further, Hin].
      * rewrite decide_False; [reflexivity|].
        intros H. apply elem_of_cons in H as [->|H]; [congruence | auto].
Qed.

Lemma regular_files_make_dirs (ps : list Path) (t : Tree) :
  regular_files (List.fold_left make_dir ps t) = regular_files t.
Proof.
  revert t. induction ps as [|p ps IH]; intros t; cbn [List.fold_left]; [reflexivity|].
  rewrite IH. unfold make_dir. destruct (tree_get t p); [reflexivity|].
  rewrite regular_files_app. apply app_nil_r.
Qed.

Lemma make_dirs_In (ps : list Path) (t : Tree) (q : Path) (n : Node) :
  In (q, n) (List.fold_left make_dir ps t) → In (q, n) t ∨ (n = Dir ∧ q ∈ ps).
Proof.
  revert t. induction ps as [|p ps IH]; intros t; cbn [List.fold_left]; [auto|].
  intros H. apply IH in H as [H|[-> H]].
  - unfold make_dir in H. destruct (tree_get t p); [auto|].
    apply in_app_or in H as [H|[H|[]]]; [auto|].
    injection H as <- <-. right. split; [reflexivity | apply list_elem_of_here].
  - right. split; [reflexivity | apply list_elem_of_further, H].
Qed.

(** [mkdir] returns exactly when no regular file is in the way, and then
    it has made what was missing. *)
Lemma mkdir_returned (t : Tree) (d : Path) :
  (∀ p, p ∈ ancestors d → is_reg t p = false) →
  mkdir t d = Returned (List.fold_left make_dir (ancestors d) t).
Proof.
  intros Hfree. unfold mkdir.
  destruct (List.find (is_reg t) (ancestors d)) as [p|] eqn:E; [|reflexivity].
  apply find_some in E as [Hin Hreg].
  rewrite Hfree in Hreg by (apply list_elem_of_In, Hin). discriminate.
Qed.

Lemma mkdir_inv (t t1 : Tree) (d : Path) :
  mkdir t d = Returned t1 →
  t1 = List.fold_left make_dir (ancestors d) t
  ∧ ∀ p, p ∈ ancestors d → is_reg t p = false.
Proof.
  unfold mkdir.
  destruct (List.find (is_reg t) (ancestors d)) as [p|] eqn:E; [discriminate|].
  intros H. injection H as <-. split; [reflexivity|].
  intros p Hp. apply (find_none _ _ E), list_elem_of_In, Hp.
Qed.

Lemma mkdir_raised (t : Tree) (d : Path) (x : exn) :
  mkdir t d = Raised x →
  (x = FileExistsError ∨ x = NotADirectoryError)
  ∧ ∃ p, p ∈ ancestors d ∧ is_reg t p = true.
Proof.
  unfold mkdir.
  destruct (List.find (is_reg t) (ancestors d)) as [p|] eqn:E; [|discriminate].
  intros H. injection H as <-. split; [destruct (decide (p = d)); auto|].
  apply find_some in E as [Hin Hreg]. exists p. split; [apply list_elem_of_In, Hin | exact Hreg].
Qed.

Section Checksum.
Variable sha256 : bytes → string.

Lemma checksum_loop_ext (t1 t2 : Tree) (paths : list Path) (h : bytes) :
  (∀ p, file_at t1 p = file_at t2 p) →
  checksum_loop t1 paths h = checksum_loop t2 paths h.
Proof.
  intros Hsame. revert h. induction paths as [|p ps IH]; intros h; simpl; [reflexivity|].
  specialize (Hsame p). unfold file_at in Hsame.
  destruct (tree_get t1 p) as [[|f1]|], (tree_get t2 p) as [[|f2]|];
    try discriminate; auto.
  injection Hsame as Hr Hd. rewrite Hr, !feed_file_data, Hd.
  destruct (readable f2); auto.
Qed.

Lemma checksum_loop_files (t : Tree) (paths : list Path) (h : bytes) :
  checksum_loop t paths h
  = checksum_loop t (filter (λ p, is_Some (file_at t p)) paths) h.
Proof.
  revert h. induction paths as [|p ps IH]; intros h; [reflexivity|].
  rewrite filter_cons.
  destruct (decide (is_Some (file_at t p))) as [Hs|Hn]; simpl.
  - destruct (tree_get t p) as [[|f]|]; try apply IH.
    destruct (readable f); [apply IH | reflexivity].
  - unfold file_at in Hn.
    destruct (tree_get t p) as [[|f]|]; try apply IH.
    destruct Hn. eauto.
Qed.

Lemma checksum_loop_readable (t : Tree) (paths : list Path) (h : bytes) :
  all_readable t →
  Forall (λ p, is_Some (file_at t p)) paths →
  checksum_loop t paths h = Returned (h ++ List.concat (List.map (payload_at t) paths)).
Proof.
  intros Hr Hall. revert h. induction Hall as [|p ps [[b d] Hp] _ IH]; intros h; simpl.
  - rewrite app_nil_r. reflexivity.
  - unfold payload_at at 1. rewrite Hp. simpl.
    unfold file_at in Hp. destruct (tree_get t p) as [[|f]|] eqn:E; try discriminate.
    injection Hp as <- <-.
    rewrite (Hr p (readable f) (data f)) by (unfold file_at; rewrite E; reflexivity).
    rewrite IH, feed_file_data. unfold update. rewrite <- !app_assoc. reflexivity.
Qed.
End Checksum.

Lemma StronglySorted_filter {A} (R : relation A) (P : A → Prop)
    `{∀ x, Decision (P x)} (l : list A) :
  StronglySorted R l → StronglySorted R (filter P l).
Proof.
  induction 1 as [|x l Hs IH Hall]; [constructor|].
  rewrite filter_cons. destruct (decide (P x)); [|exact IH].
  constructor; [exact IH|].
  rewrite List.Forall_forall in *. intros y Hy.
  apply Hall. rewrite <- list_elem_of_In in *.
  apply list_elem_of_filter in Hy. tauto.
Qed.

(** Sorting and then keeping the files is sorting the files. *)
Lemma sorted_files (t : Tree) :
  filter (λ p, is_Some (file_at t p)) (merge_sort path_le (rglob t))
  = merge_sort path_le (file_paths t).
Proof.
  apply (StronglySorted_unique path_le).
  - apply StronglySorted_filter, StronglySorted_merge_sort; apply _.
  - apply StronglySorted_merge_sort; apply _.
  - unfold file_paths. rewrite !merge_sort_Permutation. reflexivity.
Qed.

Lemma file_paths_permutation (t1 t2 : Tree) :
  NoDup (rglob t1) → NoDup (rglob t2) →
  (∀ p, file_at t1 p = file_at t2 p) →
  file_paths t1 ≡ₚ file_paths t2.
Proof.
  intros H1 H2 Hsame. apply NoDup_Permutation.
  - apply NoDup_filter, H1.
  - apply NoDup_filter, H2.
  - intros p. unfold file_paths. rewrite !list_elem_of_filter.
    split; intros [Hf _].
    + rewrite Hsame in Hf. split; [exact Hf | apply file_at_rglob, Hf].
    + rewrite <- Hsame in Hf. split; [exact Hf | apply file_at_rglob, Hf].
Qed.

(** The checksum of a directory whose files can all be read. *)
Lemma checksum_digest_sorted (sha256 : bytes → string) (t : Tree) :
  all_readable t →
  calculate_backup_checksum sha256 t = Returned (sha256 (sorted_payload t)).
Proof.
  intros Hr. unfold calculate_backup_checksum.
  rewrite checksum_loop_files, sorted_files.
  rewrite checksum_loop_readable; [reflexivity | exact Hr |].
  rewrite List.Forall_forall. intros p Hp.
  rewrite <- list_elem_of_In, merge_sort_Permutation in Hp.
  unfold file_paths in Hp. apply list_elem_of_filter in Hp. tauto.
Qed.

(** C6. The checksum of a backup directory whose files can be read is the
    digest of the (relative path, file bytes) pairs in the sorted order of the
    paths, and two directories that hold the same relative paths with the same
    bytes get the same checksum, in whatever order each is enumerated. *)
Theorem backup_checksum_deterministic (sha256 : bytes → string) (t1 t2 : Tree) :
  NoDup (rglob t1) → NoDup (rglob t2) →
  (∀ p, file_at t1 p = file_at t2 p) →
  calculate_backup_checksum sha256 t1 = calculate_backup_checksum sha256 t2
  ∧ (all_readable t1 →
     calculate_backup_checksum sha256 t1 = Returned (sha256 (sorted_payload t1))).
Proof.
  intros H1 H2 Hsame. split.
  - unfold calculate_backup_checksum.
    rewrite (checksum_loop_files t1), (checksum_loop_files t2), !sorted_files.
    rewrite (sorted_enumeration_unique _ _ (file_paths_permutation _ _ H1 H2 Hsame)).
    rewrite (checksum_loop_ext t1 t2 _ _ Hsame). reflexivity.
  - apply checksum_digest_sorted.
Qed.

(** ** Statements and transactions *)

Lemma execute_all_app (c : Conn) (ss1 ss2 : list stmt) :
  execute_all c (ss1 ++ ss2) = execute_all (execute_all c ss1) ss2.
Proof. apply fold_left_app. Qed.

Lemma regular_files_In (t : Tree) (rel : Path) (f : File) :
  In (rel, f) (regular_files t) ↔ In (rel, Reg f) t.
Proof.
  induction t as [|[q [|g]] t IH]; simpl.
  - tauto.
  - rewrite IH. split; [auto | intros [H|H]; [discriminate | exact H]].
  - rewrite IH. split; (intros [H|H]; [left; congruence | right; exact H]).
Qed.

(** ** The change detector *)

Section ChangeDetector.
Variable sha256 : bytes → string.
Variable path_match : Path → string → bool.
Variable config : Config.
Variable vault_path : Path.

Local Abbreviation should_exclude := (should_exclude path_match config vault_path).
Local Abbreviation calculate_file_hash := (calculate_file_hash sha256).
Local Abbreviation get_changed_files := (get_changed_files sha256 path_match config vault_path).
Local Abbreviation selected := (selected sha256 path_match config vault_path).

Lemma get_changed_files_filter (vault : Tree) (ix : Index) :
  get_changed_files vault ix = List.filter (selected ix) (regular_files vault).
Proof.
  unfold get_changed_files. induction vault as [|[rel [|f]] t IH]; simpl; auto.
  unfold selected at 1. simpl.
  destruct (should_exclude rel); simpl; [exact IH|].
  destruct (file_hashes ix !! str rel) as [row|]; [|rewrite IH; reflexivity].
  destruct (last_modified row <? st_mtime f); simpl; [|exact IH].
  destruct (String.eqb (calculate_file_hash f) (last_hash row)); simpl;
    rewrite IH; reflexivity.
Qed.

Lemma get_changed_files_In (vault : Tree) (ix : Index) (rel : Path) (f : File) :
  In (rel, f) (get_changed_files vault ix)
  ↔ In (rel, Reg f) vault ∧ selected ix (rel, f) = true.
Proof.
  rewrite get_changed_files_filter, filter_In, regular_files_In. reflexivity.
Qed.
End ChangeDetector.

Lemma backup_checksum_deterministic_witness :
  calculate_backup_checksum Sample.digest Sample.listing1
  = calculate_backup_checksum Sample.digest Sample.listing2
  ∧ (all_readable Sample.listing1 →
     calculate_backup_checksum Sample.digest Sample.listing1
     = Returned (Sample.digest (sorted_payload Sample.listing1))).
Proof.
  apply (backup_checksum_deterministic Sample.digest Sample.listing1 Sample.listing2).
  - apply (bool_decide_unpack _). vm_compute. exact I.
  - apply (bool_decide_unpack _). vm_compute. exact I.
  - intros p. unfold file_at, Sample.listing1, Sample.listing2. simpl.
    repeat case_decide; subst; try congruence; reflexivity.
Defined.

(** ** The copy loop and its upserts *)

Section Writer.
Variable sha256 : bytes → string.
Variable gzip_compress : bytes → bytes.
Variable path_match : Path → string → bool.
Variable backup_dir : Z → string.
Variable config : Config.
Variable vault_path : Path.

Local Abbreviation calculate_file_hash := (calculate_file_hash sha256).
Local Abbreviation backup_file := (backup_file gzip_compress config).
Local Abbreviation copy_one := (copy_one sha256 gzip_compress config).
Local Abbreviation copy_files := (copy_files sha256 gzip_compress config).
Local Abbreviation files_to_backup := (files_to_backup sha256 path_match config vault_path).
Local Abbreviation run_copy :=
  (run_copy sha256 gzip_compress path_match backup_dir config vault_path).
Local Abbreviation create_backup_stmts :=
  (create_backup_stmts sha256 gzip_compress path_match backup_dir config vault_path).
Local Abbreviation create_backup :=
  (create_backup sha256 gzip_compress path_match backup_dir config vault_path).
Local Abbreviation stored_name := (stored_name config).
Local Abbreviation stored_entry := (stored_entry gzip_compress config).
Local Abbreviation copied_from := (copied_from gzip_compress config).
Local Abbreviation row_of := (row_of sha256).
Local Abbreviation upsert_of := (upsert_of sha256).
Local Abbreviation apply_upserts := (apply_upserts sha256).

Lemma backup_file_readable (now : Z) (t t' : Tree) (e : Path * File) :
  backup_file now t e = Returned t' → readable (snd e) = true.
Proof.
  unfold backup_file, compress_file, copy2.
  destruct (compressible config (fst e)), (readable (snd e)); intros H;
    try discriminate; reflexivity.
Qed.

(** What the [try] block writes: the stored form of the file, under its
    stored name or, when a directory has that name, inside it. *)
Lemma backup_file_returned (now : Z) (t t' : Tree) (e : Path * File) :
  backup_file now t e = Returned t' →
  ∃ dst, t' = write_file t dst (snd (stored_entry now e))
         ∧ tree_get t dst ≠ Some Dir
         ∧ (dst = stored_name (fst e)
            ∨ (dst = fst e ++ [name (fst e)] ∧ tree_get t (fst e) = Some Dir)).
Proof.
  unfold backup_file, compress_file, copy2, open_wb, stored_entry, stored_name.
  destruct (compressible config (fst e)); destruct (readable (snd e)); try discriminate.
  - destruct (tree_get t (add_gz (fst e))) as [[|g]|] eqn:E; try discriminate;
      intros H; injection H as <-; eexists; (split; [reflexivity|]);
      rewrite E; split; auto; discriminate.
  - destruct (tree_get t (fst e)) as [[|g]|] eqn:E.
    + destruct (tree_get t (fst e ++ [name (fst e)])) as [[|g]|] eqn:E'; try discriminate;
        intros H; injection H as <-; eexists; (split; [reflexivity|]);
        rewrite E'; split; auto; discriminate.
    + cbn zeta. rewrite E. intros H. injection H as <-. eexists. split; [reflexivity|].
      rewrite E. split; [discriminate | auto].
    + cbn zeta. rewrite E. intros H. injection H as <-. eexists. split; [reflexivity|].
      rewrite E. split; [discriminate | auto].
Qed.

(** Where no directory has the stored name, the [try] block stores a file
    that can be read under that name. *)
Lemma backup_file_stored (now : Z) (t : Tree) (e : Path * File) :
  readable (snd e) = true →
  tree_get t (stored_name (fst e)) ≠ Some Dir →
  backup_file now t e
  = Returned (write_file t (stored_name (fst e)) (snd (stored_entry now e))).
Proof.
  unfold backup_file, compress_file, copy2, open_wb, stored_entry, stored_name.
  intros -> Hd. destruct (compressible config (fst e)); cbn [snd].
  - destruct (tree_get t (add_gz (fst e))) as [[|g]|]; congruence.
  - destruct (tree_get t (fst e)) as [[|g]|] eqn:E; try congruence; rewrite E; reflexivity.
Qed.

Lemma backup_file_unreadable (now : Z) (t : Tree) (e : Path * File) :
  readable (snd e) = false → backup_file now t e = Raised PermissionError.
Proof.
  unfold backup_file, compress_file, copy2. intros ->.
  destruct (compressible config (fst e)); reflexivity.
Qed.

(** Once an exception has left the loop, nothing more happens. *)
Lemma copy_loop_raised (now : Z) (files : list (Path * File)) (s : CopyState) (x : exn) :
  raised s = Some x → List.fold_left (copy_one now) files s = s.
Proof.
  intros Hx. induction files as [|[rel f] files IH]; [reflexivity|].
  cbn [List.fold_left]. unfold copy_one at 2. rewrite Hx. exact IH.
Qed.

(** One iteration, by the three ways it can end. *)
Lemma copy_one_step (now : Z) (s : CopyState) (e : Path * File) :
  raised s = None →
  copy_one now s e
  = match mkdir (dest s) (parent (fst e)) with
    | Raised x => mkCopyState (dest s) (issued s) (total s) (copied s) (Some x)
    | Returned t =>
        match backup_file now t e with
        | Returned t' =>
            mkCopyState t' (issued s ++ [upsert_of e]) (total s + st_size (snd e))
              (copied s + 1) None
        | Raised _ => mkCopyState t (issued s) (total s) (copied s) None
        end
    end.
Proof. intros Hs. destruct e as [rel f]. unfold copy_one. rewrite Hs. reflexivity. Qed.

(** The loop issues one upsert for every file it copies, in order, and
    counts it. *)
Lemma copy_loop_log (now : Z) (files : list (Path * File)) (s : CopyState) :
  raised s = None →
  issued (List.fold_left (copy_one now) files s)
  = issued s ++ List.map upsert_of (copied_from now (dest s) files)
  ∧ copied (List.fold_left (copy_one now) files s)
    = copied s + Z.of_nat (List.length (copied_from now (dest s) files))
  ∧ total (List.fold_left (copy_one now) files s)
    = total s + sizes (copied_from now (dest s) files).
Proof.
  revert s. induction files as [|e files IH]; intros s Hs.
  - simpl. rewrite app_nil_r. repeat split; lia.
  - cbn [List.fold_left copied_from]. rewrite copy_one_step by exact Hs.
    destruct (mkdir (dest s) (parent (fst e))) as [t|x].
    + destruct (backup_file now t e) as [t'|y].
      * destruct (IH (mkCopyState t' (issued s ++ [upsert_of e]) (total s + st_size (snd e))
                        (copied s + 1) None) eq_refl) as (Hi & Hc & Ht).
        cbn [dest issued copied total] in Hi, Hc, Ht. rewrite Hi, Hc, Ht.
        cbn [List.map List.length sizes List.fold_right].
        rewrite <- app_assoc. repeat split; try reflexivity; unfold sizes; lia.
      * apply (IH (mkCopyState t (issued s) (total s) (copied s) None) eq_refl).
    + rewrite (copy_loop_raised now files
                 (mkCopyState (dest s) (issued s) (total s) (copied s) (Some x)) x eq_refl).
      simpl. rewrite app_nil_r. repeat split; lia.
Qed.

(** The files the loop copies are among those that can be read, in their
    order. *)
Lemma copied_from_sublist (now : Z) (files : list (Path * File)) (t : Tree) :
  copied_from now t files `sublist_of` copyable files.
Proof.
  revert t. induction files as [|e files IH]; intros t; [constructor|].
  cbn [copied_from]. unfold copyable. cbn [List.filter].
  destruct (mkdir t (parent (fst e))) as [t1|x]; [|apply sublist_nil_l].
  destruct (backup_file now t1 e) as [t2|y] eqn:E.
  - rewrite (backup_file_readable _ _ _ _ E). apply sublist_skip, IH.
  - destruct (readable (snd e)); [apply sublist_cons, IH | apply IH].
Qed.

Lemma copied_from_In (now : Z) (files : list (Path * File)) (t : Tree) (e : Path * File) :
  In e (copied_from now t files) → In e files ∧ readable (snd e) = true.
Proof.
  intros H. apply list_elem_of_In in H.
  pose proof (elem_of_sublist _ _ _ H (copied_from_sublist now files t)) as Hc.
  apply list_elem_of_In, filter_In in Hc. exact Hc.
Qed.

Lemma copy_files_issued (now : Z) (t0 : Tree) (files : list (Path * File)) :
  issued (copy_files now t0 files) = List.map upsert_of (copied_from now t0 files).
Proof.
  unfold copy_files.
  destruct (copy_loop_log now files (mkCopyState t0 [] 0 0 None) eq_refl) as (Hi & _).
  exact Hi.
Qed.

(** The files that the run directory holds can be read when those it held
    before could: the loop writes files that can be read. *)
Lemma copy_loop_readable (now : Z) (files : list (Path * File)) (s : CopyState) :
  all_readable (dest s) → all_readable (dest (List.fold_left (copy_one now) files s)).
Proof.
  revert s. induction files as [|e files IH]; intros s Hr; [exact Hr|].
  cbn [List.fold_left]. apply IH.
  destruct (raised s) as [x|] eqn:Hs.
  { destruct e as [rel f]. unfold copy_one. rewrite Hs. exact Hr. }
  rewrite copy_one_step by exact Hs.
  destruct (mkdir (dest s) (parent (fst e))) as [t|x] eqn:Hm; [|exact Hr].
  apply mkdir_inv in Hm as [-> _].
  assert (Hr1 : all_readable (List.fold_left make_dir (ancestors (parent (fst e))) (dest s))).
  { intros p b d. unfold file_at. rewrite tree_get_make_dirs.
    destruct (tree_get (dest s) p) as [n|] eqn:E.
    - intros H. apply (Hr p b d). unfold file_at. rewrite E. exact H.
    - destruct (decide _); discriminate. }
  destruct (backup_file now _ e) as [t'|y] eqn:Hb; [|exact Hr1].
  apply backup_file_returned in Hb as (dst & -> & _ & _).
  intros p b d. cbn [dest]. unfold file_at. destruct (decide (dst = p)) as [->|Hne].
  - rewrite tree_get_write_same. intros H. injection H as <- _.
    unfold stored_entry. destruct (compressible config (fst e)); reflexivity.
  - rewrite tree_get_write_other by exact Hne. apply Hr1.
Qed.

(** A regular file of the run directory stays one: the loop may write it
    anew, it does not remove it. *)
Lemma copy_loop_keeps_files (now : Z) (files : list (Path * File)) (s : CopyState)
    (q : Path) :
  is_reg (dest s) q = true →
  is_reg (dest (List.fold_left (copy_one now) files s)) q = true.
Proof.
  revert s. induction files as [|e files IH]; intros s Hq; [exact Hq|].
  cbn [List.fold_left]. apply IH.
  destruct (raised s) as [x|] eqn:Hs.
  { destruct e as [rel f]. unfold copy_one. rewrite Hs. exact Hq. }
  rewrite copy_one_step by exact Hs.
  destruct (mkdir (dest s) (parent (fst e))) as [t|x] eqn:Hm; [|exact Hq].
  apply mkdir_inv in Hm as [-> _].
  assert (Hq1 : is_reg (List.fold_left make_dir (ancestors (parent (fst e))) (dest s)) q
                = true).
  { unfold is_reg in *. rewrite tree_get_make_dirs.
    destruct (tree_get (dest s) q) as [[|g]|]; try discriminate. reflexivity. }
  destruct (backup_file now _ e) as [t'|y] eqn:Hb; [|exact Hq1].
  apply backup_file_returned in Hb as (dst & -> & _ & _).
  cbn [dest]. unfold is_reg in *. destruct (decide (dst = q)) as [->|Hne].
  - rewrite tree_get_write_same. reflexivity.
  - rewrite tree_get_write_other by exact Hne. exact Hq1.
Qed.

(** The upserts touch [file_hashes] alone, and only what the transaction
    sees. *)
Lemma execute_upserts (c : Conn) (files : list (Path * File)) :
  execute_all c (List.map upsert_of files)
  = mkConn (durable c)
      (mkIndex (backups (pending c)) (backups_seq (pending c))
         (apply_upserts (file_hashes (pending c)) files)).
Proof.
  revert c. induction files as [|e files IH]; intros c.
  - destruct c as [d [b n fh]]. reflexivity.
  - change (execute_all c (List.map upsert_of (e :: files)))
      with (execute_all (execute c (upsert_of e)) (List.map upsert_of files)).
    rewrite IH. reflexivity.
Qed.

Lemma apply_upserts_cons (fh : gmap string FileHashRow) (e : Path * File)
    (files : list (Path * File)) :
  apply_upserts fh (e :: files) = apply_upserts (<[str (fst e) := row_of e]> fh) files.
Proof. reflexivity. Qed.

Lemma apply_upserts_other (fh : gmap string FileHashRow) (files : list (Path * File))
    (k : string) :
  (∀ e, In e files → str (fst e) ≠ k) → apply_upserts fh files !! k = fh !! k.
Proof.
  revert fh. induction files as [|e files IH]; intros fh Hk; [reflexivity|].
  rewrite apply_upserts_cons, IH by (intros; apply Hk; simpl; auto).
  apply lookup_insert_ne. apply Hk. simpl. auto.
Qed.

Lemma apply_upserts_last (fh : gmap string FileHashRow) (files : list (Path * File))
    (e : Path * File) :
  NoDup (List.map (λ e, str (fst e)) files) → In e files →
  apply_upserts fh files !! str (fst e) = Some (row_of e).
Proof.
  revert fh. induction files as [|e0 files IH]; intros fh Hnd Hin; [destruct Hin|].
  cbn [List.map] in Hnd. apply NoDup_cons in Hnd as [Hfresh Hnd].
  rewrite apply_upserts_cons. destruct Hin as [->|Hin].
  - rewrite apply_upserts_other; [apply lookup_insert_eq|].
    intros e' He' Heq. apply Hfresh. rewrite <- Heq.
    apply list_elem_of_In, (in_map (λ e, str (fst e))), He'.
  - apply IH; assumption.
Qed.

Lemma apply_upserts_snoc (fh : gmap string FileHashRow) (files : list (Path * File))
    (e : Path * File) :
  apply_upserts fh (files ++ [e]) = <[str (fst e) := row_of e]> (apply_upserts fh files).
Proof. unfold apply_upserts. rewrite fold_left_app. reflexivity. Qed.

(** Whatever a run upserts, the row it leaves carries no backup id. *)
Lemma apply_upserts_no_backref (fh : gmap string FileHashRow) (files : list (Path * File))
    (e : Path * File) :
  In e files →
  ∃ row, apply_upserts fh files !! str (fst e) = Some row ∧ last_backup_id row = None.
Proof.
  induction files as [|e0 files IH] using rev_ind; intros Hin; [destruct Hin|].
  rewrite apply_upserts_snoc.
  destruct (decide (str (fst e0) = str (fst e))) as [Heq|Hne].
  - rewrite Heq, lookup_insert_eq. eexists; split; reflexivity.
  - rewrite lookup_insert_ne by exact Hne. apply IH.
    apply in_app_or in Hin as [Hin|[->|[]]]; [exact Hin | congruence].
Qed.

End Writer.

(** ** A backup run *)

Section Run.
Variable sha256 : bytes → string.
Variable gzip_compress : bytes → bytes.
Variable path_match : Path → string → bool.
Variable backup_dir : Z → string.
Variable config : Config.
Variable vault_path : Path.

Local Abbreviation files_to_backup := (files_to_backup sha256 path_match config vault_path).
Local Abbreviation copy_one := (copy_one sha256 gzip_compress config).
Local Abbreviation run_copy :=
  (run_copy sha256 gzip_compress path_match backup_dir config vault_path).
Local Abbreviation run_copied :=
  (run_copied sha256 gzip_compress path_match backup_dir config vault_path).
Local Abbreviation commits :=
  (commits sha256 gzip_compress path_match backup_dir config vault_path).
Local Abbreviation create_backup_stmts :=
  (create_backup_stmts sha256 gzip_compress path_match backup_dir config vault_path).
Local Abbreviation create_backup :=
  (create_backup sha256 gzip_compress path_match backup_dir config vault_path).
Local Abbreviation index_after_kill :=
  (index_after_kill sha256 gzip_compress path_match backup_dir config vault_path).
Local Abbreviation upserts_committed :=
  (upserts_committed sha256 gzip_compress path_match backup_dir config vault_path).
Local Abbreviation record_stmts :=
  (record_stmts sha256 gzip_compress path_match backup_dir config vault_path).

(** The upserts and the counters of a run, by the files it copies. *)
Lemma run_copy_log (btype : string) (now : Z) (vault : Tree) (w : World) :
  issued (run_copy btype now vault w)
  = List.map (upsert_of sha256) (run_copied btype now vault w)
  ∧ copied (run_copy btype now vault w)
    = Z.of_nat (List.length (run_copied btype now vault w))
  ∧ total (run_copy btype now vault w) = sizes (run_copied btype now vault w).
Proof.
  unfold run_copy, run_copied, copy_files.
  destruct (copy_loop_log sha256 gzip_compress config now
              (files_to_backup btype vault (index w))
              (mkCopyState (default [] (store w !! backup_dir now : option Tree)) [] 0 0 None)
              eq_refl) as (Hi & Hc & Ht).
  cbn [dest issued copied total] in Hi, Hc, Ht.
  rewrite Hi, Hc, Ht. auto.
Qed.

Lemma run_copied_In (btype : string) (now : Z) (vault : Tree) (w : World) (e : Path * File) :
  In e (run_copied btype now vault w) →
  In e (files_to_backup btype vault (index w)) ∧ readable (snd e) = true.
Proof. apply copied_from_In. Qed.

Lemma create_backup_stmts_eq (btype : string) (now : Z) (health : string)
    (git : option string) (vault : Tree) (w : World) :
  create_backup_stmts btype now health git vault w
  = List.map (upsert_of sha256) (run_copied btype now vault w)
    ++ match raised (run_copy btype now vault w) with
       | Some _ => []
       | None => [Commit] ++ record_stmts btype now health git vault w
       end.
Proof.
  unfold create_backup_stmts, record_stmts. cbn zeta.
  destruct (run_copy_log btype now vault w) as (-> & _).
  destruct (raised _); [rewrite app_nil_r|]; reflexivity.
Qed.

Lemma upserts_then_commit (btype : string) (now : Z) (vault : Tree) (w : World) :
  execute_all (connect (index w))
    (List.map (upsert_of sha256) (run_copied btype now vault w) ++ [Commit])
  = connect (upserts_committed btype now vault w).
Proof. rewrite execute_all_app, execute_upserts. reflexivity. Qed.

(** The index a run leaves: the prior one when an exception has left the
    copy loop, for the connection then rolls back. *)
Lemma create_backup_index (btype : string) (now : Z) (health : string)
    (git : option string) (vault : Tree) (w : World) :
  index (fst (create_backup btype now health git vault w))
  = match raised (run_copy btype now vault w) with
    | Some _ => index w
    | None =>
        match calculate_backup_checksum sha256 (dest (run_copy btype now vault w)) with
        | Returned sum =>
            insert_backup (upserts_committed btype now vault w)
              (backup_row backup_dir btype now health git (run_copy btype now vault w) sum)
        | Raised _ => upserts_committed btype now vault w
        end
    end.
Proof.
  unfold create_backup. cbn zeta. rewrite create_backup_stmts_eq.
  destruct (raised (run_copy btype now vault w)) as [x|].
  - rewrite app_nil_r, execute_upserts. reflexivity.
  - rewrite app_assoc, execute_all_app, upserts_then_commit. unfold record_stmts.
    destruct (calculate_backup_checksum sha256 _); reflexivity.
Qed.

Lemma create_backup_file_hashes (btype : string) (now : Z) (health : string)
    (git : option string) (vault : Tree) (w : World) :
  file_hashes (index (fst (create_backup btype now health git vault w)))
  = match raised (run_copy btype now vault w) with
    | Some _ => file_hashes (index w)
    | None => apply_upserts sha256 (file_hashes (index w)) (run_copied btype now vault w)
    end.
Proof.
  rewrite create_backup_index. destruct (raised _); [reflexivity|].
  destruct (calculate_backup_checksum sha256 _); reflexivity.
Qed.

(** While the first transaction is open nothing of it is on disk. *)
Lemma kill_before_commit (k : nat) (ix : Index) (files : list (Path * File)) :
  durable (execute_all (connect ix) (take k (List.map (upsert_of sha256) files))) = ix.
Proof.
  change (List.map (upsert_of sha256) files) with (upsert_of sha256 <$> files).
  rewrite <- fmap_take.
  change (upsert_of sha256 <$> take k files) with (List.map (upsert_of sha256) (take k files)).
  rewrite execute_upserts. reflexivity.
Qed.

Lemma create_backup_durable (btype : string) (now : Z) (health : string)
    (git : option string) (vault : Tree) (w : World) :
  index (fst (create_backup btype now health git vault w))
  = durable (execute_all (connect (index w))
               (create_backup_stmts btype now health git vault w)).
Proof.
  unfold create_backup. cbn zeta. destruct (raised _); [reflexivity|].
  destruct (calculate_backup_checksum sha256 _); reflexivity.
Qed.

Lemma create_backup_store (btype : string) (now : Z) (health : string)
    (git : option string) (vault : Tree) (w : World) :
  store (fst (create_backup btype now health git vault w))
  = <[backup_dir now := dest (run_copy btype now vault w)]> (store w).
Proof.
  unfold create_backup. cbn zeta. destruct (raised _); [reflexivity|].
  destruct (calculate_backup_checksum sha256 _); reflexivity.
Qed.

(** A run whose loop ends without an exception and whose checksum can be
    computed: the world it leaves and the dictionary it returns. *)
Lemma create_backup_returned (btype : string) (now : Z) (health : string)
    (git : option string) (vault : Tree) (w : World) (sum : string) :
  raised (run_copy btype now vault w) = None →
  calculate_backup_checksum sha256 (dest (run_copy btype now vault w)) = Returned sum →
  create_backup btype now health git vault w
  = (mkWorld
       (insert_backup (upserts_committed btype now vault w)
          (backup_row backup_dir btype now health git (run_copy btype now vault w) sum))
       (<[backup_dir now := dest (run_copy btype now vault w)]> (store w)),
     Returned (mkBackupInfo (backups_seq (index w) + 1) now btype
                 (copied (run_copy btype now vault w)) (total (run_copy btype now vault w))
                 (tree_size (dest (run_copy btype now vault w)))
                 (ratio_of (tree_size (dest (run_copy btype now vault w)))
                           (total (run_copy btype now vault w)))
                 sum (backup_dir now))).
Proof.
  intros Hr Hsum. unfold create_backup. cbn zeta. rewrite create_backup_stmts_eq, Hr.
  rewrite app_assoc, execute_all_app, upserts_then_commit. unfold record_stmts.
  rewrite Hsum. reflexivity.
Qed.

Lemma create_backup_returned_inv (btype : string) (now : Z) (health : string)
    (git : option string) (vault : Tree) (w : World) (info : BackupInfo) :
  snd (create_backup btype now health git vault w) = Returned info →
  raised (run_copy btype now vault w) = None
  ∧ ∃ sum, calculate_backup_checksum sha256 (dest (run_copy btype now vault w))
           = Returned sum.
Proof.
  unfold create_backup. cbn zeta. destruct (raised _); [discriminate|].
  destruct (calculate_backup_checksum sha256 _) as [sum|e]; [eauto | discriminate].
Qed.

(** A run whose copy loop an exception leaves raises it, and the index is
    as it was. *)
Lemma create_backup_raised (btype : string) (now : Z) (health : string)
    (git : option string) (vault : Tree) (w : World) (x : exn) :
  raised (run_copy btype now vault w) = Some x →
  create_backup btype now health git vault w
  = (mkWorld (index w) (<[backup_dir now := dest (run_copy btype now vault w)]> (store w)),
     Raised x).
Proof.
  intros Hr. unfold create_backup. cbn zeta. rewrite create_backup_stmts_eq, Hr.
  rewrite app_nil_r, execute_upserts. reflexivity.
Qed.

(** C1, as the code has it.  A run issues its upserts in one transaction and
    the insert of its backup record in a second one.  A process killed
    before the first commit leaves the prior index; killed after it and
    before the second commit it leaves all the upserts of the run and no
    backup record of the run; after the second commit the index is the one
    the complete run leaves.  A run whose copy loop an exception leaves
    issues no commit and leaves the prior index. *)
Theorem backup_run_two_transactions (k : nat) (btype : string) (now : Z)
    (health : string) (git : option string) (vault : Tree) (w : World) :
  let n := List.length (run_copied btype now vault w) in
  let stmts := create_backup_stmts btype now health git vault w in
  ((k ≤ n)%nat → index_after_kill k btype now health git vault w = index w)
  ∧ ((n < k < List.length stmts)%nat →
     index_after_kill k btype now health git vault w = upserts_committed btype now vault w)
  ∧ ((List.length stmts ≤ k)%nat →
     index_after_kill k btype now health git vault w
     = index (fst (create_backup btype now health git vault w)))
  ∧ (raised (run_copy btype now vault w) ≠ None →
     List.length stmts = n
     ∧ index (fst (create_backup btype now health git vault w)) = index w).
Proof.
  intros n stmts. unfold index_after_kill. fold stmts.
  assert (Hs : stmts = List.map (upsert_of sha256) (run_copied btype now vault w)
                       ++ match raised (run_copy btype now vault w) with
                          | Some _ => []
                          | None => [Commit] ++ record_stmts btype now health git vault w
                          end)
    by apply create_backup_stmts_eq.
  assert (Hn : List.length (List.map (upsert_of sha256) (run_copied btype now vault w)) = n)
    by apply length_map.
  split; [|split; [|split]].
  - intros Hk. rewrite Hs, take_app_le by lia. apply kill_before_commit.
  - intros [Hlo Hhi]. rewrite Hs in Hhi |- *. rewrite length_app, Hn in Hhi.
    destruct (raised (run_copy btype now vault w)); [simpl in Hhi; lia|].
    unfold record_stmts in *.
    destruct (calculate_backup_checksum sha256 _); simpl in Hhi; [|lia].
    rewrite app_assoc.
    assert (Hk : k = (List.length (List.map (upsert_of sha256)
                        (run_copied btype now vault w) ++ [Commit])
                      + (k - (n + 1)))%nat)
      by (rewrite length_app, Hn; simpl; lia).
    rewrite Hk, take_app_add, execute_all_app, upserts_then_commit.
    assert (Hc : (k - (n + 1) = 0 ∨ k - (n + 1) = 1)%nat) by lia.
    destruct Hc as [-> | ->]; reflexivity.
  - intros Hk. rewrite take_ge by exact Hk. symmetry. apply create_backup_durable.
  - intros Hr. rewrite create_backup_index, Hs.
    destruct (raised (run_copy btype now vault w)); [|congruence].
    rewrite app_nil_r. auto.
Qed.

(** Whatever a run upserts, the row it leaves has no [last_backup_id]. *)
Lemma create_backup_no_backref (btype : string) (now : Z) (health : string)
    (git : option string) (vault : Tree) (w : World) (e : Path * File) :
  commits btype now vault w e →
  ∃ row,
    file_hashes (index (fst (create_backup btype now health git vault w))) !! str (fst e)
    = Some row
    ∧ last_backup_id row = None.
Proof.
  intros [Hr Hin]. rewrite create_backup_file_hashes, Hr.
  apply apply_upserts_no_backref, Hin.
Qed.

(** A loop over files that cannot be read makes their directories and
    nothing else. *)
Lemma copy_loop_unreadable (now : Z) (files : list (Path * File)) (s : CopyState) :
  Forall (λ e, readable (snd e) = false) files →
  raised s = None →
  regular_files (dest s) = [] →
  raised (List.fold_left (copy_one now) files s) = None
  ∧ issued (List.fold_left (copy_one now) files s) = issued s
  ∧ copied (List.fold_left (copy_one now) files s) = copied s
  ∧ total (List.fold_left (copy_one now) files s) = total s
  ∧ regular_files (dest (List.fold_left (copy_one now) files s)) = [].
Proof.
  intros Hall. revert s. induction Hall as [|e files He _ IH]; intros s Hs Hnone; [auto|].
  cbn [List.fold_left]. rewrite copy_one_step by exact Hs.
  assert (Hfree : ∀ p, p ∈ ancestors (parent (fst e)) → is_reg (dest s) p = false).
  { intros p _. unfold is_reg. destruct (tree_get (dest s) p) as [[|g]|] eqn:E; try reflexivity.
    apply tree_get_In, regular_files_In in E. rewrite Hnone in E. destruct E. }
  rewrite (mkdir_returned _ _ Hfree), (backup_file_unreadable _ _ _ _ _ He).
  destruct (IH (mkCopyState (List.fold_left make_dir (ancestors (parent (fst e))) (dest s))
                  (issued s) (total s) (copied s) None) eq_refl) as (H1 & H2 & H3 & H4 & H5).
  - cbn [dest]. rewrite regular_files_make_dirs. exact Hnone.
  - auto.
Qed.

(** A directory without regular files has the checksum of no bytes. *)
Lemma checksum_no_files (t : Tree) :
  regular_files t = [] → calculate_backup_checksum sha256 t = Returned (sha256 []).
Proof.
  intros Hnone.
  assert (Hno : ∀ p, file_at t p = None).
  { intros p. unfold file_at. destruct (tree_get t p) as [[|g]|] eqn:E; try reflexivity.
    apply tree_get_In, regular_files_In in E. rewrite Hnone in E. destruct E. }
  rewrite checksum_digest_sorted by (intros p b d; rewrite Hno; discriminate).
  unfold sorted_payload, file_paths.
  assert (Hf : filter (λ p, is_Some (file_at t p)) (rglob t) = []).
  { induction (rglob t) as [|p l IH]; [reflexivity|].
    rewrite filter_cons, decide_False; [exact IH|].
    rewrite Hno. intros [? ?]. discriminate. }
  rewrite Hf. reflexivity.
Qed.

(** C10. A run that selects no file, or whose selected files all fail to be
    read, completes: the ratio is the guarded [0], and a record with
    [file_count] 0 and the checksum of a run directory without files is
    inserted under the next id. *)
Theorem create_backup_nothing_copied (btype : string) (now : Z) (health : string)
    (git : option string) (vault : Tree) (w : World) :
  store w !! backup_dir now = None →
  Forall (λ e, readable (snd e) = false) (files_to_backup btype vault (index w)) →
  let row := mkBackupRow now btype 0 0 0 (sha256 []) (backup_dir now)
               (mkMetadata health git 0 RatioZero) in
  let id := backups_seq (index w) + 1 in
  snd (create_backup btype now health git vault w)
  = Returned (mkBackupInfo id now btype 0 0 0 RatioZero (sha256 []) (backup_dir now))
  ∧ backups (index (fst (create_backup btype now health git vault w))) !! id = Some row
  ∧ (∀ id', id' ≠ id →
       backups (index (fst (create_backup btype now health git vault w))) !! id'
       = backups (index w) !! id')
  ∧ backups_seq (index (fst (create_backup btype now health git vault w))) = id
  ∧ file_hashes (index (fst (create_backup btype now health git vault w)))
    = file_hashes (index w)
  ∧ ∃ t, store (fst (create_backup btype now health git vault w))
         = <[backup_dir now := t]> (store w)
         ∧ regular_files t = []
         ∧ calculate_backup_checksum sha256 t = Returned (sha256 []).
Proof.
  intros Hfresh Hfail row id.
  destruct (copy_loop_unreadable now (files_to_backup btype vault (index w))
              (mkCopyState [] [] 0 0 None) Hfail eq_refl eq_refl)
    as (Hr & Hi & Hc & Ht & Hnone).
  assert (Hrun : run_copy btype now vault w
                 = List.fold_left (copy_one now) (files_to_backup btype vault (index w))
                     (mkCopyState [] [] 0 0 None)).
  { unfold run_copy, copy_files. rewrite Hfresh. reflexivity. }
  rewrite <- Hrun in Hr, Hi, Hc, Ht, Hnone. cbn [issued copied total] in Hi, Hc, Ht.
  assert (Hlog : run_copied btype now vault w = []).
  { destruct (run_copy_log btype now vault w) as (Hl & _). rewrite Hi in Hl.
    symmetry in Hl. apply map_eq_nil in Hl. exact Hl. }
  pose proof (checksum_no_files _ Hnone) as Hsum.
  rewrite (create_backup_returned btype now health git vault w _ Hr Hsum).
  unfold backup_row, upserts_committed, tree_size, insert_backup.
  rewrite Hlog, Hc, Ht, Hnone.
  cbn [fst snd index store backups backups_seq file_hashes List.fold_right apply_upserts
       List.fold_left].
  fold id. fold row.
  split; [reflexivity|]. split; [apply lookup_insert_eq|].
  split; [intros id' Hne; apply lookup_insert_ne; congruence|].
  split; [reflexivity|]. split; [reflexivity|].
  exists (dest (run_copy btype now vault w)). auto.
Qed.

End Run.

(** ** Two incremental runs *)

Lemma NoDup_map_inj_on {A B} (g : A → B) (l : list A) (a b : A) :
  NoDup (List.map g l) → In a l → In b l → g a = g b → a = b.
Proof.
  induction l as [|x l IH]; simpl; [tauto|].
  intros Hnd Ha Hb Heq. apply NoDup_cons in Hnd as [Hx Hnd].
  destruct Ha as [->|Ha], Hb as [->|Hb]; auto.
  - destruct Hx. rewrite Heq. apply list_elem_of_In, in_map, Hb.
  - destruct Hx. rewrite <- Heq. apply list_elem_of_In, in_map, Ha.
Qed.

Lemma NoDup_map_filter {A B} (g : A → B) (P : A → bool) (l : list A) :
  NoDup (List.map g l) → NoDup (List.map g (List.filter P l)).
Proof.
  induction l as [|x l IH]; simpl; [auto|].
  intros Hnd. apply NoDup_cons in Hnd as [Hx Hnd].
  destruct (P x); simpl; [|auto].
  apply NoDup_cons. split; [|auto].
  intros Hin. apply Hx. apply list_elem_of_In in Hin. apply list_elem_of_In.
  apply in_map_iff in Hin as (y & <- & Hy). apply in_map.
  apply filter_In in Hy. tauto.
Qed.

Lemma NoDup_regular_files {B} (g : Path → B) (t : Tree) :
  NoDup (List.map g (rglob t)) →
  NoDup (List.map (λ e : Path * File, g (fst e)) (regular_files t)).
Proof.
  induction t as [|[p n] t IH]; [auto|].
  change (rglob ((p, n) :: t)) with (p :: rglob t). cbn [List.map].
  intros Hnd. apply NoDup_cons in Hnd as [Hp Hnd]. specialize (IH Hnd).
  destruct n as [|f]; [exact IH|].
  cbn [regular_files List.map fst]. apply NoDup_cons. split; [|exact IH].
  intros Hin. apply Hp. apply list_elem_of_In in Hin. apply list_elem_of_In.
  apply in_map_iff in Hin as ([q h] & Hq & Hy). simpl in Hq. rewrite <- Hq.
  unfold rglob. rewrite map_map. apply in_map_iff.
  exists (q, Reg h). split; [reflexivity|].
  apply regular_files_In, Hy.
Qed.

Section Incremental.
Variable sha256 : bytes → string.
Variable gzip_compress : bytes → bytes.
Variable path_match : Path → string → bool.
Variable backup_dir : Z → string.
Variable config : Config.
Variable vault_path : Path.

Local Abbreviation should_exclude := (should_exclude path_match config vault_path).
Local Abbreviation calculate_file_hash := (calculate_file_hash sha256).
Local Abbreviation get_changed_files := (get_changed_files sha256 path_match config vault_path).
Local Abbreviation all_files := (all_files path_match config vault_path).
Local Abbreviation files_to_backup := (files_to_backup sha256 path_match config vault_path).
Local Abbreviation selected := (selected sha256 path_match config vault_path).
Local Abbreviation run_copy :=
  (run_copy sha256 gzip_compress path_match backup_dir config vault_path).
Local Abbreviation run_copied :=
  (run_copied sha256 gzip_compress path_match backup_dir config vault_path).
Local Abbreviation commits :=
  (commits sha256 gzip_compress path_match backup_dir config vault_path).
Local Abbreviation create_backup :=
  (create_backup sha256 gzip_compress path_match backup_dir config vault_path).

Lemma selected_same_row (ix ix' : Index) (e : Path * File) :
  file_hashes ix' !! str (fst e) = file_hashes ix !! str (fst e) →
  selected ix' e = selected ix e.
Proof. intros H. unfold selected. rewrite H. reflexivity. Qed.

Lemma all_files_In (vault : Tree) (rel : Path) (f : File) :
  In (rel, f) (all_files vault) ↔ In (rel, Reg f) vault ∧ should_exclude rel = false.
Proof.
  unfold all_files. rewrite filter_In, regular_files_In. simpl.
  rewrite negb_true_iff. reflexivity.
Qed.

Lemma selected_file_of_vault (btype : string) (vault : Tree) (ix : Index)
    (rel : Path) (f : File) :
  In (rel, f) (files_to_backup btype vault ix) →
  In (rel, Reg f) vault ∧ should_exclude rel = false.
Proof.
  unfold files_to_backup. destruct (String.eqb btype "incremental"); intros H.
  - apply get_changed_files_In in H as [Hin Hsel]. split; [exact Hin|].
    unfold selected in Hsel. apply andb_prop in Hsel as [Hex _].
    apply negb_true_iff in Hex. exact Hex.
  - apply all_files_In in H. exact H.
Qed.

Lemma files_to_backup_keys (btype : string) (vault : Tree) (ix : Index) :
  NoDup (List.map str (rglob vault)) →
  NoDup (List.map (λ e : Path * File, str (fst e)) (files_to_backup btype vault ix)).
Proof.
  intros Hnd. unfold files_to_backup. destruct (String.eqb btype "incremental").
  - rewrite get_changed_files_filter. apply NoDup_map_filter, NoDup_regular_files, Hnd.
  - unfold all_files. apply NoDup_map_filter, NoDup_regular_files, Hnd.
Qed.

Lemma run_copied_keys (btype : string) (now : Z) (vault : Tree) (w : World) :
  NoDup (List.map str (rglob vault)) →
  NoDup (List.map (λ e : Path * File, str (fst e)) (run_copied btype now vault w)).
Proof.
  intros Hnd.
  apply (sublist_NoDup _ (List.map (λ e : Path * File, str (fst e))
                            (copyable (files_to_backup btype vault (index w))))).
  - apply NoDup_map_filter, files_to_backup_keys, Hnd.
  - apply (fmap_sublist (λ e : Path * File, str (fst e))).
    apply copied_from_sublist.
Qed.

(** The entry of a file whose upsert the run commits is the one the upsert
    writes; the entry of any other file of the vault is as it was. *)
Lemma committed_entry (btype : string) (now : Z) (health : string) (git : option string)
    (vault : Tree) (w : World) (e : Path * File) :
  NoDup (List.map str (rglob vault)) →
  commits btype now vault w e →
  file_hashes (index (fst (create_backup btype now health git vault w))) !! str (fst e)
  = Some (row_of sha256 e).
Proof.
  intros Hnd [Hr Hin].
  rewrite (create_backup_file_hashes sha256 gzip_compress path_match backup_dir
             config vault_path), Hr.
  apply apply_upserts_last; [apply run_copied_keys, Hnd | exact Hin].
Qed.

Lemma uncommitted_entry (btype : string) (now : Z) (health : string) (git : option string)
    (vault : Tree) (w : World) (rel : Path) (f : File) :
  NoDup (List.map str (rglob vault)) →
  In (rel, Reg f) vault →
  ¬ commits btype now vault w (rel, f) →
  file_hashes (index (fst (create_backup btype now health git vault w))) !! str rel
  = file_hashes (index w) !! str rel.
Proof.
  intros Hnd Hin Hno.
  rewrite (create_backup_file_hashes sha256 gzip_compress path_match backup_dir
             config vault_path).
  destruct (raised (run_copy btype now vault w)) as [x|] eqn:Hr; [reflexivity|].
  apply apply_upserts_other. intros [q g] Hq Heq. simpl in Heq.
  apply Hno. split; [exact Hr|].
  assert (E : (q, Reg g) = (rel, Reg f)).
  { apply (NoDup_map_inj_on (λ e : Path * Node, str (fst e)) vault); auto.
    - unfold rglob in Hnd. rewrite map_map in Hnd. exact Hnd.
    - apply copied_from_In in Hq as [Hq _].
      apply selected_file_of_vault in Hq as [Hq _]. exact Hq. }
  injection E as <- <-. exact Hq.
Qed.

(** The change detector after a run of any type, over the same vault: it
    selects a file exactly when it selected the file before the run and the
    run has not committed an entry for it. *)
Lemma next_run_selects (btype : string) (now : Z) (health : string) (git : option string)
    (vault : Tree) (w : World) (rel : Path) (f : File) :
  NoDup (List.map str (rglob vault)) →
  (In (rel, f)
      (get_changed_files vault
         (index (fst (create_backup btype now health git vault w))))
   ↔ In (rel, f) (get_changed_files vault (index w))
     ∧ ¬ commits btype now vault w (rel, f)).
Proof.
  intros Hnd. rewrite !get_changed_files_In. split.
  - intros [Hin Hsel].
    assert (Hno : ¬ commits btype now vault w (rel, f)).
    { intros Hc.
      pose proof (committed_entry btype now health git vault w (rel, f) Hnd Hc) as Hrow.
      unfold selected in Hsel. simpl in Hrow, Hsel. rewrite Hrow in Hsel. simpl in Hsel.
      rewrite Z.ltb_irrefl, andb_false_r in Hsel. discriminate. }
    split; [|exact Hno]. split; [exact Hin|].
    rewrite <- Hsel. symmetry. apply selected_same_row.
    apply (uncommitted_entry btype now health git vault w rel f Hnd Hin Hno).
  - intros [[Hin Hsel] Hno]. split; [exact Hin|].
    rewrite <- Hsel. apply selected_same_row.
    apply (uncommitted_entry btype now health git vault w rel f Hnd Hin Hno).
Qed.

(** C5, as the code has it.  The decision of the change detector for a
    regular file that is not excluded: a file without an entry is selected; a
    file whose modification time is later than the recorded one is selected
    exactly when its fresh hash differs from the recorded one; a file whose
    modification time has not advanced is not selected.  After an incremental
    run, a file of the same vault is selected exactly when it was selected
    before the run and the run has not committed an entry for it: a file the
    run left out as unchanged, or copied, is not in the file set of the next
    run; a file whose copy failed is. *)
Theorem changed_files_decision (vault : Tree) (ix : Index) (rel : Path) (f : File) :
  In (rel, Reg f) vault →
  should_exclude rel = false →
  (file_hashes ix !! str rel = None → In (rel, f) (get_changed_files vault ix))
  ∧ (∀ row, file_hashes ix !! str rel = Some row →
       last_modified row < st_mtime f →
       (In (rel, f) (get_changed_files vault ix)
        ↔ calculate_file_hash f ≠ last_hash row))
  ∧ (∀ row, file_hashes ix !! str rel = Some row →
       st_mtime f ≤ last_modified row →
       ¬ In (rel, f) (get_changed_files vault ix))
  ∧ (∀ now health git w,
       index w = ix →
       NoDup (List.map str (rglob vault)) →
       (In (rel, f)
           (get_changed_files vault
              (index (fst (create_backup "incremental" now health git vault w))))
        ↔ In (rel, f) (get_changed_files vault ix)
          ∧ ¬ commits "incremental" now vault w (rel, f))).
Proof.
  intros Hin Hex. refine (conj _ (conj _ (conj _ _))).
  - intros Hnone. apply get_changed_files_In. split; [exact Hin|].
    unfold selected. simpl. rewrite Hex, Hnone. reflexivity.
  - intros row Hrow Hlt. split.
    + intros Hsel. apply get_changed_files_In in Hsel as [_ Hsel].
      unfold selected in Hsel. simpl in Hsel. rewrite Hex, Hrow in Hsel.
      simpl in Hsel. apply andb_prop in Hsel as [_ Hne].
      apply negb_true_iff, String.eqb_neq in Hne. exact Hne.
    + intros Hne. apply get_changed_files_In. split; [exact Hin|].
      unfold selected. simpl. rewrite Hex, Hrow. simpl.
      apply andb_true_intro. split; [apply Z.ltb_lt; assumption|].
      apply negb_true_iff, String.eqb_neq. exact Hne.
  - intros row Hrow Hle Hsel. apply get_changed_files_In in Hsel as [_ Hsel].
    unfold selected in Hsel. simpl in Hsel. rewrite Hex, Hrow in Hsel.
    simpl in Hsel. apply andb_prop in Hsel as [Hlt _]. apply Z.ltb_lt in Hlt. lia.
  - intros now health git w <- Hnd. apply next_run_selects, Hnd.
Qed.

End Incremental.

(** ** Verification *)

Section Verify.
Variable sha256 : bytes → string.

Lemma checksum_loop_raises (t : Tree) (paths : list Path) (h : bytes) (e : exn) :
  checksum_loop t paths h = Raised e → e = PermissionError.
Proof.
  revert h. induction paths as [|p ps IH]; intros h; simpl; [discriminate|].
  destruct (tree_get t p) as [[|f]|]; eauto.
  destruct (readable f); [eauto | congruence].
Qed.

Lemma checksum_loop_returns (t : Tree) (paths : list Path) (h h' : bytes) (p : Path) :
  checksum_loop t paths h = Returned h' → In p paths →
  ∀ d, file_at t p ≠ Some (false, d).
Proof.
  revert h. induction paths as [|q ps IH]; intros h Hret Hin d; [destruct Hin|].
  simpl in Hret. destruct Hin as [->|Hin].
  - unfold file_at. revert Hret.
    destruct (tree_get t p) as [[|f]|]; intros Hret; try discriminate.
    destruct (readable f); discriminate.
  - revert Hret. destruct (tree_get t q) as [[|f]|]; intros Hret.
    + eapply IH; eassumption.
    + destruct (readable f); [eapply IH; eassumption | discriminate].
    + eapply IH; eassumption.
Qed.

(** One file that cannot be read makes the checksum raise. *)
Lemma checksum_unreadable (t : Tree) (p : Path) (d : bytes) :
  file_at t p = Some (false, d) →
  calculate_backup_checksum sha256 t = Raised PermissionError.
Proof.
  intros Hp. unfold calculate_backup_checksum.
  destruct (checksum_loop t (merge_sort path_le (rglob t)) []) as [h|e] eqn:E.
  - exfalso. eapply (checksum_loop_returns _ _ _ _ p E); [|exact Hp].
    apply list_elem_of_In. rewrite merge_sort_Permutation.
    apply file_at_rglob. rewrite Hp. eauto.
  - apply checksum_loop_raises in E. congruence.
Qed.

(** [verify_backup] returns true exactly when the record exists, its
    directory exists, and the checksum computed now is the stored one. *)
Lemma verify_backup_true (w : World) (backup_id : Z) :
  verify_backup sha256 w backup_id = Returned true ↔
  ∃ row t, backups (index w) !! backup_id = Some row
           ∧ store w !! backup_path row = Some t
           ∧ calculate_backup_checksum sha256 t = Returned (checksum row).
Proof.
  unfold verify_backup. split.
  - destruct (backups (index w) !! backup_id) as [row|] eqn:Hrow; [|discriminate].
    destruct (store w !! backup_path row) as [t|] eqn:Hdir; [|discriminate].
    destruct (calculate_backup_checksum sha256 t) as [c|] eqn:Hsum; [|discriminate].
    intros H. injection H as H. apply String.eqb_eq in H. subst c.
    exists row, t. auto.
  - intros (row & t & -> & -> & ->). rewrite String.eqb_refl. reflexivity.
Qed.

(** It returns false when the record is missing, when the directory is
    missing, and when the checksum computed now differs from the stored
    one. *)
Lemma verify_backup_false (w : World) (backup_id : Z) :
  verify_backup sha256 w backup_id = Returned false ↔
  backups (index w) !! backup_id = None
  ∨ ∃ row, backups (index w) !! backup_id = Some row
           ∧ (store w !! backup_path row = None
              ∨ ∃ t current, store w !! backup_path row = Some t
                             ∧ calculate_backup_checksum sha256 t = Returned current
                             ∧ current ≠ checksum row).
Proof.
  unfold verify_backup. split.
  - destruct (backups (index w) !! backup_id) as [row|] eqn:Hrow; [|auto].
    intros H. right. exists row. split; [reflexivity|].
    destruct (store w !! backup_path row) as [t|] eqn:Hdir; [|auto].
    destruct (calculate_backup_checksum sha256 t) as [c|] eqn:Hsum; [|discriminate].
    injection H as H. apply String.eqb_neq in H. right. exists t, c. auto.
  - intros [->|(row & -> & [->|(t & c & -> & -> & Hne)])]; try reflexivity.
    apply String.eqb_neq in Hne. rewrite Hne. reflexivity.
Qed.

(** A record whose directory holds a file that cannot be read: the call
    raises, it does not return. *)
Lemma verify_backup_unreadable (w : World) (backup_id : Z) (row : BackupRow)
    (t : Tree) (p : Path) (d : bytes) :
  backups (index w) !! backup_id = Some row →
  store w !! backup_path row = Some t →
  file_at t p = Some (false, d) →
  verify_backup sha256 w backup_id = Raised PermissionError.
Proof.
  intros Hrow Hdir Hp. unfold verify_backup.
  rewrite Hrow, Hdir, (checksum_unreadable t p d Hp). reflexivity.
Qed.

End Verify.

(** ** Retention *)

Lemma filter_filter_same {A} (P : A → bool) (l : list A) :
  List.filter P (List.filter P l) = List.filter P l.
Proof.
  induction l as [|x l IH]; simpl; [reflexivity|].
  destruct (P x) eqn:E; simpl; [rewrite E, IH; reflexivity | exact IH].
Qed.

Section Cleanup.
Variable rmtree_fails : string → bool.
Variable rmtree_keeps : string → Path → bool.

Local Abbreviation rmtree_rest := (rmtree_rest rmtree_keeps).
Local Abbreviation cleanup_one := (cleanup_one rmtree_fails rmtree_keeps).

(** A second removal that fails where the first one did removes nothing
    more. *)
Lemma rmtree_rest_idem (path : string) (t : Tree) :
  rmtree_rest path (rmtree_rest path t) = rmtree_rest path t.
Proof. apply filter_filter_same. Qed.

Lemma rmtree_rest_sublist (path : string) (t : Tree) :
  rmtree_rest path t `sublist_of` t.
Proof.
  unfold rmtree_rest. induction t as [|x t IH]; simpl; [constructor|].
  destruct (rmtree_keeps path (fst x)); [apply sublist_skip, IH | apply sublist_cons, IH].
Qed.

Lemma blocked_after_removal (dirs : gmap string Tree) (path0 path : string) :
  blocked rmtree_fails dirs path0 = false →
  blocked rmtree_fails (delete path0 dirs) path = blocked rmtree_fails dirs path.
Proof.
  intros Hok. unfold blocked in *. destruct (decide (path0 = path)) as [->|Hne].
  - rewrite Hok, lookup_delete_eq.
    rewrite bool_decide_eq_false_2 by (intros [? ?]; discriminate). reflexivity.
  - rewrite lookup_delete_ne by exact Hne. reflexivity.
Qed.

Lemma blocked_after_failure (dirs : gmap string Tree) (path0 path : string) (t : Tree) :
  blocked rmtree_fails dirs path0 = true →
  blocked rmtree_fails (<[path0 := t]> dirs) path = blocked rmtree_fails dirs path.
Proof.
  intros Hbl. unfold blocked in *. destruct (decide (path0 = path)) as [->|Hne].
  - rewrite Hbl, lookup_insert_eq. apply andb_prop in Hbl as [_ ->].
    rewrite bool_decide_eq_true_2 by eauto. reflexivity.
  - rewrite lookup_insert_ne by exact Hne. reflexivity.
Qed.

Lemma row_deleted_ext (dirs dirs' : gmap string Tree) (old : list (Z * string)) (id : Z) :
  (∀ path, blocked rmtree_fails dirs' path = blocked rmtree_fails dirs path) →
  row_deleted rmtree_fails dirs' old id = row_deleted rmtree_fails dirs old id.
Proof.
  intros H. unfold row_deleted. induction old as [|b old IH]; simpl; [reflexivity|].
  rewrite IH, H. reflexivity.
Qed.

Lemma dir_removed_fails (old : list (Z * string)) (path : string) :
  rmtree_fails path = true → dir_removed rmtree_fails old path = false.
Proof.
  intros Hf. unfold dir_removed. induction old as [|b old IH]; simpl; [reflexivity|].
  rewrite IH, Hf, andb_false_r. reflexivity.
Qed.

Lemma dir_emptied_ok (old : list (Z * string)) (path : string) :
  rmtree_fails path = false → dir_emptied rmtree_fails old path = false.
Proof.
  intros Hf. unfold dir_emptied. induction old as [|b old IH]; simpl; [reflexivity|].
  rewrite IH, Hf, andb_false_r. reflexivity.
Qed.

(** One iteration: when the removal fails, the directory keeps what the
    removal had not reached and no statement is issued; else the directory,
    if any, is gone and the DELETE is issued. *)
Lemma cleanup_one_blocked (dirs : gmap string Tree) (c : Conn) (id0 : Z) (path0 : string) :
  cleanup_one (dirs, c) (id0, path0)
  = if blocked rmtree_fails dirs path0
    then (<[path0 := rmtree_rest path0 (default [] (dirs !! path0 : option Tree))]> dirs, c)
    else (delete path0 dirs, execute c (DeleteBackup id0)).
Proof.
  unfold cleanup_one, blocked. destruct (dirs !! path0) as [t0|] eqn:Hdir.
  - rewrite bool_decide_eq_true_2 by eauto. simpl.
    destruct (rmtree_fails path0); reflexivity.
  - rewrite bool_decide_eq_false_2 by (intros [? ?]; discriminate). simpl.
    rewrite delete_id by exact Hdir. reflexivity.
Qed.

(** The loop, from any state: the durable index is untouched until the
    commit, exactly the rows whose directory removal does not fail are
    deleted, exactly their directories are gone, and the directories whose
    removal fails keep what the removal had not reached. *)
Lemma cleanup_loop (old : list (Z * string)) (dirs : gmap string Tree) (c : Conn) :
  durable (snd (List.fold_left cleanup_one old (dirs, c))) = durable c
  ∧ file_hashes (pending (snd (List.fold_left cleanup_one old (dirs, c))))
    = file_hashes (pending c)
  ∧ backups_seq (pending (snd (List.fold_left cleanup_one old (dirs, c))))
    = backups_seq (pending c)
  ∧ (∀ id, backups (pending (snd (List.fold_left cleanup_one old (dirs, c)))) !! id
           = if row_deleted rmtree_fails dirs old id then None
             else backups (pending c) !! id)
  ∧ (∀ path, fst (List.fold_left cleanup_one old (dirs, c)) !! path
             = if dir_removed rmtree_fails old path then None
               else if dir_emptied rmtree_fails old path
                    then rmtree_rest path <$> dirs !! path
                    else dirs !! path).
Proof.
  revert dirs c. induction old as [|[id0 path0] old IH]; intros dirs c.
  - simpl. auto.
  - cbn [List.fold_left]. rewrite cleanup_one_blocked.
    destruct (blocked rmtree_fails dirs path0) eqn:Hbl.
    + (* the removal raises: the row stays, the directory is partly emptied *)
      assert (Hfail : rmtree_fails path0 = true)
        by (unfold blocked in Hbl; apply andb_prop in Hbl as [_ Hbl]; exact Hbl).
      assert (Hdir : ∃ t, dirs !! path0 = Some t).
      { unfold blocked in Hbl. apply andb_prop in Hbl as [Hbl _].
        apply bool_decide_eq_true_1 in Hbl. exact Hbl. }
      destruct Hdir as [t Hdir]. rewrite Hdir. cbn [default].
      destruct (IH (<[path0 := rmtree_rest path0 t]> dirs) c) as (Hd & Hf & Hq & Hb & Hs).
      refine (conj Hd (conj Hf (conj Hq (conj _ _)))).
      * intros id. rewrite Hb.
        rewrite (row_deleted_ext dirs) by (intros; apply blocked_after_failure, Hbl).
        unfold row_deleted. cbn [existsb fst snd].
        rewrite Hbl, andb_false_r. reflexivity.
      * intros path. rewrite Hs. unfold dir_removed at 2, dir_emptied at 2.
        cbn [existsb snd]. fold (dir_removed rmtree_fails old path).
        fold (dir_emptied rmtree_fails old path).
        destruct (String.eqb_spec path0 path) as [->|Hne].
        -- rewrite Hfail, (dir_removed_fails old path Hfail). cbn [negb andb orb].
           rewrite lookup_insert_eq, Hdir. cbn [fmap option_fmap option_map].
           rewrite rmtree_rest_idem. destruct (dir_emptied rmtree_fails old path); reflexivity.
        -- cbn [andb orb]. rewrite lookup_insert_ne by exact Hne. reflexivity.
    + (* the directory, if there, is removed and the row is deleted *)
      destruct (IH (delete path0 dirs) (execute c (DeleteBackup id0)))
        as (Hd & Hf & Hq & Hb & Hs).
      refine (conj Hd (conj Hf (conj Hq (conj _ _)))).
      * intros id. rewrite Hb.
        rewrite (row_deleted_ext dirs) by (intros; apply blocked_after_removal, Hbl).
        unfold row_deleted. cbn [existsb fst snd]. rewrite Hbl. cbn [negb].
        rewrite andb_true_r.
        destruct (existsb _ old); [rewrite orb_true_r; reflexivity|].
        rewrite orb_false_r. simpl.
        destruct (Z.eqb_spec id0 id) as [->|Hne];
          [apply lookup_delete_eq | apply lookup_delete_ne, Hne].
      * intros path. rewrite Hs. unfold dir_removed at 2, dir_emptied at 2.
        cbn [existsb snd]. fold (dir_removed rmtree_fails old path).
        fold (dir_emptied rmtree_fails old path).
        destruct (String.eqb_spec path0 path) as [->|Hne].
        -- rewrite lookup_delete_eq. cbn [andb orb].
           destruct (rmtree_fails path) eqn:Hfail; cbn [negb orb].
           ++ rewrite (dir_removed_fails old path Hfail).
              unfold blocked in Hbl. rewrite Hfail, andb_true_r in Hbl.
              apply bool_decide_eq_false_1 in Hbl.
              destruct (dirs !! path) eqn:E; [destruct Hbl; eauto|].
              destruct (dir_emptied rmtree_fails old path); reflexivity.
           ++ rewrite (dir_emptied_ok old path Hfail).
              destruct (dir_removed rmtree_fails old path); reflexivity.
        -- cbn [andb orb]. rewrite lookup_delete_ne by exact Hne. reflexivity.
Qed.

End Cleanup.

Section Retention.
Variable config : Config.
Variable rmtree_fails : string → bool.
Variable rmtree_keeps : string → Path → bool.

Local Abbreviation cleanup_old_backups :=
  (cleanup_old_backups config).

Lemma select_old_In (ix : Index) (cutoff : Z) (id : Z) (path : string) :
  In (id, path) (select_old ix cutoff) ↔
  ∃ row, backups ix !! id = Some row ∧ timestamp row < cutoff ∧ backup_path row = path.
Proof.
  unfold select_old. rewrite in_map_iff. split.
  - intros ([i row] & Heq & Hin). simpl in Heq. injection Heq as -> <-.
    apply filter_In in Hin as [Hin Hts]. simpl in Hts.
    apply list_elem_of_In, elem_of_map_to_list in Hin. apply Z.ltb_lt in Hts. eauto.
  - intros (row & Hrow & Hts & <-). exists (id, row). split; [reflexivity|].
    apply filter_In. split.
    + apply list_elem_of_In, elem_of_map_to_list, Hrow.
    + simpl. apply Z.ltb_lt, Hts.
Qed.

Lemma row_deleted_select (ix : Index) (cutoff : Z) (dirs : gmap string Tree) (id : Z) :
  row_deleted rmtree_fails dirs (select_old ix cutoff) id
  = match backups ix !! id with
    | Some row => (timestamp row <? cutoff) && negb (blocked rmtree_fails dirs (backup_path row))
    | None => false
    end.
Proof.
  apply eq_true_iff_eq. unfold row_deleted. rewrite existsb_exists. split.
  - intros ([i path] & Hin & Hb). simpl in Hb. apply andb_prop in Hb as [Hi Hb].
    apply Z.eqb_eq in Hi. subst i.
    apply select_old_In in Hin as (row & -> & Hts & <-).
    rewrite Hb, andb_true_r. apply Z.ltb_lt, Hts.
  - destruct (backups ix !! id) as [row|] eqn:Hrow; [|discriminate].
    intros H. apply andb_prop in H as [Hts Hb]. apply Z.ltb_lt in Hts.
    exists (id, backup_path row). split.
    + apply select_old_In. eauto.
    + simpl. rewrite Z.eqb_refl, Hb. reflexivity.
Qed.

(** The [backups] table after a cleanup pass. *)
Lemma cleanup_backups (now : Z) (w : World) (id : Z) :
  backups (index (cleanup_old_backups now rmtree_fails rmtree_keeps w)) !! id
  = match backups (index w) !! id with
    | Some row =>
        if (timestamp row <? cutoff_date config now)
           && negb (blocked rmtree_fails (store w) (backup_path row))
        then None else Some row
    | None => None
    end.
Proof.
  unfold cleanup_old_backups.
  pose proof (cleanup_loop rmtree_fails rmtree_keeps
                (select_old (index w) (now - retention_days config * day_us))
                (store w) (connect (index w))) as (_ & _ & _ & Hb & _).
  destruct (List.fold_left _ _ _) as [dirs c]. simpl in *.
  rewrite Hb, row_deleted_select. unfold cutoff_date.
  destruct (backups (index w) !! id) as [row|]; [|reflexivity].
  destruct (_ && _); reflexivity.
Qed.

(** The backup directories after a cleanup pass. *)
Lemma cleanup_store (now : Z) (w : World) (path : string) :
  store (cleanup_old_backups now rmtree_fails rmtree_keeps w) !! path
  = if dir_removed rmtree_fails (select_old (index w) (cutoff_date config now)) path
    then None
    else if dir_emptied rmtree_fails (select_old (index w) (cutoff_date config now)) path
         then rmtree_rest rmtree_keeps path <$> store w !! path
         else store w !! path.
Proof.
  unfold cleanup_old_backups.
  pose proof (cleanup_loop rmtree_fails rmtree_keeps
                (select_old (index w) (now - retention_days config * day_us))
                (store w) (connect (index w))) as (_ & _ & _ & _ & Hs).
  destruct (List.fold_left _ _ _) as [dirs c]. simpl in *.
  apply Hs.
Qed.

Lemma dir_removed_selected (ix : Index) (cutoff : Z) (id : Z) (row : BackupRow) :
  backups ix !! id = Some row → timestamp row < cutoff →
  dir_removed rmtree_fails (select_old ix cutoff) (backup_path row)
  = negb (rmtree_fails (backup_path row)).
Proof.
  intros Hrow Hts. apply eq_true_iff_eq. unfold dir_removed. rewrite existsb_exists. split.
  - intros (b & _ & Hb). apply andb_prop in Hb as [_ Hb]. exact Hb.
  - intros Hok. exists (id, backup_path row). split.
    + apply select_old_In. eauto.
    + simpl. rewrite String.eqb_refl. exact Hok.
Qed.

Lemma dir_emptied_selected (ix : Index) (cutoff : Z) (id : Z) (row : BackupRow) :
  backups ix !! id = Some row → timestamp row < cutoff →
  dir_emptied rmtree_fails (select_old ix cutoff) (backup_path row)
  = rmtree_fails (backup_path row).
Proof.
  intros Hrow Hts. apply eq_true_iff_eq. unfold dir_emptied. rewrite existsb_exists. split.
  - intros (b & _ & Hb). apply andb_prop in Hb as [_ Hb]. exact Hb.
  - intros Hok. exists (id, backup_path row). split.
    + apply select_old_In. eauto.
    + simpl. rewrite String.eqb_refl. exact Hok.
Qed.

End Retention.

(** C8. For a record older than the cutoff: when the removal of its
    directory fails the row stays, the directory stays with what the removal
    had not reached, and the record is selected again by every later pass;
    the row is deleted exactly when the directory was absent or its removal
    succeeded, and then the directory is gone; and every other eligible
    record is dealt with in the same way, whatever failed before it. *)
Theorem cleanup_removal_failure_keeps_row (config : Config) (rmtree_fails : string → bool)
    (rmtree_keeps : string → Path → bool) (now : Z) (w : World) (id : Z) (row : BackupRow) :
  backups (index w) !! id = Some row →
  timestamp row < cutoff_date config now →
  (∀ t, store w !! backup_path row = Some t → rmtree_fails (backup_path row) = true →
     backups (index (cleanup_old_backups config now rmtree_fails rmtree_keeps w)) !! id
     = Some row
     ∧ store (cleanup_old_backups config now rmtree_fails rmtree_keeps w) !! backup_path row
       = Some (rmtree_rest rmtree_keeps (backup_path row) t)
     ∧ ∀ later, now ≤ later →
         In (id, backup_path row)
            (select_old (index (cleanup_old_backups config now rmtree_fails rmtree_keeps w))
               (cutoff_date config later)))
  ∧ (backups (index (cleanup_old_backups config now rmtree_fails rmtree_keeps w)) !! id = None
     ↔ store w !! backup_path row = None ∨ rmtree_fails (backup_path row) = false)
  ∧ (backups (index (cleanup_old_backups config now rmtree_fails rmtree_keeps w)) !! id = None →
     store (cleanup_old_backups config now rmtree_fails rmtree_keeps w) !! backup_path row
     = None)
  ∧ (∀ id' row',
       backups (index w) !! id' = Some row' →
       timestamp row' < cutoff_date config now →
       store w !! backup_path row' = None ∨ rmtree_fails (backup_path row') = false →
       backups (index (cleanup_old_backups config now rmtree_fails rmtree_keeps w)) !! id'
       = None).
Proof.
  intros Hrow Hts.
  assert (Hold : (timestamp row <? cutoff_date config now) = true) by (apply Z.ltb_lt, Hts).
  assert (Hfree : ∀ r : BackupRow,
            blocked rmtree_fails (store w) (backup_path r) = false
            ↔ store w !! backup_path r = None ∨ rmtree_fails (backup_path r) = false).
  { intros r. unfold blocked. rewrite andb_false_iff, bool_decide_eq_false. split.
    - intros [Hn|Hf]; [left | right; exact Hf].
      destruct (store w !! backup_path r); [destruct Hn; eauto | reflexivity].
    - intros [Hn|Hf]; [left | right; exact Hf].
      rewrite Hn. intros [? ?]; discriminate. }
  split; [|split; [|split]].
  - intros t Hdir Hfail.
    assert (Hbl : blocked rmtree_fails (store w) (backup_path row) = true).
    { unfold blocked. rewrite Hfail, bool_decide_eq_true_2 by eauto. reflexivity. }
    assert (Hkept : backups (index (cleanup_old_backups config now rmtree_fails
                                      rmtree_keeps w)) !! id
                    = Some row).
    { rewrite cleanup_backups, Hrow, Hold, Hbl. reflexivity. }
    split; [exact Hkept|]. split.
    + rewrite cleanup_store, (dir_removed_selected _ _ _ id row Hrow Hts),
        (dir_emptied_selected _ _ _ id row Hrow Hts), Hfail, Hdir.
      reflexivity.
    + intros later Hlater. apply select_old_In. exists row.
      split; [exact Hkept|]. split; [|reflexivity].
      unfold cutoff_date in *. lia.
  - rewrite cleanup_backups, Hrow, Hold, <- Hfree.
    destruct (blocked rmtree_fails (store w) (backup_path row)); simpl;
      split; congruence.
  - rewrite cleanup_backups, Hrow, Hold.
    destruct (blocked rmtree_fails (store w) (backup_path row)) eqn:Hbl; simpl;
      [discriminate|].
    intros _. rewrite cleanup_store, (dir_removed_selected _ _ _ id row Hrow Hts),
      (dir_emptied_selected _ _ _ id row Hrow Hts).
    apply Hfree in Hbl as [Hn|Hf]; [|rewrite Hf; reflexivity].
    rewrite Hn. destruct (rmtree_fails (backup_path row)); reflexivity.
  - intros id' row' Hrow' Hts' Hok. apply Hfree in Hok.
    rewrite cleanup_backups, Hrow', Hok.
    apply Z.ltb_lt in Hts'. rewrite Hts'. reflexivity.
Qed.

(** C7, as the code has it.  A cleanup pass deletes exactly the records
    whose timestamp is strictly older than now minus [retention_days] and
    whose directory is absent or removed without error.  Such a record one
    second older than the cutoff is deleted; a record one second younger
    than the cutoff, or at the cutoff, is retained. *)
Theorem cleanup_retention_boundary (config : Config) (rmtree_fails : string → bool)
    (rmtree_keeps : string → Path → bool) (now : Z) (w : World) (id : Z) (row : BackupRow) :
  backups (index w) !! id = Some row →
  (backups (index (cleanup_old_backups config now rmtree_fails rmtree_keeps w)) !! id = None
   ↔ timestamp row < now - retention_days config * day_us
     ∧ (store w !! backup_path row = None ∨ rmtree_fails (backup_path row) = false))
  ∧ (backups (index (cleanup_old_backups config now rmtree_fails rmtree_keeps w)) !! id ≠ None →
     backups (index (cleanup_old_backups config now rmtree_fails rmtree_keeps w)) !! id = Some row)
  ∧ (timestamp row = now - retention_days config * day_us - second_us →
     store w !! backup_path row = None ∨ rmtree_fails (backup_path row) = false →
     backups (index (cleanup_old_backups config now rmtree_fails rmtree_keeps w)) !! id = None)
  ∧ (timestamp row = now - retention_days config * day_us + second_us →
     backups (index (cleanup_old_backups config now rmtree_fails rmtree_keeps w)) !! id = Some row)
  ∧ (timestamp row = now - retention_days config * day_us →
     backups (index (cleanup_old_backups config now rmtree_fails rmtree_keeps w)) !! id = Some row).
Proof.
  intros Hrow.
  assert (Hfree : blocked rmtree_fails (store w) (backup_path row) = false
                  ↔ store w !! backup_path row = None
                    ∨ rmtree_fails (backup_path row) = false).
  { unfold blocked. rewrite andb_false_iff, bool_decide_eq_false. split.
    - intros [Hn|Hf]; [left | right; exact Hf].
      destruct (store w !! backup_path row); [destruct Hn; eauto | reflexivity].
    - intros [Hn|Hf]; [left | right; exact Hf].
      rewrite Hn. intros [? ?]; discriminate. }
  rewrite cleanup_backups, Hrow. unfold cutoff_date, second_us.
  rewrite <- Hfree.
  destruct (Z.ltb_spec (timestamp row) (now - retention_days config * day_us)) as [Hlt|Hge];
    destruct (blocked rmtree_fails (store w) (backup_path row)); simpl;
    repeat split; try congruence; try lia; try tauto;
    intros; try congruence; try lia; try tauto.
Qed.

(** ** File names *)

Lemma append_nil (s : string) : EmptyString +:+ s = s.
Proof. reflexivity. Qed.

Lemma append_cons (a : ascii) (n s : string) : String a n +:+ s = String a (n +:+ s).
Proof. reflexivity. Qed.

Lemma rfind_char_app (c : ascii) (n s : string) :
  Str.rfind_char c (n +:+ s)
  = match Str.rfind_char c s with
    | Some i => Some (String.length n + i)%nat
    | None => Str.rfind_char c n
    end.
Proof.
  induction n as [|a n IH].
  - rewrite append_nil. destruct (Str.rfind_char c s); reflexivity.
  - rewrite append_cons. simpl. rewrite IH.
    destruct (Str.rfind_char c s); reflexivity.
Qed.

Lemma drop_length_app (n s : string) : Str.drop (String.length n) (n +:+ s) = s.
Proof.
  induction n as [|a n IH]; [rewrite append_nil; destruct s; reflexivity|].
  rewrite append_cons. exact IH.
Qed.

Lemma take_length_app (n s : string) : Str.take (String.length n) (n +:+ s) = n.
Proof.
  induction n as [|a n IH]; [reflexivity|].
  rewrite append_cons. simpl. rewrite IH. reflexivity.
Qed.

Lemma length_append (n s : string) :
  String.length (n +:+ s) = (String.length n + String.length s)%nat.
Proof.
  induction n as [|a n IH]; [reflexivity|].
  rewrite append_cons. simpl. rewrite IH. reflexivity.
Qed.

(** A name with [.gz] appended has the suffix [.gz], and stripping the
    suffix gives the name back. *)
Lemma name_suffix_gz (n : string) : n ≠ EmptyString → name_suffix (n +:+ ".gz") = ".gz".
Proof.
  intros Hn. unfold name_suffix. rewrite rfind_char_app. simpl Str.rfind_char.
  rewrite length_append, Nat.add_0_r, drop_length_app.
  destruct n as [|a n]; [congruence|]. simpl String.length.
  replace (0 <? S (String.length n))%nat with true by (symmetry; apply Nat.ltb_lt; lia).
  replace (S (String.length n) <? S (String.length n) + 3 - 1)%nat with true
    by (symmetry; apply Nat.ltb_lt; lia).
  reflexivity.
Qed.

Lemma with_name_parts (p : Path) : p ≠ [] → with_name p (name p) = p.
Proof.
  intros Hp. unfold with_name, name. symmetry. apply app_removelast_last, Hp.
Qed.

Lemma name_with_name (p : Path) (n : string) : name (with_name p n) = n.
Proof. unfold name, with_name. apply last_last. Qed.

Lemma with_name_with_name (p : Path) (n m : string) :
  with_name (with_name p n) m = with_name p m.
Proof. unfold with_name, parent. rewrite removelast_last. reflexivity. Qed.

Lemma suffix_add_gz (p : Path) : name p ≠ EmptyString → suffix (add_gz p) = ".gz".
Proof.
  intros Hn. unfold suffix, add_gz. rewrite name_with_name. apply name_suffix_gz, Hn.
Qed.

Lemma with_suffix_empty_add_gz (p : Path) :
  p ≠ [] → name p ≠ EmptyString → with_suffix_empty (add_gz p) = p.
Proof.
  intros Hp Hn. unfold with_suffix_empty, add_gz.
  rewrite name_with_name, with_name_with_name, name_suffix_gz by exact Hn.
  rewrite length_append. simpl String.length.
  replace (String.length (name p) + 3 - 3)%nat with (String.length (name p)) by lia.
  rewrite take_length_app. apply with_name_parts, Hp.
Qed.

(** ** Writing files into a fresh tree *)

Lemma write_file_fresh (t : Tree) (p : Path) (f : File) :
  p ∉ rglob t → write_file t p f = t ++ [(p, Reg f)].
Proof.
  induction t as [|[q n] t IH]; simpl; intros Hp; [reflexivity|].
  destruct (decide (q = p)) as [->|Hne].
  - destruct Hp. apply list_elem_of_here.
  - rewrite IH; [reflexivity|]. intros H. apply Hp. apply list_elem_of_further, H.
Qed.

Lemma write_all_fresh (t : Tree) (l : list (Path * File)) :
  NoDup (rglob t ++ List.map fst l) → write_all t l = t ++ as_entries l.
Proof.
  revert t. induction l as [|[p f] l IH]; intros t Hnd.
  - simpl. symmetry. apply app_nil_r.
  - change (write_all t ((p, f) :: l)) with (write_all (write_file t p f) l).
    cbn [List.map fst] in Hnd.
    assert (Hp : p ∉ rglob t).
    { apply NoDup_app in Hnd as (_ & Hdis & _). intros Hin.
      apply (Hdis p Hin). apply list_elem_of_here. }
    rewrite write_file_fresh by exact Hp. rewrite IH.
    + rewrite <- app_assoc. reflexivity.
    + unfold rglob in *. rewrite map_app, <- app_assoc. exact Hnd.
Qed.

Lemma regular_files_as_entries (l : list (Path * File)) :
  regular_files (as_entries l) = l.
Proof. induction l as [|[p f] l IH]; simpl; [reflexivity | rewrite IH; reflexivity]. Qed.

Lemma NoDup_map_on {A B} (g : A → B) (l : list A) :
  NoDup l → (∀ x y, In x l → In y l → g x = g y → x = y) → NoDup (List.map g l).
Proof.
  induction l as [|x l IH]; simpl; intros Hnd Hinj; [constructor|].
  apply NoDup_cons in Hnd as [Hx Hnd]. apply NoDup_cons. split.
  - intros Hin. apply list_elem_of_In, in_map_iff in Hin as (y & Heq & Hy).
    apply Hx. apply list_elem_of_In.
    rewrite (Hinj x y); auto.
  - apply IH; [exact Hnd|]. intros; apply Hinj; auto.
Qed.

(** ** The copy loop where no stored name is a directory name *)

Section Apart.
Variable sha256 : bytes → string.
Variable gzip_compress : bytes → bytes.
Variable path_match : Path → string → bool.
Variable backup_dir : Z → string.
Variable config : Config.
Variable vault_path : Path.

Local Abbreviation compressible := (compressible config).
Local Abbreviation backup_file := (backup_file gzip_compress config).
Local Abbreviation copy_one := (copy_one sha256 gzip_compress config).
Local Abbreviation files_to_backup := (files_to_backup sha256 path_match config vault_path).
Local Abbreviation run_copy :=
  (run_copy sha256 gzip_compress path_match backup_dir config vault_path).
Local Abbreviation run_copied :=
  (run_copied sha256 gzip_compress path_match backup_dir config vault_path).
Local Abbreviation commits :=
  (commits sha256 gzip_compress path_match backup_dir config vault_path).
Local Abbreviation stored_name := (stored_name config).
Local Abbreviation stored_entry := (stored_entry gzip_compress config).
Local Abbreviation copied_from := (copied_from gzip_compress config).
Local Abbreviation names_apart := (names_apart config).
Local Abbreviation regs_from := (regs_from config).

Lemma stored_entry_name (now : Z) (e : Path * File) :
  stored_entry now e = (stored_name (fst e), snd (stored_entry now e)).
Proof. unfold stored_entry, stored_name. destruct (compressible (fst e)); reflexivity. Qed.

Lemma stored_entry_fst (now : Z) (e : Path * File) :
  fst (stored_entry now e) = stored_name (fst e).
Proof. rewrite stored_entry_name. reflexivity. Qed.

Lemma names_apart_In (files : list (Path * File)) (e1 e2 : Path * File) :
  names_apart files → In e1 files → In e2 files →
  stored_name (fst e1) ∉ ancestors (parent (fst e2)).
Proof.
  unfold names_apart. rewrite List.Forall_forall. intros H H1 H2.
  specialize (H e1 H1). rewrite List.Forall_forall in H. apply (H e2 H2).
Qed.

Lemma copyable_snoc (done : list (Path * File)) (e : Path * File) :
  copyable (done ++ [e])
  = copyable done ++ (if readable (snd e) then [e] else []).
Proof. unfold copyable. rewrite List.filter_app. simpl. destruct (readable (snd e)); reflexivity. Qed.

Lemma mkdir_apart (all done : list (Path * File)) (e : Path * File) (t : Tree) :
  names_apart all → incl done all → In e all → regs_from t done →
  mkdir t (parent (fst e))
  = Returned (List.fold_left make_dir (ancestors (parent (fst e))) t).
Proof.
  intros Hap Hdone He Hregs. apply mkdir_returned. intros p Hp. unfold is_reg.
  destruct (tree_get t p) as [[|g]|] eqn:E; try reflexivity.
  destruct (Hregs p g E) as (e0 & He0 & ->).
  apply filter_In in He0 as [He0 _].
  destruct (names_apart_In all e0 e Hap (Hdone _ He0) He Hp).
Qed.

Lemma regs_from_make_dirs (ps : list Path) (t : Tree) (done : list (Path * File)) :
  regs_from t done → regs_from (List.fold_left make_dir ps t) done.
Proof.
  intros Hregs q g. rewrite tree_get_make_dirs.
  destruct (tree_get t q) as [n|] eqn:E.
  - intros H. injection H as ->. apply (Hregs q g E).
  - destruct (decide (q ∈ ps)); discriminate.
Qed.

Lemma regs_from_more (t : Tree) (done more : list (Path * File)) :
  regs_from t done → regs_from t (done ++ more).
Proof.
  intros Hregs q g E. destruct (Hregs q g E) as (e & He & ->).
  exists e. split; [|reflexivity].
  unfold copyable in *. rewrite List.filter_app. apply in_or_app. auto.
Qed.

Lemma dirs_from_make_dirs (t : Tree) (done : list (Path * File)) (e : Path * File) :
  dirs_from t done →
  dirs_from (List.fold_left make_dir (ancestors (parent (fst e))) t) (done ++ [e]).
Proof.
  intros Hdirs q. rewrite tree_get_make_dirs.
  destruct (tree_get t q) as [n|] eqn:E.
  - intros H. injection H as ->. destruct (Hdirs q E) as (e0 & He0 & Hq).
    exists e0. split; [apply in_or_app; auto | exact Hq].
  - destruct (decide (q ∈ ancestors (parent (fst e)))) as [Hin|]; [|discriminate].
    intros _. exists e. split; [apply in_or_app; simpl; auto | exact Hin].
Qed.

Lemma dirs_from_write (t : Tree) (done : list (Path * File)) (p : Path) (g : File) :
  dirs_from t done → dirs_from (write_file t p g) done.
Proof.
  intros Hdirs q. destruct (decide (p = q)) as [->|Hne].
  - rewrite tree_get_write_same. discriminate.
  - rewrite tree_get_write_other by exact Hne. apply Hdirs.
Qed.

Lemma regs_from_write (t : Tree) (done : list (Path * File)) (e : Path * File) (g : File) :
  readable (snd e) = true →
  regs_from t done → regs_from (write_file t (stored_name (fst e)) g) (done ++ [e]).
Proof.
  intros Hr Hregs q h. destruct (decide (stored_name (fst e) = q)) as [<-|Hne].
  - intros _. exists e. split; [|reflexivity].
    rewrite copyable_snoc, Hr. apply in_or_app. simpl. auto.
  - rewrite tree_get_write_other by exact Hne. apply regs_from_more, Hregs.
Qed.

Lemma stored_name_no_dir (all done : list (Path * File)) (e : Path * File) (t : Tree) :
  names_apart all → incl done all → In e all → dirs_from t done →
  tree_get t (stored_name (fst e)) ≠ Some Dir.
Proof.
  intros Hap Hdone He Hdirs E. destruct (Hdirs _ E) as (e0 & He0 & Hq).
  apply (names_apart_In all e e0 Hap He (Hdone _ He0) Hq).
Qed.

(** Where no stored name is a directory name, the loop does not raise, it
    copies every file that can be read, and it keeps the run directory in
    that form; where the stored names differ from each other, it appends the
    stored forms to the files of the run directory, in order. *)
Lemma copy_loop_apart (now : Z) (all files done : list (Path * File)) (s : CopyState) :
  names_apart all → incl done all → incl files all →
  raised s = None → regs_from (dest s) done → dirs_from (dest s) done →
  raised (List.fold_left (copy_one now) files s) = None
  ∧ copied_from now (dest s) files = copyable files
  ∧ regs_from (dest (List.fold_left (copy_one now) files s)) (done ++ files)
  ∧ dirs_from (dest (List.fold_left (copy_one now) files s)) (done ++ files)
  ∧ (NoDup (List.map (λ e, stored_name (fst e)) (copyable (done ++ files))) →
     regular_files (dest (List.fold_left (copy_one now) files s))
     = regular_files (dest s) ++ List.map (stored_entry now) (copyable files))
  ∧ (∀ e, In e files → readable (snd e) = true →
       is_reg (dest (List.fold_left (copy_one now) files s)) (stored_name (fst e)) = true).
Proof.
  intros Hap. revert done s.
  induction files as [|e files IH]; intros done s Hdone Hfiles Hs Hregs Hdirs.
  - cbn [List.fold_left copied_from]. rewrite !app_nil_r.
    refine (conj Hs (conj eq_refl (conj Hregs (conj Hdirs (conj (λ _, eq_refl) _))))).
    intros e [].
  - assert (He : In e all) by (apply Hfiles; simpl; auto).
    assert (Hrest : incl files all) by (intros x Hx; apply Hfiles; simpl; auto).
    assert (Hdone' : incl (done ++ [e]) all).
    { intros x Hx. apply in_app_or in Hx as [Hx|[<-|[]]]; auto. }
    pose proof (mkdir_apart all done e (dest s) Hap Hdone He Hregs) as Hm.
    pose proof (regs_from_make_dirs (ancestors (parent (fst e))) _ _ Hregs) as Hregs1.
    pose proof (dirs_from_make_dirs _ _ e Hdirs) as Hdirs1.
    pose proof (stored_name_no_dir all _ e _ Hap Hdone' He Hdirs1) as Hfree.
    cbn [List.fold_left copied_from]. rewrite copy_one_step by exact Hs. rewrite Hm.
    replace (done ++ e :: files) with ((done ++ [e]) ++ files)
      by (rewrite <- app_assoc; reflexivity).
    unfold copyable at 1. cbn [List.filter]. fold (copyable files).
    destruct (readable (snd e)) eqn:Hr.
    + rewrite (backup_file_stored gzip_compress config now _ e Hr Hfree).
      destruct (IH (done ++ [e])
                  (mkCopyState
                     (write_file (List.fold_left make_dir (ancestors (parent (fst e))) (dest s))
                        (stored_name (fst e)) (snd (stored_entry now e)))
                     (issued s ++ [upsert_of sha256 e]) (total s + st_size (snd e))
                     (copied s + 1) None)
                  Hdone' Hrest eq_refl)
        as (H1 & H2 & H3 & H4 & H5 & H6).
      * cbn [dest]. apply regs_from_write; assumption.
      * cbn [dest]. apply dirs_from_write, Hdirs1.
      * cbn [dest] in H2, H5. rewrite H2.
        refine (conj H1 (conj eq_refl (conj H3 (conj H4 (conj _ _))))).
        2:{ intros e' [<-|He'] Hr'; [|apply (H6 e' He' Hr')].
            apply copy_loop_keeps_files. cbn [dest]. unfold is_reg.
            rewrite tree_get_write_same. reflexivity. }
        intros Hnd. rewrite (H5 Hnd). cbn [List.map].
        assert (Hnew : stored_name (fst e)
                       ∉ rglob (List.fold_left make_dir (ancestors (parent (fst e))) (dest s))).
        { intros Hin. apply rglob_tree_get in Hin as [n Hn].
          destruct n as [|g]; [exact (Hfree Hn)|].
          destruct (Hregs1 _ _ Hn) as (e0 & He0 & Heq).
          unfold copyable in Hnd. rewrite !List.filter_app, !map_app in Hnd.
          cbn [List.filter] in Hnd. rewrite Hr in Hnd. cbn [List.map] in Hnd.
          apply NoDup_app in Hnd as (Hnd & _ & _).
          apply NoDup_app in Hnd as (_ & Hnd & _).
          apply (Hnd (stored_name (fst e))).
          - rewrite Heq. apply list_elem_of_In.
            apply (in_map (λ e, stored_name (fst e))). exact He0.
          - apply list_elem_of_here. }
        rewrite (write_file_fresh _ _ _ Hnew), regular_files_app, regular_files_make_dirs.
        cbn [regular_files]. rewrite <- stored_entry_name, <- app_assoc.
        unfold copyable. cbn [List.filter]. rewrite Hr. reflexivity.
    + rewrite (backup_file_unreadable gzip_compress config now _ e Hr).
      destruct (IH (done ++ [e])
                  (mkCopyState (List.fold_left make_dir (ancestors (parent (fst e))) (dest s))
                     (issued s) (total s) (copied s) None)
                  Hdone' Hrest eq_refl)
        as (H1 & H2 & H3 & H4 & H5 & H6).
      * cbn [dest]. apply regs_from_more, Hregs1.
      * cbn [dest]. exact Hdirs1.
      * cbn [dest] in H2, H5.
        refine (conj H1 (conj H2 (conj H3 (conj H4 (conj _ _))))).
        2:{ intros e' [<-|He'] Hr'; [congruence | apply (H6 e' He' Hr')]. }
        intros Hnd. rewrite (H5 Hnd), regular_files_make_dirs.
        unfold copyable. cbn [List.filter]. rewrite Hr. reflexivity.
Qed.

(** A run into a fresh directory, where no stored name is a directory
    name. *)
Lemma run_apart (btype : string) (now : Z) (vault : Tree) (w : World) :
  store w !! backup_dir now = None →
  names_apart (files_to_backup btype vault (index w)) →
  raised (run_copy btype now vault w) = None
  ∧ run_copied btype now vault w = copyable (files_to_backup btype vault (index w))
  ∧ (NoDup (List.map (λ e, stored_name (fst e))
              (copyable (files_to_backup btype vault (index w)))) →
     regular_files (dest (run_copy btype now vault w))
     = List.map (stored_entry now) (copyable (files_to_backup btype vault (index w))))
  ∧ (∀ e, In e (files_to_backup btype vault (index w)) → readable (snd e) = true →
       is_reg (dest (run_copy btype now vault w)) (stored_name (fst e)) = true).
Proof.
  intros Hfresh Hap. unfold run_copy, run_copied, copy_files. rewrite Hfresh. cbn [default].
  destruct (copy_loop_apart now (files_to_backup btype vault (index w))
              (files_to_backup btype vault (index w)) [] (mkCopyState [] [] 0 0 None) Hap)
    as (H1 & H2 & _ & _ & H5 & H6).
  - intros x [].
  - intros x Hx. exact Hx.
  - reflexivity.
  - intros q g E. discriminate.
  - intros q E. discriminate.
  - auto.
Qed.

Lemma run_apart_commits (btype : string) (now : Z) (vault : Tree) (w : World)
    (e : Path * File) :
  store w !! backup_dir now = None →
  names_apart (files_to_backup btype vault (index w)) →
  In e (files_to_backup btype vault (index w)) → readable (snd e) = true →
  commits btype now vault w e.
Proof.
  intros Hfresh Hap Hin Hr.
  destruct (run_apart btype now vault w Hfresh Hap) as (H1 & H2 & _ & _).
  split; [exact H1|]. rewrite H2. apply filter_In. auto.
Qed.

(** The files of a fresh run directory can all be read, so its checksum
    can be computed. *)
Lemma fresh_run_checksum (btype : string) (now : Z) (vault : Tree) (w : World) :
  store w !! backup_dir now = None →
  calculate_backup_checksum sha256 (dest (run_copy btype now vault w))
  = Returned (sha256 (sorted_payload (dest (run_copy btype now vault w)))).
Proof.
  intros Hfresh. apply checksum_digest_sorted.
  unfold run_copy, copy_files. rewrite Hfresh. cbn [default].
  apply copy_loop_readable. intros p b d H. discriminate.
Qed.

(** What the loop leaves in the run directory: what was there, the stored
    forms of files it could read, and the directories above the files it
    went through. *)
Lemma copy_loop_entries (now : Z) (files : list (Path * File)) (s : CopyState)
    (q : Path) (n : Node) :
  In (q, n) (dest (List.fold_left (copy_one now) files s)) →
  In (q, n) (dest s)
  ∨ ∃ e, In e files
         ∧ ((readable (snd e) = true
             ∧ (q = stored_name (fst e) ∨ q = fst e ++ [name (fst e)])
             ∧ n = Reg (snd (stored_entry now e)))
            ∨ (n = Dir ∧ q ∈ ancestors (parent (fst e)))).
Proof.
  revert s. induction files as [|e files IH]; intros s; [auto|].
  cbn [List.fold_left]. intros H. apply IH in H as [H|(e' & He' & H)];
    [|right; exists e'; split; [right; exact He' | exact H]].
  destruct (raised s) as [x|] eqn:Hs.
  { destruct e as [rel f]. unfold copy_one in H. rewrite Hs in H. auto. }
  rewrite copy_one_step in H by exact Hs.
  destruct (mkdir (dest s) (parent (fst e))) as [t|x] eqn:Hm; [|auto].
  apply mkdir_inv in Hm as [-> _].
  assert (Hmk : ∀ q n, In (q, n) (List.fold_left make_dir (ancestors (parent (fst e))) (dest s)) →
                  In (q, n) (dest s)
                  ∨ ∃ e0, In e0 (e :: files)
                          ∧ ((readable (snd e0) = true
                              ∧ (q = stored_name (fst e0) ∨ q = fst e0 ++ [name (fst e0)])
                              ∧ n = Reg (snd (stored_entry now e0)))
                             ∨ (n = Dir ∧ q ∈ ancestors (parent (fst e0))))).
  { intros q0 n0 H0. apply make_dirs_In in H0 as [H0|[-> H0]]; [auto|].
    right. exists e. split; [left; reflexivity | auto]. }
  destruct (backup_file now _ e) as [t'|y] eqn:Hb; cbn [dest] in H; [|apply Hmk, H].
  pose proof (backup_file_readable _ _ _ _ _ _ Hb) as Hr.
  apply backup_file_returned in Hb as (dst & -> & _ & Hdst).
  apply write_file_In in H as [H|[-> ->]]; [apply Hmk, H|].
  right. exists e. split; [left; reflexivity|]. left.
  split; [exact Hr|]. split; [tauto | reflexivity].
Qed.

End Apart.

(** ** Backup, then restore *)

Section RoundTrip.
Variable sha256 : bytes → string.
Variable gzip_compress : bytes → bytes.
Variable gzip_decompress : bytes → option bytes.
Variable path_match : Path → string → bool.
Variable backup_dir : Z → string.
Variable config : Config.
Variable vault_path : Path.

Hypothesis gzip_round_trip : ∀ b, gzip_decompress (gzip_compress b) = Some b.

Local Abbreviation compressible := (compressible config).
Local Abbreviation restore_one := (restore_one gzip_decompress).
Local Abbreviation restore_loop := (restore_loop gzip_decompress).
Local Abbreviation all_files := (all_files path_match config vault_path).
Local Abbreviation run_copy :=
  (run_copy sha256 gzip_compress path_match backup_dir config vault_path).
Local Abbreviation create_backup :=
  (create_backup sha256 gzip_compress path_match backup_dir config vault_path).
Local Abbreviation stored_entry := (stored_entry gzip_compress config).
Local Abbreviation restored_entry := (restored_entry config).

Lemma restored_entry_data (later : Z) (e : Path * File) :
  fst (restored_entry later e) = fst e
  ∧ data (snd (restored_entry later e)) = data (snd e).
Proof. unfold restored_entry. simpl. destruct (compressible (fst e)); auto. Qed.

Lemma restore_one_stored (now later : Z) (t : Tree) (e : Path * File) :
  plain_name e →
  restore_one later t (stored_entry now e)
  = (write_file t (fst e) (snd (restored_entry later e)), None).
Proof.
  intros (Hp & Hn & Hs). destruct e as [rel f]. simpl in *.
  unfold stored_entry, restored_entry, restore_one. cbn [fst snd].
  destruct (compressible rel).
  - rewrite suffix_add_gz by exact Hn. rewrite String.eqb_refl. cbn [readable data].
    rewrite gzip_round_trip, with_suffix_empty_add_gz by assumption. reflexivity.
  - apply String.eqb_neq in Hs. rewrite Hs. reflexivity.
Qed.

Lemma restore_loop_stored (now later : Z) (l : list (Path * File)) (t : Tree) :
  Forall plain_name l →
  restore_loop later t (List.map (stored_entry now) l)
  = (write_all t (List.map (restored_entry later) l), Returned true).
Proof.
  intros Hall. revert t. induction Hall as [|e l He _ IH]; intros t; [reflexivity|].
  cbn [List.map restore_loop]. rewrite restore_one_stored by exact He.
  rewrite IH. reflexivity.
Qed.

(** The stored name determines the file it was stored for. *)
Lemma stored_entry_name_inj (now : Z) (e1 e2 : Path * File) :
  plain_name e1 → plain_name e2 →
  fst (stored_entry now e1) = fst (stored_entry now e2) → fst e1 = fst e2.
Proof.
  intros (Hp1 & Hn1 & Hs1) (Hp2 & Hn2 & Hs2). unfold stored_entry.
  destruct (compressible (fst e1)), (compressible (fst e2)); cbn [fst]; intros Heq.
  - rewrite <- (with_suffix_empty_add_gz (fst e1)), <- (with_suffix_empty_add_gz (fst e2))
      by assumption.
    rewrite Heq. reflexivity.
  - destruct Hs2. rewrite <- Heq. apply suffix_add_gz, Hn1.
  - destruct Hs1. rewrite Heq. apply suffix_add_gz, Hn2.
  - exact Heq.
Qed.

Lemma copyable_all_files_names (vault : Tree) :
  NoDup (rglob vault) → NoDup (List.map fst (copyable (all_files vault))).
Proof.
  intros Hnd. unfold copyable, all_files.
  apply NoDup_map_filter, NoDup_map_filter.
  apply (NoDup_regular_files (λ p, p)). rewrite map_id. exact Hnd.
Qed.

(** Away from names that end in [.gz] and from stored names that are
    directory names, a full backup into a fresh run directory restores, into
    an empty destination, every file of the vault that is not excluded and
    can be read: at its relative path, with its bytes. *)
Lemma restore_round_trip (now later : Z) (health : string) (git : option string)
    (vault : Tree) (w : World) :
  store w !! backup_dir now = None →
  NoDup (rglob vault) →
  Forall plain_name (copyable (all_files vault)) →
  names_apart config (all_files vault) →
  ∃ info,
    snd (create_backup "full" now health git vault w) = Returned info
    ∧ restore_backup gzip_decompress later
        (fst (create_backup "full" now health git vault w)) (info_id info) []
      = (as_entries (List.map (restored_entry later) (copyable (all_files vault))),
         Returned true).
Proof.
  intros Hfresh Hnd Hplain Hap.
  pose proof (copyable_all_files_names vault Hnd) as Hnames.
  destruct (run_apart sha256 gzip_compress path_match backup_dir config vault_path
              "full" now vault w Hfresh Hap) as (Hr & _ & Hfiles & _).
  change (files_to_backup sha256 path_match config vault_path "full" vault (index w))
    with (all_files vault) in Hfiles.
  assert (Hdest : regular_files (dest (run_copy "full" now vault w))
                  = List.map (stored_entry now) (copyable (all_files vault))).
  { apply Hfiles. apply NoDup_map_on.
    - apply (NoDup_fmap_1 fst). exact Hnames.
    - rewrite List.Forall_forall in Hplain. intros x y Hx Hy Heq.
      apply (NoDup_map_inj_on fst (copyable (all_files vault))); auto.
      apply (stored_entry_name_inj now); auto.
      rewrite !(stored_entry_fst gzip_compress config). exact Heq. }
  pose proof (fresh_run_checksum sha256 gzip_compress path_match backup_dir config
                vault_path "full" now vault w Hfresh) as Hsum.
  rewrite (create_backup_returned _ _ _ _ _ _ _ _ _ _ _ _ _ Hr Hsum).
  eexists. split; [reflexivity|].
  cbn [fst snd info_id]. unfold restore_backup. cbn [index store].
  unfold insert_backup at 1. cbn [backups backups_seq].
  unfold upserts_committed at 1. cbn [backups_seq].
  rewrite lookup_insert_eq. cbn [backup_path backup_row].
  rewrite lookup_insert_eq, Hdest.
  rewrite restore_loop_stored by exact Hplain.
  rewrite write_all_fresh; [reflexivity|].
  cbn [rglob List.map app]. rewrite map_map.
  erewrite map_ext; [exact Hnames|]. intros e. reflexivity.
Qed.

End RoundTrip.

(** ** The statements on concrete runs *)

(** A full run over a vault with one note issues four statements; killed
    after the second, the index is the one with the note's upsert. *)
Lemma backup_run_two_transactions_witness :
  Sample.killed 2 "full" 1000 "{}" None Sample.vault_note Sample.world0
  = upserts_committed Sample.digest Sample.deflate pure_path_match Sample.run_dir
      default_config Sample.vault_root "full" 1000 Sample.vault_note Sample.world0.
Proof.
  apply (proj1 (proj2 (backup_run_two_transactions Sample.digest Sample.deflate
                         pure_path_match Sample.run_dir default_config Sample.vault_root
                         2 "full" 1000 "{}" None Sample.vault_note Sample.world0))).
  vm_compute. lia.
Defined.

(** C1 fails on the code: the process killed between the two [with] blocks
    of a run leaves the upsert of the run in the index, and no record of the
    run, which is neither the prior index nor the one of the complete run. *)
Lemma backup_run_not_atomic :
  file_hashes (Sample.killed 2 "full" 1000 "{}" None Sample.vault_note Sample.world0)
    !! "a.md"
  = Some (mkFileHashRow (Sample.digest (Sample.text "hello")) 5 None)
  ∧ backups (Sample.killed 2 "full" 1000 "{}" None Sample.vault_note Sample.world0) = ∅
  ∧ file_hashes (index Sample.world0) !! "a.md" = None
  ∧ is_Some (backups (index (fst (Sample.backup "full" 1000 "{}" None
                                    Sample.vault_note Sample.world0))) !! 1).
Proof.
  repeat split; try (vm_compute; reflexivity).
  vm_compute. eauto.
Qed.

(** C2 at a full run over a vault with one note: the run gets id 1 and its
    record is in the index, and the row it wrote for the note refers to no
    backup. *)
Theorem file_hash_row_has_no_backup_id :
  (∃ info, snd (Sample.backup "full" 1000 "{}" None Sample.vault_note Sample.world0)
           = Returned info ∧ info_id info = 1)
  ∧ is_Some (backups (index (fst (Sample.backup "full" 1000 "{}" None
                                    Sample.vault_note Sample.world0))) !! 1)
  ∧ (file_hashes (index (fst (Sample.backup "full" 1000 "{}" None
                                Sample.vault_note Sample.world0))) !! "a.md")
    = Some (mkFileHashRow (Sample.digest (Sample.text "hello")) 5 None).
Proof.
  split; [|split].
  - vm_compute. eexists. split; reflexivity.
  - vm_compute. eauto.
  - vm_compute. reflexivity.
Qed.

(** C3 at a vault that holds [archive.gz]: the file is part of the full
    backup, stored as it is; the restore takes it for a compressed copy, so
    the destination gets no [archive.gz].  Bytes that are no gzip stream make
    the restore raise and leave an empty [archive]; a genuine stream is
    unpacked into [archive]. *)
Theorem restore_mistakes_gz_source :
  In (["archive.gz"], mkFile 5 true (Sample.text "not gzip"))
     (files_to_backup Sample.digest pure_path_match default_config Sample.vault_root
        "full" Sample.vault_gz (index Sample.world0))
  ∧ restore_backup Sample.inflate 2000
      (fst (Sample.backup "full" 1000 "{}" None Sample.vault_gz Sample.world0)) 1 []
    = ([(["archive"], Reg (mkFile 2000 true []))], Raised BadGzipFile)
  ∧ restore_backup Sample.inflate 2000
      (fst (Sample.backup "full" 1000 "{}" None Sample.vault_gz_stream Sample.world0)) 1 []
    = ([(["archive"], Reg (mkFile 2000 true (Sample.text "inner")))], Returned true).
Proof.
  split; [|split].
  - vm_compute. auto.
  - vm_compute. reflexivity.
  - vm_compute. reflexivity.
Qed.

(** C4 at a record whose directory holds a file that cannot be read: the
    record is there, the directory is there, and the call raises. *)
Theorem verify_backup_raises_on_unreadable :
  backups (index Sample.world_unreadable) !! 1 = Some Sample.row_unreadable
  ∧ is_Some (store Sample.world_unreadable !! backup_path Sample.row_unreadable)
  ∧ verify_backup Sample.digest Sample.world_unreadable 1 = Raised PermissionError.
Proof.
  split; [|split].
  - vm_compute. reflexivity.
  - vm_compute. eauto.
  - apply (verify_backup_unreadable Sample.digest Sample.world_unreadable 1
             Sample.row_unreadable
             [(["a.md.gz"], Reg (mkFile 1000 false (Sample.deflate (Sample.text "hello"))))]
             ["a.md.gz"] (Sample.deflate (Sample.text "hello")));
      vm_compute; reflexivity.
Qed.

(** A note edited since the index saw it is selected; after the incremental
    run it is not. *)
Lemma changed_files_decision_witness :
  In (["a.md"], Sample.note) (Sample.changed Sample.vault_note Sample.index_seen)
  ∧ ¬ In (["a.md"], Sample.note)
        (Sample.changed Sample.vault_note
           (index (fst (Sample.backup "incremental" 1000 "{}" None Sample.vault_note
                          (mkWorld Sample.index_seen ∅))))).
Proof.
  assert (Hin : In (["a.md"], Reg Sample.note) Sample.vault_note) by (simpl; auto).
  assert (Hex : should_exclude pure_path_match default_config Sample.vault_root ["a.md"]
                = false) by reflexivity.
  destruct (changed_files_decision Sample.digest Sample.deflate pure_path_match
              Sample.run_dir default_config Sample.vault_root
              Sample.vault_note Sample.index_seen ["a.md"] Sample.note Hin Hex)
    as (_ & Hadv & _ & Hnext).
  split.
  - apply (Hadv (mkFileHashRow (Sample.digest (Sample.text "hullo")) 3 None)).
    + vm_compute. reflexivity.
    + vm_compute. reflexivity.
    + vm_compute. discriminate.
  - assert (Hnd : NoDup (List.map str (rglob Sample.vault_note)))
      by (apply (bool_decide_unpack _); vm_compute; exact I).
    destruct (Hnext 1000 "{}" None (mkWorld Sample.index_seen ∅) eq_refl Hnd) as [Hfwd _].
    intros Hsel. destruct (Hfwd Hsel) as [_ Hno]. apply Hno.
    split; [vm_compute; reflexivity | vm_compute; auto].
Defined.

(** C5 fails on the code as it is stated: a file that cannot be read is
    selected by an incremental run, the run completes and writes no entry
    for it, and the next incremental run over the same vault selects the file
    again, although nothing has modified it in between.  So it is for a new
    file and for a file the index knows. *)
Lemma unread_file_selected_again :
  In (["locked.md"], mkFile 3 false (Sample.text "secret"))
     (Sample.changed Sample.vault_locked (index Sample.world0))
  ∧ snd (Sample.backup "incremental" 1000 "{}" None Sample.vault_locked Sample.world0)
    = Returned (mkBackupInfo 1 1000 "incremental" 0 0 0 RatioZero (Sample.digest [])
                  (Sample.run_dir 1000))
  ∧ In (["locked.md"], mkFile 3 false (Sample.text "secret"))
       (Sample.changed Sample.vault_locked
          (index (fst (Sample.backup "incremental" 1000 "{}" None Sample.vault_locked
                         Sample.world0))))
  ∧ In (["a.md"], Sample.note_locked)
       (Sample.changed Sample.vault_note_locked Sample.index_seen)
  ∧ In (["a.md"], Sample.note_locked)
       (Sample.changed Sample.vault_note_locked
          (index (fst (Sample.backup "incremental" 1000 "{}" None Sample.vault_note_locked
                         (mkWorld Sample.index_seen ∅))))).
Proof.
  refine (conj _ (conj _ (conj _ (conj _ _)))); vm_compute; auto.
Qed.

(** A record one second older than the cutoff whose directory is removed is
    deleted; the record one second younger stays. *)
Lemma cleanup_retention_boundary_witness :
  backups (index (cleanup_old_backups default_config Sample.clock Sample.rmtree_ok
                    Sample.rmtree_keeps_picture Sample.world_old)) !! 1 = None
  ∧ backups (index (cleanup_old_backups default_config Sample.clock Sample.rmtree_ok
                      Sample.rmtree_keeps_picture Sample.world_old)) !! 2
    = Some Sample.row_young.
Proof.
  assert (Hold : backups (index Sample.world_old) !! 1 = Some Sample.row_old)
    by (vm_compute; reflexivity).
  assert (Hyoung : backups (index Sample.world_old) !! 2 = Some Sample.row_young)
    by (vm_compute; reflexivity).
  destruct (cleanup_retention_boundary default_config Sample.rmtree_ok
              Sample.rmtree_keeps_picture Sample.clock
              Sample.world_old 1 Sample.row_old Hold) as (_ & _ & Hbefore & _).
  destruct (cleanup_retention_boundary default_config Sample.rmtree_ok
              Sample.rmtree_keeps_picture Sample.clock
              Sample.world_old 2 Sample.row_young Hyoung) as (_ & _ & _ & Hafter & _).
  split.
  - apply Hbefore; [vm_compute; reflexivity | right; reflexivity].
  - apply Hafter. vm_compute. reflexivity.
Defined.

(** C7 fails on the code as it is stated: a record one second older than the
    cutoff stays in the index when the removal of its directory raises. *)
Lemma cleanup_keeps_old_record_on_failure :
  timestamp Sample.row_old
  = Sample.clock - retention_days default_config * day_us - second_us
  ∧ backups (index Sample.world_old) !! 1 = Some Sample.row_old
  ∧ backups (index (cleanup_old_backups default_config Sample.clock Sample.rmtree_denied
                      Sample.rmtree_keeps_picture Sample.world_old)) !! 1
    = Some Sample.row_old.
Proof. repeat split; vm_compute; reflexivity. Qed.

(** The removal of [backups/old] deletes the note and raises on the
    picture: the row stays, and the directory stays with the picture. *)
Lemma cleanup_removal_failure_keeps_row_witness :
  backups (index (cleanup_old_backups default_config Sample.clock Sample.rmtree_denied
                    Sample.rmtree_keeps_picture Sample.world_stuck)) !! 1
  = Some Sample.row_old
  ∧ store (cleanup_old_backups default_config Sample.clock Sample.rmtree_denied
             Sample.rmtree_keeps_picture Sample.world_stuck) !! "backups/old"
    = Some [(["img.png"], Reg (mkFile 20 true (Sample.text "beta")))].
Proof.
  assert (Hrow : backups (index Sample.world_stuck) !! 1 = Some Sample.row_old)
    by (vm_compute; reflexivity).
  assert (Hts : timestamp Sample.row_old < cutoff_date default_config Sample.clock)
    by (vm_compute; reflexivity).
  destruct (cleanup_removal_failure_keeps_row default_config Sample.rmtree_denied
              Sample.rmtree_keeps_picture Sample.clock Sample.world_stuck 1
              Sample.row_old Hrow Hts)
    as (Hfail & _).
  destruct (Hfail Sample.dir_old) as (Hkept & Hdir & _).
  - vm_compute. reflexivity.
  - reflexivity.
  - split; [exact Hkept | exact Hdir].
Defined.

(** A manual run over a vault whose only file cannot be read: it returns,
    and its record is in the index under id 1. *)
Lemma create_backup_nothing_copied_witness :
  snd (Sample.backup "manual" 1000 "{}" None Sample.vault_locked Sample.world0)
  = Returned (mkBackupInfo 1 1000 "manual" 0 0 0 RatioZero (Sample.digest [])
                (Sample.run_dir 1000))
  ∧ backups (index (fst (Sample.backup "manual" 1000 "{}" None Sample.vault_locked
                           Sample.world0))) !! 1
    = Some (mkBackupRow 1000 "manual" 0 0 0 (Sample.digest []) (Sample.run_dir 1000)
              (mkMetadata "{}" None 0 RatioZero)).
Proof.
  destruct (create_backup_nothing_copied Sample.digest Sample.deflate pure_path_match
              Sample.run_dir default_config Sample.vault_root
              "manual" 1000 "{}" None Sample.vault_locked Sample.world0)
    as (Hret & Hrow & _).
  - vm_compute. reflexivity.
  - vm_compute. repeat constructor.
  - split; [exact Hret | exact Hrow].
Defined.

(** * Further properties of the class *)

(** ** Hashing and selection *)

(** Reading a file in chunks of 4096 bytes digests the whole content; a file
    that cannot be read hashes to the empty string. *)
Theorem calculate_file_hash_whole_content (sha256 : bytes → string) (f : File) :
  calculate_file_hash sha256 f = if readable f then sha256 (data f) else EmptyString.
Proof.
  unfold calculate_file_hash, hexdigest. destruct (readable f); [|reflexivity].
  rewrite feed_file_data. reflexivity.
Qed.

(** A path is excluded exactly when one of the patterns matches it as a
    glob or, with its stars removed, occurs in the relative path. *)
Theorem should_exclude_iff (path_match : Path → string → bool) (config : Config)
    (vault_path rel : Path) :
  should_exclude path_match config vault_path rel = true ↔
  ∃ pattern, In pattern (exclude_patterns config)
    ∧ (path_match (vault_path ++ rel) pattern = true
       ∨ ∃ pre post, str rel = pre +:+ Str.remove_char "*" pattern +:+ post).
Proof.
  unfold should_exclude. rewrite exclude_loop_true. split.
  - intros (pattern & Hin & [Hm|Hf]); exists pattern; (split; [exact Hin|]).
    + left. exact Hm.
    + right. apply find_substring, Hf.
  - intros (pattern & Hin & [Hm|Hf]); exists pattern; (split; [exact Hin|]).
    + left. exact Hm.
    + right. apply find_substring, Hf.
Qed.

Section RunFacts.
Variable sha256 : bytes → string.
Variable gzip_compress : bytes → bytes.
Variable path_match : Path → string → bool.
Variable backup_dir : Z → string.
Variable config : Config.
Variable vault_path : Path.

Local Abbreviation should_exclude := (should_exclude path_match config vault_path).
Local Abbreviation get_changed_files := (get_changed_files sha256 path_match config vault_path).
Local Abbreviation all_files := (all_files path_match config vault_path).
Local Abbreviation files_to_backup := (files_to_backup sha256 path_match config vault_path).
Local Abbreviation selected := (selected sha256 path_match config vault_path).
Local Abbreviation create_backup :=
  (create_backup sha256 gzip_compress path_match backup_dir config vault_path).
Local Abbreviation run_copy :=
  (run_copy sha256 gzip_compress path_match backup_dir config vault_path).
Local Abbreviation run_copied :=
  (run_copied sha256 gzip_compress path_match backup_dir config vault_path).
Local Abbreviation commits :=
  (commits sha256 gzip_compress path_match backup_dir config vault_path).
Local Abbreviation upserts_committed :=
  (upserts_committed sha256 gzip_compress path_match backup_dir config vault_path).

(** Whatever the type of the run, a file it selects is a regular file of
    the vault that the exclusion filter lets through; and what an
    incremental run selects, a full run selects too. *)
Theorem files_to_backup_sound (btype : string) (vault : Tree) (ix : Index)
    (rel : Path) (f : File) :
  In (rel, f) (files_to_backup btype vault ix) →
  In (rel, Reg f) vault ∧ should_exclude rel = false ∧ In (rel, f) (all_files vault).
Proof.
  unfold files_to_backup. destruct (String.eqb btype "incremental").
  - intros H. apply get_changed_files_In in H as [Hin Hsel].
    unfold selected in Hsel. apply andb_prop in Hsel as [Hex _].
    apply negb_true_iff in Hex. simpl in Hex.
    split; [exact Hin|]. split; [exact Hex|]. apply all_files_In. auto.
  - intros H. pose proof H as H'. apply all_files_In in H' as [Hin Hex]. auto.
Qed.

(** After a run over a vault with distinct relative paths, the entry of
    every file whose upsert the run has committed holds the digest of the
    file's content and its modification time.  A run into a fresh directory
    in which no stored name is a directory name commits every selected file
    that can be read.  The entries of the paths of no selected file that can
    be read are as they were. *)
Theorem create_backup_records_hash (btype : string) (now : Z) (health : string)
    (git : option string) (vault : Tree) (w : World) :
  NoDup (List.map str (rglob vault)) →
  (∀ rel f, commits btype now vault w (rel, f) →
     file_hashes (index (fst (create_backup btype now health git vault w))) !! str rel
     = Some (mkFileHashRow (sha256 (data f)) (st_mtime f) None))
  ∧ (store w !! backup_dir now = None →
     names_apart config (files_to_backup btype vault (index w)) →
     ∀ rel f, In (rel, f) (files_to_backup btype vault (index w)) → readable f = true →
       file_hashes (index (fst (create_backup btype now health git vault w))) !! str rel
       = Some (mkFileHashRow (sha256 (data f)) (st_mtime f) None))
  ∧ (∀ key, (∀ rel f, In (rel, f) (files_to_backup btype vault (index w)) →
                      readable f = true → str rel ≠ key) →
       file_hashes (index (fst (create_backup btype now health git vault w))) !! key
       = file_hashes (index w) !! key).
Proof.
  intros Hnd.
  assert (Hrow : ∀ rel f, commits btype now vault w (rel, f) →
            file_hashes (index (fst (create_backup btype now health git vault w))) !! str rel
            = Some (mkFileHashRow (sha256 (data f)) (st_mtime f) None)).
  { intros rel f Hc.
    pose proof (committed_entry sha256 gzip_compress path_match backup_dir config
                  vault_path btype now health git vault w (rel, f) Hnd Hc) as Hrow.
    cbn [fst] in Hrow. rewrite Hrow.
    destruct Hc as [_ Hin]. apply copied_from_In in Hin as [_ Hr]. simpl in Hr.
    unfold row_of. simpl. rewrite calculate_file_hash_readable by exact Hr. reflexivity. }
  split; [exact Hrow|]. split.
  - intros Hfresh Hap rel f Hin Hr. apply Hrow.
    apply (run_apart_commits sha256 gzip_compress path_match backup_dir config vault_path
             btype now vault w (rel, f) Hfresh Hap Hin Hr).
  - intros key Hkey.
    rewrite (create_backup_file_hashes sha256 gzip_compress path_match backup_dir
               config vault_path).
    destruct (raised (run_copy btype now vault w)); [reflexivity|].
    apply apply_upserts_other.
    intros [rel f] He. apply copied_from_In in He as [He Hr]. apply (Hkey rel f He Hr).
Qed.

(** The counters of a run that returns: the number of files is the number
    of files the loop has copied, which are selected files that can be read,
    the total size is the sum of their source sizes, the compressed size is
    the size of the files in the run directory, and the record of the run
    holds the same figures.  In a fresh run directory in which no stored name
    is a directory name, the files copied are all the selected files that can
    be read. *)
Theorem create_backup_counts (btype : string) (now : Z) (health : string)
    (git : option string) (vault : Tree) (w : World) (info : BackupInfo) :
  snd (create_backup btype now health git vault w) = Returned info →
  info_file_count info = Z.of_nat (List.length (run_copied btype now vault w))
  ∧ info_total_size info = sizes (run_copied btype now vault w)
  ∧ run_copied btype now vault w
    `sublist_of` copyable (files_to_backup btype vault (index w))
  ∧ (info_file_count info
     ≤ Z.of_nat (List.length (files_to_backup btype vault (index w))))
  ∧ (store w !! backup_dir now = None →
     names_apart config (files_to_backup btype vault (index w)) →
     info_file_count info
     = Z.of_nat (List.length (copyable (files_to_backup btype vault (index w))))
     ∧ info_total_size info = sizes (copyable (files_to_backup btype vault (index w))))
  ∧ ∃ t row,
      store (fst (create_backup btype now health git vault w)) !! info_path info = Some t
      ∧ info_compressed_size info = tree_size t
      ∧ backups (index (fst (create_backup btype now health git vault w))) !! info_id info
        = Some row
      ∧ file_count row = info_file_count info
      ∧ total_size row = info_total_size info
      ∧ compressed_size row = info_compressed_size info
      ∧ checksum row = info_checksum info
      ∧ backup_path row = info_path info
      ∧ timestamp row = info_timestamp info.
Proof.
  intros Hret.
  destruct (create_backup_returned_inv _ _ _ _ _ _ _ _ _ _ _ _ _ Hret) as (Hr & sum & Hsum).
  rewrite (create_backup_returned _ _ _ _ _ _ _ _ _ _ _ _ _ Hr Hsum) in *.
  simpl in Hret. injection Hret as <-. cbn [info_file_count info_total_size
    info_compressed_size info_path info_id info_checksum info_timestamp fst].
  destruct (run_copy_log sha256 gzip_compress path_match backup_dir config vault_path
              btype now vault w) as (_ & Hc & Ht).
  pose proof (copied_from_sublist gzip_compress config now
                (files_to_backup btype vault (index w))
                (default [] (store w !! backup_dir now : option Tree))) as Hsub.
  fold (run_copied btype now vault w) in Hsub.
  split; [exact Hc|]. split; [exact Ht|]. split; [exact Hsub|]. split; [|split].
  - rewrite Hc. apply sublist_length in Hsub. unfold copyable in Hsub.
    pose proof (filter_length_le (λ e : Path * File, readable (snd e))
                  (files_to_backup btype vault (index w))). lia.
  - intros Hfresh Hap.
    destruct (run_apart sha256 gzip_compress path_match backup_dir config vault_path
                btype now vault w Hfresh Hap) as (_ & Heq & _ & _).
    rewrite Hc, Ht, Heq. auto.
  - eexists _, _. cbn [store index]. rewrite lookup_insert_eq.
    split; [reflexivity|]. split; [reflexivity|].
    unfold insert_backup. cbn [backups backups_seq]. unfold upserts_committed at 1.
    cbn [backups_seq]. rewrite lookup_insert_eq. split; [reflexivity|].
    cbn. auto 10.
Qed.

(** A run that returns hands out the next id of the sequence: no record had
    it, the records there were are unchanged, and the ids stay bounded by
    the sequence. *)
Theorem create_backup_fresh_id (btype : string) (now : Z) (health : string)
    (git : option string) (vault : Tree) (w : World) (info : BackupInfo) :
  ids_bounded (index w) →
  snd (create_backup btype now health git vault w) = Returned info →
  info_id info = backups_seq (index w) + 1
  ∧ backups (index w) !! info_id info = None
  ∧ (∀ id row, backups (index w) !! id = Some row →
       backups (index (fst (create_backup btype now health git vault w))) !! id = Some row)
  ∧ backups_seq (index (fst (create_backup btype now health git vault w))) = info_id info
  ∧ ids_bounded (index (fst (create_backup btype now health git vault w))).
Proof.
  intros Hb Hret.
  destruct (create_backup_returned_inv _ _ _ _ _ _ _ _ _ _ _ _ _ Hret) as (Hr & sum & Hsum).
  rewrite (create_backup_returned _ _ _ _ _ _ _ _ _ _ _ _ _ Hr Hsum) in *.
  simpl in Hret. injection Hret as <-. cbn [info_id fst index].
  unfold insert_backup, upserts_committed. cbn [backups backups_seq].
  assert (Hfree : backups (index w) !! (backups_seq (index w) + 1) = None).
  { destruct (backups (index w) !! (backups_seq (index w) + 1)) as [row|] eqn:E;
      [|reflexivity].
    apply Hb in E. lia. }
  split; [reflexivity|]. split; [exact Hfree|]. split; [|split; [reflexivity|]].
  - intros id row Hrow. rewrite lookup_insert_ne; [exact Hrow|].
    intros <-. congruence.
  - intros id row. cbn [backups backups_seq].
    destruct (decide (backups_seq (index w) + 1 = id)) as [<-|Hne].
    + intros _. lia.
    + rewrite lookup_insert_ne by exact Hne. intros Hrow. apply Hb in Hrow. lia.
Qed.

(** The backup a run has just written verifies. *)
Theorem verify_backup_after_create (btype : string) (now : Z) (health : string)
    (git : option string) (vault : Tree) (w : World) (info : BackupInfo) :
  snd (create_backup btype now health git vault w) = Returned info →
  verify_backup sha256 (fst (create_backup btype now health git vault w)) (info_id info)
  = Returned true.
Proof.
  intros Hret.
  destruct (create_backup_returned_inv _ _ _ _ _ _ _ _ _ _ _ _ _ Hret) as (Hr & sum & Hsum).
  rewrite (create_backup_returned _ _ _ _ _ _ _ _ _ _ _ _ _ Hr Hsum) in *.
  simpl in Hret. injection Hret as <-. cbn [info_id fst].
  apply verify_backup_true. eexists _, _. cbn [index store].
  unfold insert_backup, upserts_committed. cbn [backups backups_seq].
  rewrite lookup_insert_eq. split; [reflexivity|].
  cbn [backup_path backup_row]. rewrite lookup_insert_eq. split; [reflexivity|].
  rewrite Hsum. reflexivity.
Qed.

End RunFacts.

(** ** The checksum of a directory *)

Lemma list_byte_of_string_app (a b : string) :
  list_byte_of_string (a +:+ b) = list_byte_of_string a ++ list_byte_of_string b.
Proof.
  unfold list_byte_of_string. induction a as [|c a IH]; [reflexivity|].
  rewrite append_cons. simpl. f_equal. exact IH.
Qed.

Lemma append_assoc (a b c : string) : (a +:+ b) +:+ c = a +:+ b +:+ c.
Proof.
  induction a as [|x a IH]; [reflexivity|].
  rewrite !append_cons, IH. reflexivity.
Qed.

Lemma concat_slash_snoc (dirs : Path) (n s : string) :
  str (dirs ++ [n +:+ s]) = str (dirs ++ [n]) +:+ s.
Proof.
  unfold str. induction dirs as [|d dirs IH]; [reflexivity|].
  destruct dirs as [|d' dirs].
  - simpl. rewrite !append_assoc. reflexivity.
  - change (String.concat "/" ((d :: d' :: dirs) ++ [n +:+ s]))
      with (d +:+ "/" +:+ String.concat "/" ((d' :: dirs) ++ [n +:+ s])).
    change (String.concat "/" ((d :: d' :: dirs) ++ [n]))
      with (d +:+ "/" +:+ String.concat "/" ((d' :: dirs) ++ [n])).
    rewrite IH, !append_assoc. reflexivity.
Qed.

Lemma checksum_single_file (sha256 : bytes → string) (p : Path) (f : File) :
  readable f = true →
  calculate_backup_checksum sha256 [(p, Reg f)]
  = Returned (sha256 (list_byte_of_string (str p) ++ data f)).
Proof.
  intros Hr. unfold calculate_backup_checksum.
  change (merge_sort path_le (rglob [(p, Reg f)])) with [p].
  cbn [checksum_loop tree_get]. rewrite decide_True by reflexivity.
  rewrite Hr, feed_file_data. reflexivity.
Qed.

(** The checksum runs the encoded path and the content together: a file
    named [n ++ s] that holds [d] and a file named [n] that holds [s ++ d]
    give the same checksum, whatever the digest. *)
Theorem backup_checksum_joins_path_and_content (sha256 : bytes → string)
    (dirs : Path) (n s : string) (d : bytes) (m m' : Z) :
  calculate_backup_checksum sha256 [(dirs ++ [n +:+ s], Reg (mkFile m true d))]
  = calculate_backup_checksum sha256
      [(dirs ++ [n], Reg (mkFile m' true (list_byte_of_string s ++ d)))].
Proof.
  rewrite !checksum_single_file by reflexivity. cbn [data].
  rewrite concat_slash_snoc, list_byte_of_string_app, <- app_assoc. reflexivity.
Qed.

Lemma checksum_loop_raised_file (t : Tree) (paths : list Path) (h : bytes) (e : exn) :
  checksum_loop t paths h = Raised e →
  ∃ p d, file_at t p = Some (false, d).
Proof.
  revert h. induction paths as [|p ps IH]; intros h; simpl; [discriminate|].
  unfold file_at in *.
  destruct (tree_get t p) as [[|f]|] eqn:E; eauto.
  destruct (readable f) eqn:Hr; [eauto|].
  intros _. exists p, (data f). rewrite E, Hr. reflexivity.
Qed.

(** The checksum raises exactly when the directory holds a regular file
    that cannot be read, and the exception is [PermissionError]; it returns,
    then the digest of the sorted payload, exactly when every regular file
    can be read. *)
Theorem backup_checksum_raises_iff (sha256 : bytes → string) (t : Tree) :
  (calculate_backup_checksum sha256 t = Raised PermissionError
   ↔ ∃ p d, file_at t p = Some (false, d))
  ∧ (calculate_backup_checksum sha256 t = Returned (sha256 (sorted_payload t))
     ↔ all_readable t)
  ∧ calculate_backup_checksum sha256 t ≠ Raised BadGzipFile.
Proof.
  assert (Hraise : ∀ e, calculate_backup_checksum sha256 t = Raised e →
                        ∃ p d, file_at t p = Some (false, d)).
  { intros e. unfold calculate_backup_checksum.
    destruct (checksum_loop t _ []) as [h|e'] eqn:E; [discriminate|].
    intros _. eapply checksum_loop_raised_file, E. }
  split; [|split].
  - split; [apply Hraise|]. intros (p & d & Hp). eapply checksum_unreadable, Hp.
  - split; [|apply checksum_digest_sorted].
    intros Hret p b d Hp. destruct b; [reflexivity|].
    rewrite (checksum_unreadable sha256 t p d Hp) in Hret. discriminate.
  - intros Hbad. destruct (Hraise _ Hbad) as (p & d & Hp).
    rewrite (checksum_unreadable sha256 t p d Hp) in Hbad. discriminate.
Qed.

(** ** What a cleanup pass leaves alone *)

Section CleanupFacts.
Variable config : Config.
Variable rmtree_fails : string → bool.
Variable rmtree_keeps : string → Path → bool.

Local Abbreviation cleanup := (cleanup_old_backups config).

Lemma cleanup_other_tables (now : Z) (w : World) :
  file_hashes (index (cleanup now rmtree_fails rmtree_keeps w)) = file_hashes (index w)
  ∧ backups_seq (index (cleanup now rmtree_fails rmtree_keeps w)) = backups_seq (index w).
Proof.
  unfold cleanup_old_backups.
  pose proof (cleanup_loop rmtree_fails rmtree_keeps
                (select_old (index w) (now - retention_days config * day_us))
                (store w) (connect (index w))) as (_ & Hf & Hq & _ & _).
  destruct (List.fold_left _ _ _) as [dirs c]. simpl in *. auto.
Qed.

Lemma dir_removed_inv (old : list (Z * string)) (path : string) :
  dir_removed rmtree_fails old path = true ↔
  rmtree_fails path = false ∧ ∃ id, In (id, path) old.
Proof.
  unfold dir_removed. rewrite existsb_exists. split.
  - intros ([id p] & Hin & Hb). simpl in Hb. apply andb_prop in Hb as [Hp Hrf].
    apply String.eqb_eq in Hp. subst p. apply negb_true_iff in Hrf. eauto.
  - intros (Hrf & id & Hin). exists (id, path). split; [exact Hin|].
    simpl. rewrite String.eqb_refl, Hrf. reflexivity.
Qed.

Lemma dir_emptied_inv (old : list (Z * string)) (path : string) :
  dir_emptied rmtree_fails old path = true ↔
  rmtree_fails path = true ∧ ∃ id, In (id, path) old.
Proof.
  unfold dir_emptied. rewrite existsb_exists. split.
  - intros ([id p] & Hin & Hb). simpl in Hb. apply andb_prop in Hb as [Hp Hrf].
    apply String.eqb_eq in Hp. subst p. eauto.
  - intros (Hrf & id & Hin). exists (id, path). split; [exact Hin|].
    simpl. rewrite String.eqb_refl, Hrf. reflexivity.
Qed.

Lemma world_ext (w1 w2 : World) :
  backups (index w1) = backups (index w2) →
  backups_seq (index w1) = backups_seq (index w2) →
  file_hashes (index w1) = file_hashes (index w2) →
  store w1 = store w2 →
  w1 = w2.
Proof.
  destruct w1 as [[b1 n1 f1] s1], w2 as [[b2 n2 f2] s2]. simpl.
  intros -> -> -> ->. reflexivity.
Qed.

(** A cleanup pass deletes no row of [file_hashes] and does not move the
    sequence of ids: the change detector answers after the pass as it did
    before, and the ids stay bounded by the sequence. *)
Theorem cleanup_keeps_file_hashes (sha256 : bytes → string)
    (path_match : Path → string → bool) (vault_path : Path) (scan : Config)
    (now : Z) (w : World) :
  file_hashes (index (cleanup now rmtree_fails rmtree_keeps w)) = file_hashes (index w)
  ∧ backups_seq (index (cleanup now rmtree_fails rmtree_keeps w)) = backups_seq (index w)
  ∧ (∀ vault, get_changed_files sha256 path_match scan vault_path vault
                (index (cleanup now rmtree_fails rmtree_keeps w))
              = get_changed_files sha256 path_match scan vault_path vault (index w))
  ∧ (ids_bounded (index w) → ids_bounded (index (cleanup now rmtree_fails rmtree_keeps w))).
Proof.
  destruct (cleanup_other_tables now w) as [Hf Hq].
  split; [exact Hf|]. split; [exact Hq|]. split.
  - intros vault. rewrite !get_changed_files_filter.
    apply filter_ext. intros e. apply selected_same_row. rewrite Hf. reflexivity.
  - intros Hb id row. rewrite cleanup_backups, Hq.
    destruct (backups (index w) !! id) as [r|] eqn:E; [|discriminate].
    destruct (_ && _); [discriminate|]. intros _. eapply Hb, E.
Qed.

(** What a cleanup pass does to the directories.  A directory that no
    record older than the cutoff names is as it was.  A directory that such a
    record names is gone when its removal does not raise; when the removal
    raises it is still there, with the entries the removal had not reached.
    So a directory changes only when a record older than the cutoff names
    it, and nothing is ever added to one. *)
Theorem cleanup_removes_only_old_directories (now : Z) (w : World) (path : string) :
  ((∀ id row, backups (index w) !! id = Some row →
              timestamp row < cutoff_date config now → backup_path row ≠ path) →
   store (cleanup now rmtree_fails rmtree_keeps w) !! path = store w !! path)
  ∧ (∀ id row, backups (index w) !! id = Some row →
               timestamp row < cutoff_date config now → backup_path row = path →
       store (cleanup now rmtree_fails rmtree_keeps w) !! path
       = if rmtree_fails path then rmtree_rest rmtree_keeps path <$> store w !! path
         else None)
  ∧ (store (cleanup now rmtree_fails rmtree_keeps w) !! path ≠ store w !! path →
     ∃ id row, backups (index w) !! id = Some row
               ∧ timestamp row < cutoff_date config now
               ∧ backup_path row = path)
  ∧ (∀ t', store (cleanup now rmtree_fails rmtree_keeps w) !! path = Some t' →
       ∃ t, store w !! path = Some t ∧ t' `sublist_of` t).
Proof.
  assert (Hnamed : ∀ id row, backups (index w) !! id = Some row →
            timestamp row < cutoff_date config now → backup_path row = path →
            store (cleanup now rmtree_fails rmtree_keeps w) !! path
            = if rmtree_fails path then rmtree_rest rmtree_keeps path <$> store w !! path
              else None).
  { intros id row Hrow Hts <-.
    rewrite cleanup_store, (dir_removed_selected _ _ _ id row Hrow Hts),
      (dir_emptied_selected _ _ _ id row Hrow Hts).
    destruct (rmtree_fails (backup_path row)); reflexivity. }
  assert (Hother : store (cleanup now rmtree_fails rmtree_keeps w) !! path ≠ store w !! path →
            ∃ id row, backups (index w) !! id = Some row
                      ∧ timestamp row < cutoff_date config now
                      ∧ backup_path row = path).
  { rewrite cleanup_store.
    destruct (dir_removed rmtree_fails _ path) eqn:E.
    - intros _. apply dir_removed_inv in E as (_ & id & Hin).
      apply select_old_In in Hin as (row & ? & ? & ?). eauto.
    - destruct (dir_emptied rmtree_fails _ path) eqn:E'; [|congruence].
      intros _. apply dir_emptied_inv in E' as (_ & id & Hin).
      apply select_old_In in Hin as (row & ? & ? & ?). eauto. }
  refine (conj _ (conj Hnamed (conj Hother _))).
  - intros Hnone. rewrite cleanup_store.
    destruct (dir_removed rmtree_fails _ path) eqn:E.
    + apply dir_removed_inv in E as (_ & id & Hin).
      apply select_old_In in Hin as (row & Hrow & Hts & Hp).
      destruct (Hnone id row Hrow Hts Hp).
    + destruct (dir_emptied rmtree_fails _ path) eqn:E'; [|reflexivity].
      apply dir_emptied_inv in E' as (_ & id & Hin).
      apply select_old_In in Hin as (row & Hrow & Hts & Hp).
      destruct (Hnone id row Hrow Hts Hp).
  - intros t'. rewrite cleanup_store.
    destruct (dir_removed rmtree_fails _ path); [discriminate|].
    destruct (dir_emptied rmtree_fails _ path).
    + destruct (store w !! path) as [t|]; [|discriminate].
      intros H. injection H as <-. exists t. split; [reflexivity|].
      apply rmtree_rest_sublist.
    + intros H. exists t'. split; [exact H | reflexivity].
Qed.

(** A second pass at the same time, with the same directories failing,
    changes nothing. *)
Theorem cleanup_idempotent (now : Z) (w : World) :
  cleanup now rmtree_fails rmtree_keeps (cleanup now rmtree_fails rmtree_keeps w)
  = cleanup now rmtree_fails rmtree_keeps w.
Proof.
  destruct (cleanup_other_tables now w) as [Hf Hq].
  destruct (cleanup_other_tables now (cleanup now rmtree_fails rmtree_keeps w)) as [Hf' Hq'].
  assert (Hblocked : ∀ path, blocked rmtree_fails (store w) path = true →
            blocked rmtree_fails (store (cleanup now rmtree_fails rmtree_keeps w)) path
            = true).
  { intros path Hbl. unfold blocked in *. apply andb_prop in Hbl as [Hdir Hrf].
    rewrite cleanup_store, (dir_removed_fails rmtree_fails _ path Hrf), Hrf.
    apply bool_decide_eq_true_1 in Hdir as [t Hdir]. rewrite Hdir.
    rewrite andb_true_r. apply bool_decide_eq_true_2.
    destruct (dir_emptied rmtree_fails _ path); simpl; eauto. }
  apply world_ext; [| congruence | congruence |].
  - apply map_eq. intros id.
    rewrite (cleanup_backups _ _ _ now (cleanup now rmtree_fails rmtree_keeps w)).
    rewrite cleanup_backups.
    destruct (backups (index w) !! id) as [row|]; [|reflexivity].
    destruct (timestamp row <? cutoff_date config now) eqn:Hold;
      [|simpl; rewrite Hold; reflexivity].
    destruct (blocked rmtree_fails (store w) (backup_path row)) eqn:Hbl;
      [|reflexivity].
    simpl. rewrite Hold, (Hblocked _ Hbl). reflexivity.
  - apply map_eq. intros path.
    rewrite (cleanup_store _ _ _ now (cleanup now rmtree_fails rmtree_keeps w)).
    assert (Hstill : ∀ id, In (id, path)
                       (select_old (index (cleanup now rmtree_fails rmtree_keeps w))
                          (cutoff_date config now)) →
              rmtree_fails path = true
              ∧ In (id, path) (select_old (index w) (cutoff_date config now))).
    { intros id Hin. apply select_old_In in Hin as (row & Hrow & Hts & Hp).
      rewrite cleanup_backups in Hrow.
      destruct (backups (index w) !! id) as [r|] eqn:Hr; [|discriminate].
      destruct (blocked rmtree_fails (store w) (backup_path r)) eqn:Hbl.
      - rewrite andb_false_r in Hrow. injection Hrow as ->.
        unfold blocked in Hbl. apply andb_prop in Hbl as [_ Hbl].
        split; [congruence|]. apply select_old_In. eauto.
      - destruct (timestamp r <? cutoff_date config now) eqn:Hold; simpl in Hrow;
          [discriminate|].
        injection Hrow as ->. apply Z.ltb_ge in Hold. lia. }
    destruct (dir_removed rmtree_fails _ path) eqn:E.
    { exfalso. apply dir_removed_inv in E as (Hrf & id & Hin).
      apply Hstill in Hin as [Hin _]. congruence. }
    destruct (dir_emptied rmtree_fails _ path) eqn:E'; [|reflexivity].
    apply dir_emptied_inv in E' as (Hrf & id & Hin).
    apply Hstill in Hin as [_ Hin].
    rewrite cleanup_store, (dir_removed_fails rmtree_fails _ path Hrf).
    replace (dir_emptied rmtree_fails (select_old (index w) (cutoff_date config now)) path)
      with true by (symmetry; apply dir_emptied_inv; eauto).
    destruct (store w !! path) as [t|]; [|reflexivity].
    cbn [fmap option_fmap option_map]. rewrite rmtree_rest_idem. reflexivity.
Qed.

(** A record at or after the cutoff whose directory no older record names
    verifies and restores after the pass as it did before. *)
Theorem cleanup_keeps_young_backups_usable (sha256 : bytes → string)
    (gzip_decompress : bytes → option bytes) (now later : Z) (w : World)
    (id : Z) (row : BackupRow) (target : Tree) :
  backups (index w) !! id = Some row →
  cutoff_date config now ≤ timestamp row →
  (∀ id' row', backups (index w) !! id' = Some row' →
               timestamp row' < cutoff_date config now →
               backup_path row' ≠ backup_path row) →
  verify_backup sha256 (cleanup now rmtree_fails rmtree_keeps w) id
  = verify_backup sha256 w id
  ∧ restore_backup gzip_decompress later (cleanup now rmtree_fails rmtree_keeps w) id target
    = restore_backup gzip_decompress later w id target.
Proof.
  intros Hrow Hyoung Hown.
  assert (Hkept : backups (index (cleanup now rmtree_fails rmtree_keeps w)) !! id = Some row).
  { rewrite cleanup_backups, Hrow.
    replace (timestamp row <? cutoff_date config now) with false
      by (symmetry; apply Z.ltb_ge, Hyoung).
    reflexivity. }
  assert (Hdir : store (cleanup now rmtree_fails rmtree_keeps w) !! backup_path row
                 = store w !! backup_path row).
  { rewrite cleanup_store.
    destruct (dir_removed rmtree_fails _ (backup_path row)) eqn:E.
    - apply dir_removed_inv in E as (_ & id' & Hin).
      apply select_old_In in Hin as (row' & Hrow' & Hts & Hp).
      destruct (Hown id' row' Hrow' Hts Hp).
    - destruct (dir_emptied rmtree_fails _ (backup_path row)) eqn:E'; [|reflexivity].
      apply dir_emptied_inv in E' as (_ & id' & Hin).
      apply select_old_In in Hin as (row' & Hrow' & Hts & Hp).
      destruct (Hown id' row' Hrow' Hts Hp). }
  unfold verify_backup, restore_backup. rewrite Hkept, Hrow, Hdir. auto.
Qed.

End CleanupFacts.

(** ** Listing the backups *)

Global Instance newer_first_total : Total newer_first.
Proof. intros a b. unfold newer_first. lia. Qed.

Global Instance newer_first_trans : Transitive newer_first.
Proof. intros a b c. unfold newer_first. lia. Qed.

Lemma StronglySorted_map {A B} (R : relation A) (R' : relation B) (g : A → B)
    (l : list A) :
  (∀ a b, R a b → R' (g a) (g b)) →
  StronglySorted R l → StronglySorted R' (List.map g l).
Proof.
  intros Hg. induction 1 as [|x l _ IH Hall]; simpl; constructor; [exact IH|].
  rewrite List.Forall_forall in *. intros y Hy.
  apply in_map_iff in Hy as (a & <- & Ha). auto.
Qed.

Lemma list_backups_In (w : World) (e : BackupListing) :
  In e (list_backups w) ↔
  ∃ row, backups (index w) !! l_id e = Some row ∧ e = listing (store w) (l_id e, row).
Proof.
  unfold list_backups. rewrite in_map_iff. split.
  - intros ([id row] & <- & Hin). exists row. simpl.
    rewrite <- list_elem_of_In, merge_sort_Permutation, elem_of_map_to_list in Hin. auto.
  - intros (row & Hrow & He). exists (l_id e, row). split; [auto|].
    rewrite <- list_elem_of_In, merge_sort_Permutation, elem_of_map_to_list. exact Hrow.
Qed.

Lemma list_backups_sorted (w : World) :
  StronglySorted (λ a b, l_timestamp b ≤ l_timestamp a) (list_backups w).
Proof.
  unfold list_backups.
  apply (StronglySorted_map newer_first); [auto|].
  apply StronglySorted_merge_sort; apply _.
Qed.

(** The list holds one entry for every record of the index and no other,
    newest first; an entry carries the fields of its record, and its
    [exists] flag tells whether the directory of the record is there. *)
Theorem list_backups_sorted_complete (w : World) :
  StronglySorted (λ a b, l_timestamp b ≤ l_timestamp a) (list_backups w)
  ∧ List.map l_id (list_backups w) ≡ₚ List.map fst (map_to_list (backups (index w)))
  ∧ NoDup (List.map l_id (list_backups w))
  ∧ (∀ e, In e (list_backups w) ↔
          ∃ row, backups (index w) !! l_id e = Some row
                 ∧ e = listing (store w) (l_id e, row))
  ∧ (∀ e, In e (list_backups w) →
          l_exists e = true ↔ is_Some (store w !! l_path e)).
Proof.
  assert (Hperm : List.map l_id (list_backups w)
                  ≡ₚ List.map fst (map_to_list (backups (index w)))).
  { unfold list_backups. rewrite map_map. simpl.
    change (List.map (λ x : Z * BackupRow, fst x)
              (merge_sort newer_first (map_to_list (backups (index w)))))
      with (fst <$> merge_sort newer_first (map_to_list (backups (index w)))).
    rewrite merge_sort_Permutation. reflexivity. }
  split; [|split; [exact Hperm|split; [|split]]].
  - apply list_backups_sorted.
  - rewrite Hperm. apply NoDup_fst_map_to_list.
  - apply list_backups_In.
  - intros e He. apply list_backups_In in He as (row & _ & ->). simpl.
    apply bool_decide_eq_true.
Qed.

Section ListAfterRun.
Variable sha256 : bytes → string.
Variable gzip_compress : bytes → bytes.
Variable path_match : Path → string → bool.
Variable backup_dir : Z → string.
Variable config : Config.
Variable vault_path : Path.

Local Abbreviation create_backup :=
  (create_backup sha256 gzip_compress path_match backup_dir config vault_path).

(** After a run that returns, at a time later than every recorded
    timestamp, the list starts with the new backup: its id, its file count,
    its path, and its directory is there. *)
Theorem list_backups_after_create (btype : string) (now : Z) (health : string)
    (git : option string) (vault : Tree) (w : World) (info : BackupInfo) :
  (∀ id row, backups (index w) !! id = Some row → timestamp row < now) →
  snd (create_backup btype now health git vault w) = Returned info →
  ∃ first rest,
    list_backups (fst (create_backup btype now health git vault w)) = first :: rest
    ∧ l_id first = info_id info
    ∧ l_timestamp first = now
    ∧ l_file_count first = info_file_count info
    ∧ l_path first = info_path info
    ∧ l_exists first = true.
Proof.
  intros Hpast Hret.
  destruct (create_backup_returned_inv _ _ _ _ _ _ _ _ _ _ _ _ _ Hret) as (Hr & sum & Hsum).
  pose proof (create_backup_returned _ _ _ _ _ _ _ _ health git _ _ _ Hr Hsum) as Hrun.
  rewrite Hrun in Hret. simpl in Hret. injection Hret as <-.
  rewrite Hrun. cbn [fst info_id info_file_count info_path].
  set (w' := mkWorld _ _).
  set (row0 := backup_row backup_dir btype now health git
                 (run_copy sha256 gzip_compress path_match backup_dir config vault_path
                    btype now vault w) sum) in *.
  set (id0 := backups_seq (index w) + 1).
  assert (Hrow0 : backups (index w') !! id0 = Some row0).
  { unfold w', insert_backup, upserts_committed. cbn [index backups backups_seq].
    apply lookup_insert_eq. }
  assert (Hold : ∀ id row, backups (index w') !! id = Some row →
                           (id = id0 ∧ row = row0) ∨ timestamp row < now).
  { intros id row. unfold w', insert_backup, upserts_committed.
    cbn [index backups backups_seq]. fold id0 row0.
    destruct (decide (id0 = id)) as [<-|Hne].
    - rewrite lookup_insert_eq. intros H. injection H as <-. auto.
    - rewrite lookup_insert_ne by exact Hne. intros H. right. eapply Hpast, H. }
  assert (Hnew : In (listing (store w') (id0, row0)) (list_backups w')).
  { apply list_backups_In. exists row0. auto. }
  pose proof (list_backups_sorted w') as Hsorted.
  destruct (list_backups w') as [|first rest] eqn:El; [destruct Hnew|].
  exists first, rest. split; [reflexivity|].
  assert (Hfirst : first = listing (store w') (id0, row0)).
  { assert (Hf : In first (list_backups w')) by (rewrite El; left; reflexivity).
    apply list_backups_In in Hf as (row & Hrow & Hf).
    destruct (Hold _ _ Hrow) as [[Hid ->]|Hlt]; [rewrite Hf, Hid; reflexivity|].
    destruct Hnew as [Hnew|Hnew]; [exact Hnew|].
    apply StronglySorted_inv in Hsorted as [_ Hall].
    rewrite List.Forall_forall in Hall. apply Hall in Hnew.
    rewrite Hf in Hnew. simpl in Hnew. lia. }
  rewrite Hfirst. cbn [listing l_id l_timestamp l_file_count l_path l_exists fst snd].
  repeat split.
  unfold w'. cbn [store backup_path backup_row]. rewrite lookup_insert_eq.
  apply bool_decide_eq_true. eauto.
Qed.

End ListAfterRun.

(** ** The run after a run *)

Lemma nil_of_no_member {A} (l : list A) : (∀ x, ¬ In x l) → l = [].
Proof. destruct l as [|x l]; [reflexivity|]. intros H. destruct (H x). left. reflexivity. Qed.

Section NextRun.
Variable sha256 : bytes → string.
Variable gzip_compress : bytes → bytes.
Variable path_match : Path → string → bool.
Variable backup_dir : Z → string.
Variable config : Config.
Variable vault_path : Path.

Local Abbreviation should_exclude := (should_exclude path_match config vault_path).
Local Abbreviation get_changed_files := (get_changed_files sha256 path_match config vault_path).
Local Abbreviation files_to_backup := (files_to_backup sha256 path_match config vault_path).
Local Abbreviation selected := (selected sha256 path_match config vault_path).
Local Abbreviation create_backup :=
  (create_backup sha256 gzip_compress path_match backup_dir config vault_path).

(** When every file of the vault that is not excluded can be read, the
    incremental run that follows a run of any type over the same vault
    selects nothing, provided that run wrote into a fresh directory and no
    stored name of a file it selected is the name of a directory it had to
    make. *)
Theorem next_incremental_run_is_empty (btype : string) (now : Z) (health : string)
    (git : option string) (vault : Tree) (w : World) :
  NoDup (List.map str (rglob vault)) →
  (∀ rel f, In (rel, Reg f) vault → should_exclude rel = false → readable f = true) →
  store w !! backup_dir now = None →
  names_apart config (files_to_backup btype vault (index w)) →
  get_changed_files vault (index (fst (create_backup btype now health git vault w))) = [].
Proof.
  intros Hnd Hread Hfresh Hap. apply nil_of_no_member. intros [rel f] Hsel.
  apply (next_run_selects sha256 gzip_compress path_match backup_dir config vault_path
           btype now health git vault w rel f Hnd) in Hsel as [Hbefore Hno].
  apply Hno.
  pose proof Hbefore as Hb. apply get_changed_files_In in Hb as [Hin Hs].
  assert (Hex : should_exclude rel = false).
  { unfold selected in Hs. apply andb_prop in Hs as [Hex _].
    apply negb_true_iff in Hex. exact Hex. }
  apply (run_apart_commits sha256 gzip_compress path_match backup_dir config vault_path
           btype now vault w (rel, f) Hfresh Hap).
  - unfold files_to_backup. destruct (String.eqb btype "incremental"); [exact Hbefore|].
    apply all_files_In. auto.
  - apply (Hread rel f Hin Hex).
Qed.

End NextRun.

(** ** Restoring *)

Section RestoreFacts.
Variable gzip_decompress : bytes → option bytes.

Local Abbreviation restore_one := (restore_one gzip_decompress).
Local Abbreviation restore_loop := (restore_loop gzip_decompress).
Local Abbreviation restore_backup := (restore_backup gzip_decompress).

Lemma restore_loop_not_false (later : Z) (files : list (Path * File)) (t : Tree) :
  snd (restore_loop later t files) ≠ Returned false.
Proof.
  revert t. induction files as [|e files IH]; intros t; simpl; [discriminate|].
  destruct (restore_one later t e) as [t' [x|]]; [discriminate | apply IH].
Qed.

(** The restore returns false exactly when the record is missing or its
    directory is missing, and then the destination is untouched; a restore
    that fails on a file raises. *)
Theorem restore_backup_false_iff (later : Z) (w : World) (backup_id : Z) (target : Tree) :
  (snd (restore_backup later w backup_id target) = Returned false
   ↔ backups (index w) !! backup_id = None
     ∨ ∃ row, backups (index w) !! backup_id = Some row
              ∧ store w !! backup_path row = None)
  ∧ (snd (restore_backup later w backup_id target) = Returned false →
     fst (restore_backup later w backup_id target) = target).
Proof.
  unfold restore_backup.
  destruct (backups (index w) !! backup_id) as [row|] eqn:Hrow.
  - destruct (store w !! backup_path row) as [t|] eqn:Hdir.
    + split.
      * split.
        -- intros H. destruct (restore_loop_not_false _ _ _ H).
        -- intros [H|(r & Hr & Hd)]; [discriminate|]. injection Hr as <-. congruence.
      * intros H. destruct (restore_loop_not_false _ _ _ H).
    + split; [|reflexivity]. split; [|reflexivity]. intros _. right. eauto.
  - split; [|reflexivity]. split; [auto | reflexivity].
Qed.




End RestoreFacts.

(** ** The run directory *)

Lemma write_all_In (l : list (Path * File)) (t : Tree) (q : Path) (n : Node) :
  In (q, n) (write_all t l) →
  In (q, n) t ∨ ∃ e, In e l ∧ q = fst e ∧ n = Reg (snd e).
Proof.
  revert t. induction l as [|e l IH]; intros t; [auto|].
  change (write_all t (e :: l)) with (write_all (write_file t (fst e) (snd e)) l).
  intros H. apply IH in H as [H|(e' & He' & Hq)].
  - apply write_file_In in H as [H|[-> ->]]; [auto|].
    right. exists e. simpl. auto.
  - right. exists e'. simpl. auto.
Qed.

Section RunDirectory.
Variable sha256 : bytes → string.
Variable gzip_compress : bytes → bytes.
Variable path_match : Path → string → bool.
Variable backup_dir : Z → string.
Variable config : Config.
Variable vault_path : Path.

Local Abbreviation should_exclude := (should_exclude path_match config vault_path).
Local Abbreviation files_to_backup := (files_to_backup sha256 path_match config vault_path).
Local Abbreviation stored_entry := (stored_entry gzip_compress config).
Local Abbreviation create_backup :=
  (create_backup sha256 gzip_compress path_match backup_dir config vault_path).
Local Abbreviation run_copy :=
  (run_copy sha256 gzip_compress path_match backup_dir config vault_path).

(** A run into a fresh directory writes nothing but the selected files and
    the directories above them: every entry of the run directory comes from
    a regular file of the vault that is selected and not excluded; it is
    what the copy loop stores for that file, which then can be read, under
    its stored name or inside a directory of the file's own name, or it is a
    directory above the file. *)
Theorem run_directory_holds_only_selected_files (btype : string) (now : Z)
    (health : string) (git : option string) (vault : Tree) (w : World) :
  store w !! backup_dir now = None →
  ∃ t, store (fst (create_backup btype now health git vault w)) !! backup_dir now = Some t
       ∧ ∀ q n, In (q, n) t →
           ∃ rel f, In (rel, Reg f) vault
                    ∧ should_exclude rel = false
                    ∧ In (rel, f) (files_to_backup btype vault (index w))
                    ∧ ((readable f = true
                        ∧ (q = fst (stored_entry now (rel, f)) ∨ q = rel ++ [name rel])
                        ∧ n = Reg (snd (stored_entry now (rel, f))))
                       ∨ (n = Dir ∧ q ∈ ancestors (parent rel))).
Proof.
  intros Hfresh.
  rewrite (create_backup_store sha256 gzip_compress path_match backup_dir config vault_path),
    lookup_insert_eq.
  eexists. split; [reflexivity|]. intros q n Hin.
  unfold run_copy, copy_files in Hin. rewrite Hfresh in Hin. cbn [default] in Hin.
  apply (copy_loop_entries sha256 gzip_compress path_match backup_dir config vault_path)
    in Hin as [[]|([rel f] & He & Hq)].
  destruct (selected_file_of_vault sha256 path_match config vault_path
              btype vault (index w) rel f He) as (Hv & Hex).
  exists rel, f. split; [exact Hv|]. split; [exact Hex|]. split; [exact He|].
  cbn [fst snd] in Hq. rewrite (stored_entry_fst gzip_compress config). exact Hq.
Qed.

End RunDirectory.

(** ** How a run ends *)

Section RunOutcome.
Variable sha256 : bytes → string.
Variable gzip_compress : bytes → bytes.
Variable path_match : Path → string → bool.
Variable backup_dir : Z → string.
Variable config : Config.
Variable vault_path : Path.

Local Abbreviation copy_one := (copy_one sha256 gzip_compress config).
Local Abbreviation files_to_backup := (files_to_backup sha256 path_match config vault_path).
Local Abbreviation create_backup :=
  (create_backup sha256 gzip_compress path_match backup_dir config vault_path).
Local Abbreviation run_copy :=
  (run_copy sha256 gzip_compress path_match backup_dir config vault_path).
Local Abbreviation run_copied :=
  (run_copied sha256 gzip_compress path_match backup_dir config vault_path).
Local Abbreviation upserts_committed :=
  (upserts_committed sha256 gzip_compress path_match backup_dir config vault_path).

(** The exception that leaves the loop is the one [mkdir] raises for one of
    the files, on the run directory as the loop leaves it. *)
Lemma copy_loop_raised_inv (now : Z) (files : list (Path * File)) (s : CopyState) (x : exn) :
  raised s = None →
  raised (List.fold_left (copy_one now) files s) = Some x →
  ∃ e, In e files
       ∧ mkdir (dest (List.fold_left (copy_one now) files s)) (parent (fst e)) = Raised x.
Proof.
  revert s. induction files as [|e files IH]; intros s Hs; cbn [List.fold_left].
  - congruence.
  - rewrite copy_one_step by exact Hs.
    destruct (mkdir (dest s) (parent (fst e))) as [t|y] eqn:Hm.
    + intros Hx. apply IH in Hx as (e' & He' & Hm').
      * exists e'. split; [right; exact He' | exact Hm'].
      * destruct (backup_file gzip_compress config now t e); reflexivity.
    + rewrite (copy_loop_raised sha256 gzip_compress config now files
                 (mkCopyState (dest s) (issued s) (total s) (copied s) (Some y)) y eq_refl).
      cbn [raised dest]. intros Hx. injection Hx as <-.
      exists e. split; [left; reflexivity | exact Hm].
Qed.

(** A run raises in one of two ways.  Either a directory cannot be made
    because a regular file of the run directory is in the way: the exception
    is [FileExistsError] or [NotADirectoryError], and the index is as it was
    before the run, whatever the loop had upserted.  Or a file of the run
    directory cannot be read for the checksum: the exception is
    [PermissionError], the upserts are committed and no record is inserted;
    that directory was there before the run. *)
Theorem create_backup_raises (btype : string) (now : Z) (health : string)
    (git : option string) (vault : Tree) (w : World) (x : exn) :
  snd (create_backup btype now health git vault w) = Raised x →
  ((x = FileExistsError ∨ x = NotADirectoryError)
   ∧ index (fst (create_backup btype now health git vault w)) = index w
   ∧ ∃ rel f p g t,
       In (rel, f) (files_to_backup btype vault (index w))
       ∧ p ∈ ancestors (parent rel)
       ∧ store (fst (create_backup btype now health git vault w)) !! backup_dir now = Some t
       ∧ tree_get t p = Some (Reg g))
  ∨ (x = PermissionError
     ∧ index (fst (create_backup btype now health git vault w))
       = upserts_committed btype now vault w
     ∧ is_Some (store w !! backup_dir now)).
Proof.
  intros Hret.
  rewrite (create_backup_index sha256 gzip_compress path_match backup_dir config vault_path),
    (create_backup_store sha256 gzip_compress path_match backup_dir config vault_path).
  unfold create_backup in Hret. cbn zeta in Hret.
  destruct (raised (run_copy btype now vault w)) as [y|] eqn:Hr.
  - cbn [snd] in Hret. injection Hret as ->. left.
    unfold run_copy, copy_files in Hr.
    apply copy_loop_raised_inv in Hr as ([rel f] & He & Hm); [|reflexivity].
    apply mkdir_raised in Hm as (Hx & p & Hp & Hreg).
    split; [exact Hx|]. split; [reflexivity|].
    unfold is_reg in Hreg.
    destruct (tree_get _ p) as [[|g]|] eqn:E; try discriminate.
    exists rel, f, p, g. eexists. split; [exact He|]. split; [exact Hp|].
    split; [apply lookup_insert_eq | exact E].
  - destruct (calculate_backup_checksum sha256 (dest (run_copy btype now vault w)))
      as [sum|e] eqn:Hsum; [discriminate|].
    cbn [snd] in Hret. injection Hret as ->. right.
    assert (Hx : x = PermissionError).
    { unfold calculate_backup_checksum in Hsum.
      destruct (checksum_loop _ _ []) as [h|e'] eqn:E; [discriminate|].
      injection Hsum as <-. eapply checksum_loop_raises, E. }
    split; [exact Hx|]. split; [reflexivity|].
    destruct (store w !! backup_dir now) as [t0|] eqn:Hdir; [eauto|].
    rewrite (fresh_run_checksum sha256 gzip_compress path_match backup_dir config
               vault_path btype now vault w Hdir) in Hsum.
    discriminate.
Qed.

(** A run into a fresh directory, where no stored name of a selected file is
    the name of a directory the run makes, returns: it gets the next id, it
    has copied every selected file that can be read, and its checksum is the
    digest of the sorted payload of the run directory. *)
Theorem create_backup_returns_when_names_apart (btype : string) (now : Z)
    (health : string) (git : option string) (vault : Tree) (w : World) :
  store w !! backup_dir now = None →
  names_apart config (files_to_backup btype vault (index w)) →
  ∃ info t,
    snd (create_backup btype now health git vault w) = Returned info
    ∧ store (fst (create_backup btype now health git vault w)) !! backup_dir now = Some t
    ∧ info_id info = backups_seq (index w) + 1
    ∧ run_copied btype now vault w = copyable (files_to_backup btype vault (index w))
    ∧ info_file_count info
      = Z.of_nat (List.length (copyable (files_to_backup btype vault (index w))))
    ∧ info_total_size info = sizes (copyable (files_to_backup btype vault (index w)))
    ∧ info_checksum info = sha256 (sorted_payload t)
    ∧ (∀ e, In e (files_to_backup btype vault (index w)) → readable (snd e) = true →
         ∃ g, tree_get t (stored_name config (fst e)) = Some (Reg g)).
Proof.
  intros Hfresh Hap.
  destruct (run_apart sha256 gzip_compress path_match backup_dir config vault_path
              btype now vault w Hfresh Hap) as (Hr & Heq & _ & Hstored).
  pose proof (fresh_run_checksum sha256 gzip_compress path_match backup_dir config
                vault_path btype now vault w Hfresh) as Hsum.
  destruct (run_copy_log sha256 gzip_compress path_match backup_dir config vault_path
              btype now vault w) as (_ & Hc & Ht).
  rewrite (create_backup_returned _ _ _ _ _ _ _ _ _ _ _ _ _ Hr Hsum).
  eexists _, _. cbn [fst snd store info_id info_file_count info_total_size info_checksum].
  rewrite lookup_insert_eq, Hc, Ht, Heq.
  refine (conj eq_refl (conj eq_refl (conj eq_refl (conj eq_refl (conj eq_refl
            (conj eq_refl (conj eq_refl _))))))).
  intros e He Hre. specialize (Hstored e He Hre). unfold is_reg in Hstored.
  destruct (tree_get _ (stored_name config (fst e))) as [[|g]|]; try discriminate.
  eauto.
Qed.

End RunOutcome.

(** ** The further properties on concrete runs *)

(** The picture of the vault is selected by a full run. *)
Lemma files_to_backup_sound_witness :
  In (["img.png"], Reg Scenario.picture) Scenario.vault_two
  ∧ should_exclude pure_path_match default_config Sample.vault_root ["img.png"] = false
  ∧ In (["img.png"], Scenario.picture)
       (all_files pure_path_match default_config Sample.vault_root Scenario.vault_two).
Proof.
  apply (files_to_backup_sound Sample.digest pure_path_match default_config
           Sample.vault_root "full" Scenario.vault_two empty_index).
  vm_compute. auto.
Defined.

(** After a full run the entry of the note holds its digest and its time. *)
Lemma create_backup_records_hash_witness :
  file_hashes (index (fst (Sample.backup "full" 1000 "{}" None Scenario.vault_two
                             Sample.world0))) !! "notes/a.md"
  = Some (mkFileHashRow (Sample.digest (Sample.text "alpha")) 5 None).
Proof.
  assert (Hnd : NoDup (List.map str (rglob Scenario.vault_two)))
    by (apply (bool_decide_unpack _); vm_compute; exact I).
  assert (Hap : names_apart default_config
                  (Scenario.to_backup "full" Scenario.vault_two (index Sample.world0)))
    by (apply (bool_decide_unpack _); vm_compute; exact I).
  destruct (create_backup_records_hash Sample.digest Sample.deflate pure_path_match
              Sample.run_dir default_config Sample.vault_root
              "full" 1000 "{}" None Scenario.vault_two Sample.world0 Hnd)
    as (_ & Hstd & _).
  apply (Hstd eq_refl Hap ["notes"; "a.md"] Scenario.note).
  - vm_compute. auto.
  - reflexivity.
Defined.

Lemma plain_run_returns :
  snd (Sample.backup "full" 1000 "{}" None Scenario.vault_plain Sample.world0)
  = Returned Scenario.info_plain.
Proof. vm_compute. reflexivity. Qed.

Lemma world0_ids_bounded : ids_bounded (index Sample.world0).
Proof. intros id row H. simpl in H. rewrite lookup_empty in H. discriminate. Qed.

(** A full run over a picture and an excluded temporary file counts one
    file of four bytes. *)
Lemma create_backup_counts_witness :
  info_file_count Scenario.info_plain
  = Z.of_nat (List.length (Scenario.copied_by "full" 1000 Scenario.vault_plain
                             Sample.world0))
  ∧ info_total_size Scenario.info_plain
    = sizes (Scenario.copied_by "full" 1000 Scenario.vault_plain Sample.world0).
Proof.
  destruct (create_backup_counts Sample.digest Sample.deflate pure_path_match
              Sample.run_dir default_config Sample.vault_root
              "full" 1000 "{}" None Scenario.vault_plain Sample.world0
              Scenario.info_plain plain_run_returns) as (Hc & Ht & _).
  split; [exact Hc | exact Ht].
Defined.

(** The first run on an empty index gets id 1. *)
Lemma create_backup_fresh_id_witness :
  info_id Scenario.info_plain = backups_seq (index Sample.world0) + 1
  ∧ backups (index Sample.world0) !! info_id Scenario.info_plain = None.
Proof.
  destruct (create_backup_fresh_id Sample.digest Sample.deflate pure_path_match
              Sample.run_dir default_config Sample.vault_root
              "full" 1000 "{}" None Scenario.vault_plain Sample.world0
              Scenario.info_plain world0_ids_bounded plain_run_returns)
    as (Hid & Hfree & _).
  split; [exact Hid | exact Hfree].
Defined.

Lemma verify_backup_after_create_witness :
  verify_backup Sample.digest
    (fst (Sample.backup "full" 1000 "{}" None Scenario.vault_plain Sample.world0)) 1
  = Returned true.
Proof.
  apply (verify_backup_after_create Sample.digest Sample.deflate pure_path_match
           Sample.run_dir default_config Sample.vault_root
           "full" 1000 "{}" None Scenario.vault_plain Sample.world0
           Scenario.info_plain plain_run_returns).
Defined.

(** A full run over the vault with a note and a picture, restored into an
    empty destination. *)
Lemma restore_round_trip_witness :
  ∃ info,
    snd (Sample.backup "full" 1000 "{}" None Scenario.vault_two Sample.world0)
    = Returned info
    ∧ Scenario.restore 2000
        (fst (Sample.backup "full" 1000 "{}" None Scenario.vault_two Sample.world0))
        (info_id info) []
      = (as_entries
           (List.map (restored_entry default_config 2000)
              (copyable (all_files pure_path_match default_config Sample.vault_root
                           Scenario.vault_two))),
         Returned true).
Proof.
  apply (restore_round_trip Sample.digest Sample.deflate Sample.inflate pure_path_match
           Sample.run_dir default_config Sample.vault_root).
  - intros b. reflexivity.
  - reflexivity.
  - apply (bool_decide_unpack _). vm_compute. exact I.
  - assert (E : copyable (all_files pure_path_match default_config Sample.vault_root
                            Scenario.vault_two)
                = [(["notes"; "a.md"], Scenario.note); (["img.png"], Scenario.picture)])
      by (vm_compute; reflexivity).
    rewrite E. repeat constructor; vm_compute; discriminate.
  - apply (bool_decide_unpack _). vm_compute. exact I.
Defined.

(** The young record of [world_old] after a pass that removes the old
    one. *)
Lemma cleanup_keeps_young_backups_usable_witness :
  verify_backup Sample.digest
    (cleanup_old_backups default_config Sample.clock Sample.rmtree_ok
       Sample.rmtree_keeps_picture Sample.world_old) 2
  = verify_backup Sample.digest Sample.world_old 2
  ∧ Scenario.restore 2000
      (cleanup_old_backups default_config Sample.clock Sample.rmtree_ok
         Sample.rmtree_keeps_picture Sample.world_old)
      2 []
    = Scenario.restore 2000 Sample.world_old 2 [].
Proof.
  apply (cleanup_keeps_young_backups_usable default_config Sample.rmtree_ok
           Sample.rmtree_keeps_picture
           Sample.digest Sample.inflate Sample.clock 2000 Sample.world_old 2
           Sample.row_young []).
  - vm_compute. reflexivity.
  - vm_compute. discriminate.
  - intros id' row' Hrow Hts.
    unfold Sample.world_old in Hrow. cbn [index backups] in Hrow.
    rewrite lookup_insert in Hrow. case_decide.
    + injection Hrow as <-. vm_compute. discriminate.
    + rewrite lookup_singleton in Hrow. case_decide; [|discriminate].
      injection Hrow as <-. vm_compute in Hts. discriminate.
Defined.

(** The first backup heads the list. *)
Lemma list_backups_after_create_witness :
  ∃ first rest,
    list_backups (fst (Sample.backup "full" 1000 "{}" None Scenario.vault_plain
                         Sample.world0))
    = first :: rest
    ∧ l_id first = 1
    ∧ l_timestamp first = 1000
    ∧ l_file_count first = 1
    ∧ l_path first = "backups/backup_1000"
    ∧ l_exists first = true.
Proof.
  apply (list_backups_after_create Sample.digest Sample.deflate pure_path_match
           Sample.run_dir default_config Sample.vault_root
           "full" 1000 "{}" None Scenario.vault_plain Sample.world0 Scenario.info_plain).
  - intros id row H. simpl in H. rewrite lookup_empty in H. discriminate.
  - exact plain_run_returns.
Defined.

(** After the full run over the vault, an incremental run finds nothing. *)
Lemma next_incremental_run_is_empty_witness :
  Sample.changed Scenario.vault_two
    (index (fst (Sample.backup "full" 1000 "{}" None Scenario.vault_two Sample.world0)))
  = [].
Proof.
  apply (next_incremental_run_is_empty Sample.digest Sample.deflate pure_path_match
           Sample.run_dir default_config Sample.vault_root).
  - apply (bool_decide_unpack _). vm_compute. exact I.
  - intros rel f Hin _. simpl in Hin.
    destruct Hin as [H|[H|[H|[H|[]]]]]; try discriminate;
      injection H as _ <-; reflexivity.
  - reflexivity.
  - apply (bool_decide_unpack _). vm_compute. exact I.
Defined.


(** The run directory of the full run over the vault. *)
Lemma run_directory_holds_only_selected_files_witness :
  ∃ t, store (fst (Sample.backup "full" 1000 "{}" None Scenario.vault_two Sample.world0))
         !! Sample.run_dir 1000 = Some t
       ∧ ∀ q n, In (q, n) t →
           ∃ rel f, In (rel, Reg f) Scenario.vault_two
                    ∧ should_exclude pure_path_match default_config Sample.vault_root rel
                      = false
                    ∧ In (rel, f) (Scenario.to_backup "full" Scenario.vault_two
                                     (index Sample.world0))
                    ∧ ((readable f = true
                        ∧ (q = fst (stored_entry Sample.deflate default_config 1000 (rel, f))
                           ∨ q = rel ++ [name rel])
                        ∧ n = Reg (snd (stored_entry Sample.deflate default_config 1000
                                          (rel, f))))
                       ∨ (n = Dir ∧ q ∈ ancestors (parent rel))).
Proof.
  apply (run_directory_holds_only_selected_files Sample.digest Sample.deflate
           pure_path_match Sample.run_dir default_config Sample.vault_root
           "full" 1000 "{}" None Scenario.vault_two Sample.world0).
  reflexivity.
Defined.

(** A pass over [world_stuck] in which every removal succeeds: the directory
    of the old record is gone, the one of the young record is as it was. *)
Lemma cleanup_removes_only_old_directories_witness :
  store (cleanup_old_backups default_config Sample.clock Sample.rmtree_ok
           Sample.rmtree_keeps_picture Sample.world_stuck) !! "backups/old" = None
  ∧ store (cleanup_old_backups default_config Sample.clock Sample.rmtree_ok
             Sample.rmtree_keeps_picture Sample.world_stuck) !! "backups/young"
    = Some [].
Proof.
  destruct (cleanup_removes_only_old_directories default_config Sample.rmtree_ok
              Sample.rmtree_keeps_picture Sample.clock Sample.world_stuck "backups/old")
    as (_ & Hold & _).
  destruct (cleanup_removes_only_old_directories default_config Sample.rmtree_ok
              Sample.rmtree_keeps_picture Sample.clock Sample.world_stuck "backups/young")
    as (Hyoung & _).
  split.
  - apply (Hold 1 Sample.row_old); vm_compute; reflexivity.
  - refine (eq_trans (Hyoung _) _); [|vm_compute; reflexivity].
    intros id row Hrow Hts.
    unfold Sample.world_stuck in Hrow. cbn [index backups] in Hrow.
    rewrite lookup_insert in Hrow. case_decide.
    + injection Hrow as <-. vm_compute. discriminate.
    + rewrite lookup_singleton in Hrow. case_decide; [|discriminate].
      injection Hrow as <-. vm_compute in Hts. discriminate.
Defined.

(** The stored name of the note, [d.md.gz], is the name of a directory of
    the vault that comes after it: the run raises where it has to make that
    directory, and the index is as it was. *)
Lemma create_backup_raises_witness :
  snd (Sample.backup "full" 1000 "{}" None Scenario.vault_clash Sample.world0)
  = Raised FileExistsError
  ∧ index (fst (Sample.backup "full" 1000 "{}" None Scenario.vault_clash Sample.world0))
    = index Sample.world0.
Proof.
  assert (Hret : snd (Sample.backup "full" 1000 "{}" None Scenario.vault_clash Sample.world0)
                 = Raised FileExistsError) by (vm_compute; reflexivity).
  split; [exact Hret|].
  destruct (create_backup_raises Sample.digest Sample.deflate pure_path_match
              Sample.run_dir default_config Sample.vault_root
              "full" 1000 "{}" None Scenario.vault_clash Sample.world0 FileExistsError Hret)
    as [(_ & Hix & _)|(Hx & _)]; [exact Hix | discriminate].
Defined.

(** A full run over the vault with a note in a folder and a picture
    returns with two files. *)
Lemma create_backup_returns_when_names_apart_witness :
  ∃ info t,
    snd (Sample.backup "full" 1000 "{}" None Scenario.vault_two Sample.world0)
    = Returned info
    ∧ store (fst (Sample.backup "full" 1000 "{}" None Scenario.vault_two Sample.world0))
        !! Sample.run_dir 1000 = Some t
    ∧ info_id info = 1
    ∧ info_file_count info = 2.
Proof.
  assert (Hap : names_apart default_config
                  (Scenario.to_backup "full" Scenario.vault_two (index Sample.world0)))
    by (apply (bool_decide_unpack _); vm_compute; exact I).
  destruct (create_backup_returns_when_names_apart Sample.digest Sample.deflate
              pure_path_match Sample.run_dir default_config Sample.vault_root
              "full" 1000 "{}" None Scenario.vault_two Sample.world0 eq_refl Hap)
    as (info & t & Hret & Hdir & Hid & _ & Hcount & _).
  exists info, t. split; [exact Hret|]. split; [exact Hdir|]. split; [exact Hid|].
  rewrite Hcount. reflexivity.
Defined.

(** ** A stored name that is a directory name *)

(** The vault holds the note [d.md] and, enumerated before it, the directory
    [d.md.gz] with a picture.  A full run makes the directory for the
    picture; the compressed copy of the note cannot be opened under the
    note's stored name, the [except] clause skips the note although it can
    be read, and the run returns with one file.  The note gets no entry, and
    the next incremental run selects it. *)
Theorem create_backup_skips_file_under_directory_name :
  copyable (Scenario.to_backup "full" Scenario.vault_clash_rev (index Sample.world0))
  = [(["d.md.gz"; "b.png"], Scenario.picture); (["d.md"], Scenario.note)]
  ∧ Scenario.copied_by "full" 1000 Scenario.vault_clash_rev Sample.world0
    = [(["d.md.gz"; "b.png"], Scenario.picture)]
  ∧ snd (Sample.backup "full" 1000 "{}" None Scenario.vault_clash_rev Sample.world0)
    = Returned (mkBackupInfo 1 1000 "full" 1 4 4 (RatioPercent 4 4) "d.md.gz/b.pngbeta"
                  "backups/backup_1000")
  ∧ store (fst (Sample.backup "full" 1000 "{}" None Scenario.vault_clash_rev
                  Sample.world0)) !! "backups/backup_1000"
    = Some [(["d.md.gz"], Dir);
            (["d.md.gz"; "b.png"], Reg (mkFile 7 true (Sample.text "beta")))]
  ∧ file_hashes (index (fst (Sample.backup "full" 1000 "{}" None Scenario.vault_clash_rev
                               Sample.world0))) !! "d.md" = None
  ∧ Sample.changed Scenario.vault_clash_rev
      (index (fst (Sample.backup "full" 1000 "{}" None Scenario.vault_clash_rev
                     Sample.world0)))
    = [(["d.md"], Scenario.note)].
Proof.
  refine (conj _ (conj _ (conj _ (conj _ (conj _ _))))); vm_compute; reflexivity.
Qed.
